(** * EventNexus: the dispatch engine of [NexusEventManager]

    A shallow embedding of [src/event.manager.ts]: the listener registry
    ([register]), synchronous dispatch ([emit]), asynchronous dispatch
    ([emitAsync], with its inner [runOne]) and the timeout / abort wrapper
    ([withTimeout]).

    Modelling choices, all visible in the definitions below:
    - a JavaScript string is the list of its UTF-16 code units;
    - a listener object is known by its identity (a number); what its
      [handler] does when called is given by the environment;
    - the [Map<string, Set<...>>] of the manager is a finite map from keys
      to references into a store of [Set] objects, so that a reference
      obtained before a mutation observes it afterwards, as in the source;
    - a [Set] is the list of its elements in insertion order;
    - the code runs in a state monad with exceptions; the state carries the
      manager and everything the code lets the outside observe (handler
      calls, calls of the error sink, console output);
    - the error sink [onError] is given by the environment: its calls are
      recorded, and each of them returns to the dispatcher or throws; a
      statement that names no sink is about one that returns;
    - a handler acts on the manager through [register]; a dispatch started
      from inside a handler is part of what that handler does and is not
      followed;
    - the type [Modes] of [options.mode] is declared outside the sources at
      hand: a mode is any string, as at run time. *)

From stdpp Require Import gmap list strings.

(** ** JavaScript strings and [String.prototype.trim] *)

Abbreviation jsstring := (list N).

(** The code units of an ASCII literal. *)
Fixpoint js (s : string) : jsstring :=
  match s with
  | EmptyString => []
  | String a s' => Ascii.N_of_ascii a :: js s'
  end.

(** WhiteSpace and LineTerminator of ECMAScript, the characters [trim] strips. *)
Definition isWhiteSpace (c : N) : bool :=
  ((9 <=? c) && (c <=? 13) || (c =? 32) || (c =? 160) || (c =? 0x1680)
   || (0x2000 <=? c) && (c <=? 0x200A)
   || (c =? 0x2028) || (c =? 0x2029) || (c =? 0x202F) || (c =? 0x205F)
   || (c =? 0x3000) || (c =? 0xFEFF))%N.

Fixpoint trimStart (s : jsstring) : jsstring :=
  match s with
  | c :: s' => if isWhiteSpace c then trimStart s' else s
  | [] => []
  end.

Definition trimEnd (s : jsstring) : jsstring := reverse (trimStart (reverse s)).

Definition trim (s : jsstring) : jsstring := trimEnd (trimStart s).

(** The wildcard key. *)
Definition star : jsstring := js "*".

(** ** Values of the program *)

(** Identity of a listener object, and of a [Set] object in the store. *)
Definition lid := nat.
Definition loc := nat.

(** What can be thrown or be the reason of a rejection: a value of the
    listener's own, [new Error('Timeout')] or [new Error('Aborted')]. *)
Inductive error :=
  | Thrown (n : nat)
  | ErrTimeout
  | ErrAborted.

Global Instance error_eq_dec : EqDecision error.
Proof. solve_decision. Defined.

(** A settled promise. The fulfilment value is never read by the code. *)
Inductive Settled :=
  | Fulfilled
  | Rejected (e : error).

Global Instance Settled_eq_dec : EqDecision Settled.
Proof. solve_decision. Defined.

(** [NexusEvent<T>] *)
Record NexusEvent (T : Type) := { name : jsstring; payload : T }.
Arguments name {T} _.
Arguments payload {T} _.

(** The static configuration of the class. [maxListeners] is [None] for
    [Infinity]; [onError] tells whether a sink is installed. *)
Record Config := {
  debug : bool;
  maxListeners : option nat;
  onError : bool
}.

(** ** The registry: [Map<string, Set<NexusEventListener>>] *)

Record Manager := {
  listeners : gmap jsstring loc;
  store : gmap loc (list lid)
}.

Definition empty_manager : Manager := {| listeners := ∅; store := ∅ |}.

(** The elements of the [Set] object behind a reference, in insertion order. *)
Definition deref (m : Manager) (r : loc) : list lid := default [] (store m !! r).

(** The listeners registered under a key, through the map. *)
Definition listenersFor (m : Manager) (k : jsstring) : list lid :=
  match listeners m !! k with
  | Some r => deref m r
  | None => []
  end.

(** [Set.prototype.add] on the element list: a member stays where it is, a
    new element goes last. *)
Definition add_elem (x : lid) (s : list lid) : list lid :=
  if bool_decide (x ∈ s) then s else s ++ [x].

(** ** What the outside observes *)

Inductive Msg :=
  | MaxListenersMsg (key : jsstring) (size max : nat)
  | DispatchMsg (key : jsstring)
  | DispatchAsyncMsg (key : jsstring)
  | ListenerErrorMsg (key : jsstring) (e : error) (i : option nat).

Inductive Obs :=
  | Invoke (l : lid)
  | OnError (e : error) (event : jsstring) (listenerIndex : nat)
  | ConsoleDebug (m : Msg)
  | ConsoleError (m : Msg).

(** The listeners whose handler was called, in call order. *)
Definition invoked (o : list Obs) : list lid :=
  omap (λ x, match x with Invoke l => Some l | _ => None end) o.

(** The calls of the error sink, in call order. *)
Definition sink_calls (o : list Obs) : list (error * jsstring * nat) :=
  omap (λ x, match x with OnError e k i => Some (e, k, i) | _ => None end) o.

(** ** The monad of the code: state, exceptions, and a pending [await] *)

Record St := {
  mgr : Manager;
  out : list Obs;
  idx : nat          (* the counter [let idx = 0] of [emit] *)
}.

Definition init_St (m : Manager) : St := {| mgr := m; out := []; idx := 0 |}.

Inductive Res (A : Type) :=
  | Ok (a : A)
  | Exn (e : error)
  | Pending.
Arguments Ok {A} _.
Arguments Exn {A} _.
Arguments Pending {A}.

Definition M (A : Type) : Type := St → Res A * St.

Global Instance M_ret : MRet M := λ A a s, (Ok a, s).

Global Instance M_bind : MBind M := λ A B f c s,
  match c s with
  | (Ok a, s') => f a s'
  | (Exn e, s') => (Exn e, s')
  | (Pending, s') => (Pending, s')
  end.

Definition throw {A} (e : error) : M A := λ s, (Exn e, s).

(** An [await] on a promise that never settles. *)
Definition never {A} : M A := λ s, (Pending, s).

(** [try { body } catch (e) { handler e }] *)
Definition try_catch {A} (body : M A) (handler : error → M A) : M A := λ s,
  match body s with
  | (Exn e, s') => handler e s'
  | r => r
  end.

(** [try { body } finally { fin }]: [fin] runs on both exits of [body]; an
    exception of [body] goes on after it. *)
Definition try_finally {A} (body : M A) (fin : M ()) : M A := λ s,
  match body s with
  | (Ok a, s') => match fin s' with
                  | (Ok _, s'') => (Ok a, s'')
                  | (Exn e, s'') => (Exn e, s'')
                  | (Pending, s'') => (Pending, s'')
                  end
  | (Exn e, s') => match fin s' with
                   | (Ok _, s'') => (Exn e, s'')
                   | (Exn e', s'') => (Exn e', s'')
                   | (Pending, s'') => (Pending, s'')
                   end
  | (Pending, s') => (Pending, s')
  end.

Definition when (b : bool) (c : M ()) : M () := if b then c else mret ().

(** State accessors. *)
Definition get_mgr : M Manager := λ s, (Ok (mgr s), s).
Definition put_mgr (m : Manager) : M () := λ s,
  (Ok (), {| mgr := m; out := out s; idx := idx s |}).
Definition emit_obs (o : Obs) : M () := λ s,
  (Ok (), {| mgr := mgr s; out := out s ++ [o]; idx := idx s |}).
Definition get_idx : M nat := λ s, (Ok (idx s), s).
Definition put_idx (i : nat) : M () := λ s,
  (Ok (), {| mgr := mgr s; out := out s; idx := i |}).

(** Evaluation of the monadic primitives on an explicit state. *)
Ltac mrun :=
  cbv [mbind M_bind mret M_ret get_mgr put_mgr emit_obs get_idx put_idx
       when throw never init_St];
  cbn [mgr out idx fst snd listeners store].

(** The operations of [Map] and [Set] that the code uses. *)
Definition Map_get (k : jsstring) : M (option loc) :=
  m ← get_mgr; mret (listeners m !! k).

Definition Map_set (k : jsstring) (r : loc) : M () :=
  m ← get_mgr;
  put_mgr {| listeners := <[k := r]> (listeners m); store := store m |}.

Definition new_Set : M loc :=
  m ← get_mgr;
  let r := fresh (dom (store m)) in
  put_mgr {| listeners := listeners m; store := <[r := []]> (store m) |};;
  mret r.

Definition Set_add (r : loc) (x : lid) : M () :=
  m ← get_mgr;
  put_mgr {| listeners := listeners m;
             store := <[r := add_elem x (deref m r)]> (store m) |}.

Definition Set_size (r : loc) : M nat :=
  m ← get_mgr; mret (length (deref m r)).

Definition Array_from (r : loc) : M (list lid) :=
  m ← get_mgr; mret (deref m r).

(** ** [register] *)

Section Register.
Variable cfg : Config.

Definition exceeds (size : nat) : bool :=
  match maxListeners cfg with
  | Some max => bool_decide (max < size)
  | None => false
  end.

Definition register (eventName : jsstring) (listener : lid) : M () :=
  let name := trim eventName in
  got ← Map_get name;
  set ← match got with Some r => mret r | None => new_Set end;
  Set_add set listener;;
  size ← Set_size set;
  (if exceeds size
   then when (debug cfg)
          (emit_obs (ConsoleDebug
             (MaxListenersMsg name size (default 0 (maxListeners cfg)))))
   else mret ());;
  Map_set name set.

(** Registrations in sequence. *)
Fixpoint register_all (rs : list (jsstring * lid)) : M () :=
  match rs with
  | [] => mret ()
  | (k, l) :: rs' => register k l;; register_all rs'
  end.
End Register.

(** ** Listeners as the environment gives them *)

(** How a call of [listener.handler(event)] ends on the caller's stack. *)
Inductive SyncResult :=
  | Throws (e : error)
  | ReturnsVoid
  | ReturnsPromise.

(** What can happen to one wrapped invocation while it is awaited. *)
Inductive RaceEvent :=
  | PSettles (r : Settled)   (* the promise of the handler settles *)
  | TimerFires               (* the timer of [setTimeout] expires *)
  | SignalAborts.            (* the [AbortSignal] dispatches 'abort' *)

(** The behaviour of a handler for an event: the [register] calls it makes
    on the manager before it returns or throws, how it returns, what
    [signal.aborted] reads when its invocation is wrapped, and the events
    around its promise in the order they occur. *)
Record Behaviour := {
  regs : list (jsstring * lid);
  sync : SyncResult;
  aborted_at_call : bool;
  race : list RaceEvent
}.

(** ** [withTimeout] *)

(** A JavaScript number, as far as [!x] and [Number.isFinite] look at it. *)
Inductive num :=
  | NaN
  | Infinite (negative : bool)
  | Finite (z : Z).

Definition truthy (n : num) : bool :=
  match n with
  | NaN => false
  | Infinite _ => true
  | Finite z => negb (z =? 0)%Z
  end.

(** An optional argument was supplied. *)
Definition given {A} (o : option A) : bool :=
  match o with Some _ => true | None => false end.

Definition isFinite (n : num) : bool :=
  match n with Finite _ => true | _ => false end.

Inductive TimerState :=
  | NoTimer     (* [timer] is undefined *)
  | Armed       (* [setTimeout] was called, the callback has not run *)
  | Cleared     (* [clearTimeout] reached the armed timer *)
  | Fired.      (* the callback has run *)

(** The promise made by [new Promise(...)] in [withTimeout], with the
    resources its executor took. *)
Record Wrapper := {
  timer : TimerState;
  subscribed : bool;            (* [onAbort] is a listener of the signal *)
  then_attached : bool;         (* [p.then(...)] was reached *)
  inner : option Settled;       (* the state of [p] *)
  settled : option Settled      (* the state of the returned promise *)
}.

Definition is_armed (t : TimerState) : bool :=
  match t with Armed => true | _ => false end.

Definition clearTimeout (t : TimerState) : TimerState :=
  match t with Armed => Cleared | _ => t end.

(** [resolve(v)] or [reject(e)]: only the first call settles the promise. *)
Definition settle (o : Settled) (w : Wrapper) : Wrapper :=
  {| timer := timer w; subscribed := subscribed w;
     then_attached := then_attached w; inner := inner w;
     settled := match settled w with None => Some o | x => x end |}.

(** [onAbort]: [clearTimeout(timer); reject(new Error('Aborted'))] *)
Definition onAbort (w : Wrapper) : Wrapper :=
  settle (Rejected ErrAborted)
    {| timer := clearTimeout (timer w); subscribed := subscribed w;
       then_attached := then_attached w; inner := inner w;
       settled := settled w |}.

(** The timer callback: [reject(new Error('Timeout'))] *)
Definition onTimer (w : Wrapper) : Wrapper :=
  settle (Rejected ErrTimeout)
    {| timer := Fired; subscribed := subscribed w;
       then_attached := then_attached w; inner := inner w;
       settled := settled w |}.

(** Either callback of [p.then]: [clearTimeout(timer);
    signal?.removeEventListener('abort', onAbort); resolve(v)] (or
    [reject(e)]) *)
Definition onSettled (r : Settled) (w : Wrapper) : Wrapper :=
  settle r
    {| timer := clearTimeout (timer w); subscribed := false;
       then_attached := then_attached w; inner := Some r;
       settled := settled w |}.

(** What [withTimeout] returns: [p] itself, or the wrapper. *)
Inductive Awaited :=
  | Passed (p : option Settled)
  | Wrapped (w : Wrapper).

(** [withTimeout(p, timeoutMs, signal)], where [p] is given by its state at
    the call and [signal] by what [signal.aborted] reads. *)
Definition withTimeout (p : option Settled) (timeoutMs : option num)
    (signal : option bool) : Awaited :=
  if negb (from_option truthy false timeoutMs) && negb (given signal)
  then Passed p
  else
    let w0 := {| timer := NoTimer; subscribed := false;
                 then_attached := false; inner := p; settled := None |} in
    match signal with
    | Some true => Wrapped (onAbort w0)
    | _ =>
        let w1 := {| timer := timer w0;
                     subscribed := given signal;
                     then_attached := then_attached w0; inner := inner w0;
                     settled := settled w0 |} in
        let w2 := {| timer := if from_option truthy false timeoutMs
                                 && from_option isFinite false timeoutMs
                              then Armed else timer w1;
                     subscribed := subscribed w1;
                     then_attached := then_attached w1; inner := inner w1;
                     settled := settled w1 |} in
        let w3 := {| timer := timer w2; subscribed := subscribed w2;
                     then_attached := true; inner := inner w2;
                     settled := settled w2 |} in
        (* a callback of [then] on a promise that is already settled runs
           before any timer or event: the events of a race are those that
           come once the reactions due at the call have run, and an abort
           dispatched before that, in the turn of the call, is not among
           them *)
        Wrapped (match p with Some r => onSettled r w3 | None => w3 end)
    end.

(** One event of the race. An event that cannot occur in the current state
    (a timer that is not armed, an abort with no subscription, a promise
    that has already settled or has no [then]) changes nothing. *)
Definition race_step (a : Awaited) (ev : RaceEvent) : Awaited :=
  match a with
  | Passed p =>
      match ev, p with
      | PSettles r, None => Passed (Some r)
      | _, _ => a
      end
  | Wrapped w =>
      match ev with
      | PSettles r =>
          match inner w with
          | None => if then_attached w then Wrapped (onSettled r w)
                    else Wrapped {| timer := timer w; subscribed := subscribed w;
                                    then_attached := false; inner := Some r;
                                    settled := settled w |}
          | Some _ => a
          end
      | TimerFires =>
          match timer w with Armed => Wrapped (onTimer w) | _ => a end
      | SignalAborts =>
          if subscribed w then Wrapped (onAbort w) else a
      end
  end.

Definition run_race (evs : list RaceEvent) (a : Awaited) : Awaited :=
  foldl race_step a evs.

(** The state of the promise that the caller awaits. *)
Definition outcome (a : Awaited) : option Settled :=
  match a with
  | Passed p => p
  | Wrapped w => settled w
  end.

(** No timer is left armed and [onAbort] is no longer subscribed. *)
Definition released (a : Awaited) : bool :=
  match a with
  | Passed _ => true
  | Wrapped w => negb (is_armed (timer w)) && negb (subscribed w)
  end.

(** ** [EmitAsyncOptions] *)

Inductive AbortSignal := TheSignal.

Record EmitAsyncOptions := {
  mode : option jsstring;
  stopOnError : option bool;
  timeOutMs : option num;
  signal : option AbortSignal
}.

(** [mode === 'sequential'] *)
Definition is_sequential (mode : jsstring) : bool :=
  bool_decide (mode = js "sequential").

(** ** The error sink *)

(** [NexusEventManager.onError] is a function that the user of the class
    installs. The code only calls it: a call returns, or it throws. A
    sink is given by how its calls end, each by its arguments. *)
Class Sink := { sink_outcome : error → jsstring → nat → option error }.

(** A sink that returns from every call. A statement that names no sink
    is about this one. *)
Global Instance returning_sink : Sink := {| sink_outcome := λ _ _ _, None |}.

(** ** Dispatch *)

(** A call of [runOne] in concurrent mode: suspended at its [await] on the
    wrapped promise, or returned, its own promise settled. *)
Inductive Task :=
  | Awaiting (i : nat) (a : Awaited)
  | Done (r : Settled).

Definition is_done (t : Task) : bool :=
  match t with Done _ => true | Awaiting _ _ => false end.

(** The calls of [runOne] handed to [Promise.all], and the reason of the
    first of them that rejected. *)
Record Join := {
  tasks : list Task;
  rejection : option error
}.

Definition note (t : Task) (rej : option error) : option error :=
  match rej, t with
  | None, Done (Rejected e) => Some e
  | _, _ => rej
  end.

(** [Promise.all]: rejected with the first rejection, fulfilled once every
    input is fulfilled, pending otherwise. *)
Definition Promise_all (j : Join) : option Settled :=
  match rejection j with
  | Some e => Some (Rejected e)
  | None => if forallb is_done (tasks j) then Some Fulfilled else None
  end.

(** [await p] *)
Definition await (p : option Settled) : M () :=
  match p with
  | Some Fulfilled => mret ()
  | Some (Rejected e) => throw e
  | None => never
  end.

Section Dispatch.
Context {T : Type}.
Context {sk : Sink}.
Variable cfg : Config.
Variable handler : lid → NexusEvent T → Behaviour.

(** [listener.handler(event)], as far as it runs on the caller's stack. *)
Definition call_handler (l : lid) (event : NexusEvent T) : M () :=
  emit_obs (Invoke l);;
  register_all cfg (regs (handler l event));;
  match sync (handler l event) with
  | Throws e => throw e
  | ReturnsVoid | ReturnsPromise => mret ()
  end.

(** [NexusEventManager.onError?.(e, { event: name, listenerIndex: i })]:
    the call is made where the code stands, inside a [catch] block and
    with no guard of its own, so that what the sink throws goes on from
    there. *)
Definition report (e : error) (name : jsstring) (i : nat) : M () :=
  when (onError cfg)
    (emit_obs (OnError e name i);;
     match sink_outcome e name i with
     | Some e' => throw e'
     | None => mret ()
     end).

(** *** [emit] *)

(** The [for] loop of [run] over [Array.from(set)]. *)
Fixpoint run_loop (event : NexusEvent T) (name : jsstring) (ls : list lid)
    : M () :=
  match ls with
  | [] => mret ()
  | l :: rest =>
      try_finally
        (try_catch (call_handler l event)
           (λ e,
              i ← get_idx;
              report e name i;;
              when (debug cfg)
                (emit_obs (ConsoleError (ListenerErrorMsg name e None)))))
        (i ← get_idx; put_idx (S i));;
      run_loop event name rest
  end.

Definition run (event : NexusEvent T) (name : jsstring) (set : option loc)
    : M () :=
  match set with
  | None => mret ()
  | Some r =>
      size ← Set_size r;
      if bool_decide (size = 0) then mret ()
      else ls ← Array_from r; run_loop event name ls
  end.

Definition emit (event : NexusEvent T) : M () :=
  when (debug cfg) (emit_obs (ConsoleDebug (DispatchMsg (name event))));;
  let name := trim (name event) in
  specific ← Map_get name;
  wildcard ← Map_get star;
  put_idx 0;;
  run event name specific;;
  match wildcard with
  | Some _ => run event name wildcard
  | None => mret ()
  end.

(** *** [emitAsync] *)

Section RunOne.
(** The variables of [emitAsync] that the closure [runOne] reads. *)
Variable event : NexusEvent T.
Variable name : jsstring.
Variable mode : jsstring.
Variable stopOnError : bool.
Variable timeOutMs : option num.
Variable signal : option AbortSignal.

(** [Promise.resolve(listener.handler(event))] after the handler returned. *)
Definition promise_of (b : Behaviour) : option Settled :=
  match sync b with
  | ReturnsVoid => Some Fulfilled
  | _ => None
  end.

(** The promise that [runOne] awaits for a listener, at the call of
    [withTimeout] and after the events of its race. *)
Definition wrap (l : lid) : Awaited :=
  let b := handler l event in
  withTimeout (promise_of b) timeOutMs
    (match signal with Some _ => Some (aborted_at_call b) | None => None end).

Definition wrapped (l : lid) : Awaited :=
  run_race (race (handler l event)) (wrap l).

(** The [catch] block of [runOne]. *)
Definition runOne_catch (i : nat) (e : error) : M () :=
  report e name i;;
  when (debug cfg)
    (emit_obs (ConsoleError (ListenerErrorMsg name e (Some i))));;
  if is_sequential mode && stopOnError then throw e else mret ().

(** [runOne(listener, idx)], awaited to its end. *)
Definition runOne (l : lid) (i : nat) : M () :=
  try_catch
    (call_handler l event;;
     await (outcome (wrapped l)))
    (runOne_catch i).

(** The sequential loop: [for (...) await runOne(snapshot[i], i)]. *)
Fixpoint seq_loop (ls : list lid) (i : nat) : M () :=
  match ls with
  | [] => mret ()
  | l :: rest => runOne l i;; seq_loop rest (S i)
  end.

(** [runOne] as [Promise.all] sees it. The call runs to its [await] and
    returns a promise; the rest runs when the awaited promise has
    settled. A handler that throws never reaches the [await]. The awaited
    promise is kept as its race leaves it: if it settles at all, the
    continuation runs at the turn of the call. *)
Definition finish (c : M ()) : M Task := λ s,
  match c s with
  | (Ok _, s') => (Ok (Done Fulfilled), s')
  | (Exn e, s') => (Ok (Done (Rejected e)), s')
  | (Pending, s') => (Pending, s')
  end.

Definition runOne_start (l : lid) (i : nat) : M Task :=
  try_catch
    (call_handler l event;; mret (Awaiting i (wrapped l)))
    (λ e, finish (runOne_catch i e)).

Definition runOne_resume (t : Task) : M Task :=
  match t with
  | Awaiting i a =>
      match outcome a with
      | Some Fulfilled => mret (Done Fulfilled)
      | Some (Rejected e) => finish (runOne_catch i e)
      | None => mret t
      end
  | Done _ => mret t
  end.

(** [snapshot.map((l, i) => runOne(l, i))] *)
Fixpoint start_all (ls : list lid) (i : nat) (rej : option error)
    : M Join :=
  match ls with
  | [] => mret {| tasks := []; rejection := rej |}
  | l :: rest =>
      t ← runOne_start l i;
      j ← start_all rest (S i) (note t rej);
      mret {| tasks := t :: tasks j; rejection := rejection j |}
  end.

(** The continuation of the call at position [i] gets its turn. *)
Definition resume_at (i : nat) (j : Join) : M Join :=
  match tasks j !! i with
  | Some t =>
      t' ← runOne_resume t;
      mret {| tasks := <[i := t']> (tasks j);
              rejection := if is_done t then rejection j
                           else note t' (rejection j) |}
  | None => mret j
  end.

(** The continuations run in the order in which the awaited promises
    settle; [sched] is that order, as far as time has advanced. *)
Fixpoint resume_all (sched : list nat) (j : Join) : M Join :=
  match sched with
  | [] => mret j
  | i :: rest => j' ← resume_at i j; resume_all rest j'
  end.

Definition concurrent (snapshot : list lid) (sched : list nat) : M () :=
  j ← start_all snapshot 0 None;
  j' ← resume_all sched j;
  await (Promise_all j').
End RunOne.

(** [emitAsync(event, options)]. In concurrent mode [sched] is the order
    in which the wrapped promises have settled so far. *)
Definition emitAsync (event : NexusEvent T) (options : EmitAsyncOptions)
    (sched : list nat) : M () :=
  when (debug cfg) (emit_obs (ConsoleDebug (DispatchAsyncMsg (name event))));;
  let mode' := default (js "sequential") (mode options) in
  let stopOnError' := default false (stopOnError options) in
  let name := trim (name event) in
  specific ← Map_get name;
  wildcard ← Map_get star;
  s1 ← match specific with Some r => Array_from r | None => mret [] end;
  s2 ← match wildcard with Some r => Array_from r | None => mret [] end;
  let snapshot := s1 ++ s2 in
  if is_sequential mode'
  then seq_loop event name mode' stopOnError' (timeOutMs options)
         (signal options) snapshot 0
  else concurrent event name mode' stopOnError' (timeOutMs options)
         (signal options) snapshot sched.
End Dispatch.

(** ** Notions used to state the properties *)

(** The invariant of the registry: every key is bound to a live [Set], no
    [Set] is bound to two keys, and a [Set] holds no element twice. *)
Record wf (m : Manager) : Prop := {
  wf_live : ∀ k r, listeners m !! k = Some r → is_Some (store m !! r);
  wf_inj : ∀ k1 k2 r,
    listeners m !! k1 = Some r → listeners m !! k2 = Some r → k1 = k2;
  wf_nodup : ∀ r s, store m !! r = Some s → NoDup s
}.

(** The manager that [register] leaves. *)
Definition after_register (cfg : Config) (k : jsstring) (l : lid)
    (m : Manager) : Manager :=
  mgr (register cfg k l (init_St m)).2.

Definition after_registers (cfg : Config) (rs : list (jsstring * lid))
    (m : Manager) : Manager :=
  mgr (register_all cfg rs (init_St m)).2.

(** How many entries a listener has in a list of listeners, and the list
    of the other listeners. *)
Definition occurrences (x : lid) (s : list lid) : nat :=
  length (filter (x =.) s).

Definition others (x : lid) (s : list lid) : list lid :=
  filter (x ≠.) s.



(** Output that is neither a handler call nor a call of the sink. *)
Definition silent (o : list Obs) : Prop := invoked o = [] ∧ sink_calls o = [].

(** The calls that the sink receives when the listeners [ls], at the
    positions from [i] on, are each tried once and [fails] tells whose
    invocation fails and with what. *)
Fixpoint reports (fails : lid → option error) (name : jsstring) (i : nat)
    (ls : list lid) : list (error * jsstring * nat) :=
  match ls with
  | [] => []
  | l :: rest =>
      match fails l with
      | Some e => (e, name, i) :: reports fails name (S i) rest
      | None => reports fails name (S i) rest
      end
  end.

Section Notions.
Context {T : Type}.
Variable cfg : Config.
Variable handler : lid → NexusEvent T → Behaviour.
Variable event : NexusEvent T.

(** The handler of a listener throws. *)
Definition thrown (l : lid) : option error :=
  match sync (handler l event) with
  | Throws e => Some e
  | _ => None
  end.

(** The manager once the handlers of [ls] have run, one after the other. *)
Definition after_handlers (ls : list lid) (m : Manager) : Manager :=
  foldl (λ m' l, after_registers cfg (regs (handler l event)) m') m ls.

(** The outcome of one invocation in [runOne]: what the [try] block ends
    with, the handler call and the wrapped promise taken together. *)
Definition listener_outcome (timeOutMs : option num)
    (signal : option AbortSignal) (l : lid) : option Settled :=
  match thrown l with
  | Some e => Some (Rejected e)
  | None => outcome (wrapped handler event timeOutMs signal l)
  end.

Definition failure (timeOutMs : option num) (signal : option AbortSignal)
    (l : lid) : option error :=
  match listener_outcome timeOutMs signal l with
  | Some (Rejected e) => Some e
  | _ => None
  end.

(** The sink call of [runOne] for the listener at position [i]. *)
Definition report_of (name : jsstring) (timeOutMs : option num)
    (signal : option AbortSignal) (l : lid) (i : nat)
    : list (error * jsstring * nat) :=
  match failure timeOutMs signal l with
  | Some e => if onError cfg then [(e, name, i)] else []
  | None => []
  end.

(** Concurrent mode. The call of [runOne] at position [k], for listener
    [l], once the continuations at the positions in [turns] have had
    their turn: it is over if the handler threw, or if its turn has come
    and the wrapped promise settles. *)
Definition task_state (timeOutMs : option num) (signal : option AbortSignal)
    (turns : list nat) (k : nat) (l : lid) : Task :=
  match thrown l with
  | Some _ => Done Fulfilled
  | None =>
      let a := wrapped handler event timeOutMs signal l in
      if bool_decide (k ∈ turns) && given (outcome a)
      then Done Fulfilled else Awaiting k a
  end.

(** The sink calls made by the continuations, in the order of their
    turns: a position reports once, at its first turn, if its handler
    returned and the wrapped promise rejects. *)
Definition late_report (name : jsstring) (timeOutMs : option num)
    (signal : option AbortSignal) (snapshot : list lid) (turns : list nat)
    (k : nat) : list (error * jsstring * nat) :=
  match snapshot !! k with
  | Some l =>
      match thrown l, outcome (wrapped handler event timeOutMs signal l) with
      | None, Some (Rejected e) =>
          if bool_decide (k ∈ turns) then []
          else if onError cfg then [(e, name, k)] else []
      | _, _ => []
      end
  | None => []
  end.

Fixpoint late_reports (name : jsstring) (timeOutMs : option num)
    (signal : option AbortSignal) (snapshot : list lid) (turns : list nat)
    (sched : list nat) : list (error * jsstring * nat) :=
  match sched with
  | [] => []
  | k :: rest =>
      late_report name timeOutMs signal snapshot turns k
      ++ late_reports name timeOutMs signal snapshot (k :: turns) rest
  end.
End Notions.

(** The sink returns from every call it can get: none is installed, or
    the one installed never throws. *)
Definition sink_returns (cfg : Config) (sk : Sink) : Prop :=
  onError cfg = true → ∀ e n i, sink_outcome e n i = None.

(** What the call of the sink for a failure throws, if a sink is installed
    and throws. *)
Definition sink_throws (cfg : Config) (sk : Sink) (e : error)
    (name : jsstring) (i : nat) : option error :=
  if onError cfg then sink_outcome e name i else None.



(** ** Concrete inputs *)

Module Sample.
Definition cfg : Config :=
  {| debug := false; maxListeners := None; onError := true |}.

(** A handler that returns at once and does nothing else. *)
Definition quiet : Behaviour :=
  {| regs := []; sync := ReturnsVoid; aborted_at_call := false; race := [] |}.

(** Listener 1 registers listener 9 under the wildcard key; listener 2
    throws; the promise of listener 3 never settles, so that a timer can
    fire; the promise of listener 4 rejects; the others are quiet. *)
Definition handler (l : lid) (e : NexusEvent ()) : Behaviour :=
  match l with
  | 1 => {| regs := [(js "*", 9)]; sync := ReturnsVoid;
            aborted_at_call := false; race := [] |}
  | 2 => {| regs := []; sync := Throws (Thrown 2);
            aborted_at_call := false; race := [] |}
  | 3 => {| regs := []; sync := ReturnsPromise;
            aborted_at_call := false; race := [TimerFires] |}
  | 4 => {| regs := []; sync := ReturnsPromise;
            aborted_at_call := false; race := [PSettles (Rejected (Thrown 4))] |}
  | _ => quiet
  end.

Definition event (key : string) : NexusEvent () :=
  {| name := js key; payload := () |}.

(** The manager after a list of registrations, from the empty one. *)
Definition manager (rs : list (string * lid)) : Manager :=
  after_registers cfg (map (λ r, (js r.1, r.2)) rs) empty_manager.

Definition options (m : option string) (stop : option bool)
    (t : option num) (sg : option AbortSignal) : EmitAsyncOptions :=
  {| mode := js <$> m; stopOnError := stop; timeOutMs := t; signal := sg |}.

(** A sink that throws at every call. *)
Definition throwing : Sink := {| sink_outcome := λ _ _ _, Some (Thrown 99) |}.
End Sample.

(** ** Notions for further properties *)

(** A string that does not begin with a character that [trim] strips. *)
Definition clean_start (s : jsstring) : Prop :=
  match s with
  | c :: _ => isWhiteSpace c = false
  | [] => True
  end.

(** [timeoutMs && isFinite(timeoutMs)]: the test under which the timer
    is set. *)
Definition timed (timeoutMs : option num) : bool :=
  from_option truthy false timeoutMs && from_option isFinite false timeoutMs.

(** The first of the events [evs] that settles a pending promise, when a
    timer counts only if [timer] and an abort only if [aborts]. *)
Fixpoint first_event (timer aborts : bool) (evs : list RaceEvent)
    : option Settled :=
  match evs with
  | [] => None
  | PSettles r :: _ => Some r
  | TimerFires :: rest =>
      if timer then Some (Rejected ErrTimeout)
      else first_event timer aborts rest
  | SignalAborts :: rest =>
      if aborts then Some (Rejected ErrAborted)
      else first_event timer aborts rest
  end.

(** The race as its outcome: an abort that has already happened, else the
    state of [p], else the first event that counts. *)
Definition winner (p : option Settled) (timeoutMs : option num)
    (signal : option bool) (evs : list RaceEvent) : option Settled :=
  match signal, p with
  | Some true, _ => Some (Rejected ErrAborted)
  | _, Some r => Some r
  | _, None => first_event (timed timeoutMs) (given signal) evs
  end.

(** The state of [p] as the race has it. *)
Definition inner_of (a : Awaited) : option Settled :=
  match a with
  | Passed p => p
  | Wrapped w => inner w
  end.

(** The registry is in its invariant, every key of the map is in trimmed
    form, and no key is bound to an empty [Set]. *)
Definition sound (m : Manager) : Prop :=
  wf m
  ∧ ∀ k, is_Some (listeners m !! k) → trim k = k ∧ listenersFor m k ≠ [].

(** The handler calls and the sink calls of an output, in the order in
    which they were made. *)
Definition trace (o : list Obs) : list (lid + error * jsstring * nat) :=
  omap (λ x, match x with
             | Invoke l => Some (inl l)
             | OnError e k i => Some (inr (e, k, i))
             | _ => None
             end) o.

(** The trace of a run in which the listeners [ls], at the positions
    from [i] on, are called one after the other and each failure that
    [fails] tells of is reported before the next call. *)
Fixpoint traces (sink : bool) (fails : lid → option error) (name : jsstring)
    (i : nat) (ls : list lid) : list (lid + error * jsstring * nat) :=
  match ls with
  | [] => []
  | l :: rest =>
      inl l ::
      match fails l with
      | Some e => if sink then [inr (e, name, i)] else []
      | None => []
      end ++ traces sink fails name (S i) rest
  end.

(** Two states that differ in console lines only, two runs that end the
    same way in such states, and two computations that keep it so. *)
Definition sim (s s' : St) : Prop :=
  mgr s = mgr s' ∧ idx s = idx s' ∧ trace (out s) = trace (out s').

Definition same_run {A} (x y : Res A * St) : Prop :=
  x.1 = y.1 ∧ sim x.2 y.2.

Definition msim {A} (c c' : M A) : Prop :=
  ∀ s s', sim s s' → same_run (c s) (c' s').

(** A computation that returns and can only write console lines. *)
Definition quiet (c : M ()) : Prop :=
  ∀ s, ∃ o, c s = (Ok (), {| mgr := mgr s; out := out s ++ o; idx := idx s |})
            ∧ trace o = [].

Module Sample2.
(** A configuration with the sink of [Sample.cfg], the debug lines on and
    a limit of one listener. *)
Definition cfg : Config :=
  {| debug := true; maxListeners := Some 1; onError := true |}.

(** The listeners of [Sample.handler], with the same registrations and
    the same throws, and promises that behave otherwise. *)
Definition handler (l : lid) (e : NexusEvent ()) : Behaviour :=
  {| regs := regs (Sample.handler l e);
     sync := match sync (Sample.handler l e) with
             | Throws x => Throws x
             | _ => ReturnsPromise
             end;
     aborted_at_call := true;
     race := [PSettles (Rejected (Thrown 0))] |}.
End Sample2.

(** * Properties *)

(** ** The monad *)

Lemma bind_run {A B} (c : M A) (f : A → M B) (s : St) :
  (c ≫= f) s =
  match c s with
  | (Ok a, s') => f a s'
  | (Exn e, s') => (Exn e, s')
  | (Pending, s') => (Pending, s')
  end.
Proof. reflexivity. Qed.

Lemma St_eta (s : St) : {| mgr := mgr s; out := out s; idx := idx s |} = s.
Proof. by destruct s. Qed.

(** A conditional line of output. *)
Lemma when_obs_run (b : bool) (o : Obs) (s : St) :
  when b (emit_obs o) s =
  (Ok (), {| mgr := mgr s; out := out s ++ (if b then [o] else []); idx := idx s |}).
Proof. destruct b; mrun; [done|]. by rewrite app_nil_r, St_eta. Qed.

Lemma invoked_app (o1 o2 : list Obs) : invoked (o1 ++ o2) = invoked o1 ++ invoked o2.
Proof. apply omap_app. Qed.

Lemma sink_calls_app (o1 o2 : list Obs) :
  sink_calls (o1 ++ o2) = sink_calls o1 ++ sink_calls o2.
Proof. apply omap_app. Qed.

Lemma invoked_Invoke (l : lid) (o : list Obs) :
  invoked (Invoke l :: o) = l :: invoked o.
Proof. reflexivity. Qed.

Lemma sink_calls_Invoke (l : lid) (o : list Obs) :
  sink_calls (Invoke l :: o) = sink_calls o.
Proof. reflexivity. Qed.

Lemma silent_app (o1 o2 : list Obs) : silent o1 → silent o2 → silent (o1 ++ o2).
Proof.
  intros [H1 H2] [H3 H4]. split.
  - by rewrite invoked_app, H1, H3.
  - by rewrite sink_calls_app, H2, H4.
Qed.

(** ** The registry *)

Lemma deref_insert_eq ls st (r : loc) (v : list lid) :
  deref {| listeners := ls; store := <[r := v]> st |} r = v.
Proof. unfold deref. cbn [store]. by rewrite lookup_insert_eq. Qed.

Lemma deref_insert_ne ls ls' st (r r' : loc) (v : list lid) :
  r ≠ r' →
  deref {| listeners := ls; store := <[r := v]> st |} r' =
  deref {| listeners := ls'; store := st |} r'.
Proof. intros H. unfold deref. cbn [store]. by rewrite lookup_insert_ne. Qed.

Lemma add_elem_nil (x : lid) : add_elem x [] = [x].
Proof. reflexivity. Qed.

Lemma add_elem_in (x : lid) (s : list lid) : x ∈ s → add_elem x s = s.
Proof. intros H. unfold add_elem. by rewrite bool_decide_eq_true_2. Qed.

Lemma add_elem_notin (x : lid) (s : list lid) : x ∉ s → add_elem x s = s ++ [x].
Proof. intros H. unfold add_elem. by rewrite bool_decide_eq_false_2. Qed.

Lemma add_elem_elem (x : lid) (s : list lid) : x ∈ add_elem x s.
Proof.
  destruct (decide (x ∈ s)) as [H|H].
  - by rewrite add_elem_in.
  - rewrite add_elem_notin by done. set_solver.
Qed.

Lemma add_elem_prefix (x : lid) (s : list lid) : s `prefix_of` add_elem x s.
Proof.
  destruct (decide (x ∈ s)) as [H|H].
  - by rewrite add_elem_in.
  - rewrite add_elem_notin by done. by apply prefix_app_r.
Qed.

Lemma add_elem_NoDup (x : lid) (s : list lid) : NoDup s → NoDup (add_elem x s).
Proof.
  intros Hs. destruct (decide (x ∈ s)) as [H|H].
  - by rewrite add_elem_in.
  - rewrite add_elem_notin by done. apply NoDup_app. repeat split; [done| |apply NoDup_singleton].
    intros y Hy ->%list_elem_of_singleton. done.
Qed.

Section RegisterFacts.
Variable cfg : Config.

(** The manager after [register], written out. *)
Lemma after_register_eq (k : jsstring) (l : lid) (m : Manager) :
  after_register cfg k l m =
  match listeners m !! trim k with
  | Some r =>
      {| listeners := <[trim k := r]> (listeners m);
         store := <[r := add_elem l (deref m r)]> (store m) |}
  | None =>
      let r := fresh (dom (store m)) in
      {| listeners := <[trim k := r]> (listeners m);
         store := <[r := [l]]> (<[r := []]> (store m)) |}
  end.
Proof.
  unfold after_register, register, Map_get, new_Set, Set_add, Set_size, Map_set.
  mrun.
  destruct (listeners m !! trim k) as [r|] eqn:E; mrun.
  - destruct (exceeds cfg _); [destruct (debug cfg)|]; reflexivity.
  - rewrite !deref_insert_eq, add_elem_nil.
    destruct (exceeds cfg _); [destruct (debug cfg)|]; reflexivity.
Qed.

(** [register] returns, changes the manager only, and says nothing but a
    debug line. *)
Lemma register_run (k : jsstring) (l : lid) (s : St) :
  ∃ o, register cfg k l s =
         (Ok (), {| mgr := after_register cfg k l (mgr s);
                    out := out s ++ o; idx := idx s |})
       ∧ silent o.
Proof.
  rewrite after_register_eq.
  unfold register, Map_get, new_Set, Set_add, Set_size, Map_set.
  mrun.
  destruct (listeners (mgr s) !! trim k) as [r|] eqn:E; mrun.
  - destruct (exceeds cfg _); [destruct (debug cfg)|]; mrun.
    + eexists [_]. split; [reflexivity|done].
    + exists []. rewrite app_nil_r. split; [reflexivity|done].
    + exists []. rewrite app_nil_r. split; [reflexivity|done].
  - rewrite !deref_insert_eq, add_elem_nil.
    destruct (exceeds cfg _); [destruct (debug cfg)|]; mrun.
    + eexists [_]. split; [reflexivity|done].
    + exists []. rewrite app_nil_r. split; [reflexivity|done].
    + exists []. rewrite app_nil_r. split; [reflexivity|done].
Qed.

Lemma after_registers_nil (m : Manager) : after_registers cfg [] m = m.
Proof. reflexivity. Qed.

Lemma register_all_mgr rs (s : St) :
  mgr (register_all cfg rs s).2 = after_registers cfg rs (mgr s).
Proof.
  unfold after_registers. revert s.
  induction rs as [|[k l] rs IH]; intros s; [reflexivity|].
  cbn [register_all]. rewrite !bind_run.
  destruct (register_run k l s) as (o1 & -> & _).
  destruct (register_run k l (init_St (mgr s))) as (o2 & -> & _).
  rewrite IH. symmetry. rewrite IH. reflexivity.
Qed.

Lemma after_registers_cons (k : jsstring) (l : lid) rs (m : Manager) :
  after_registers cfg ((k, l) :: rs) m =
  after_registers cfg rs (after_register cfg k l m).
Proof.
  unfold after_registers at 1. cbn [register_all]. rewrite bind_run.
  destruct (register_run k l (init_St m)) as (o & -> & _).
  by rewrite register_all_mgr.
Qed.

Lemma register_all_run rs (s : St) :
  ∃ o, register_all cfg rs s =
         (Ok (), {| mgr := after_registers cfg rs (mgr s);
                    out := out s ++ o; idx := idx s |})
       ∧ silent o.
Proof.
  revert s. induction rs as [|[k l] rs IH]; intros s.
  - exists []. rewrite app_nil_r, after_registers_nil, St_eta. done.
  - cbn [register_all]. rewrite bind_run, after_registers_cons.
    destruct (register_run k l s) as (o1 & -> & H1).
    destruct (IH {| mgr := after_register cfg k l (mgr s);
                    out := out s ++ o1; idx := idx s |}) as (o2 & -> & H2).
    cbn [mgr out idx]. exists (o1 ++ o2). rewrite app_assoc.
    split; [reflexivity|by apply silent_app].
Qed.

(** A key keeps the [Set] it is bound to. *)
Lemma after_register_binding k l (m : Manager) k' (r : loc) :
  listeners m !! k' = Some r →
  listeners (after_register cfg k l m) !! k' = Some r.
Proof.
  intros H. rewrite after_register_eq.
  destruct (listeners m !! trim k) as [r0|] eqn:E; cbn [listeners].
  - destruct (decide (trim k = k')) as [<-|Hne].
    + rewrite lookup_insert_eq. congruence.
    + by rewrite lookup_insert_ne.
  - rewrite lookup_insert_ne; [done|]. intros <-. congruence.
Qed.

(** A [Set] only grows, at its end. *)
Lemma after_register_deref k l (m : Manager) (r : loc) :
  deref m r `prefix_of` deref (after_register cfg k l m) r.
Proof.
  rewrite after_register_eq.
  destruct (listeners m !! trim k) as [r0|] eqn:E.
  - destruct (decide (r0 = r)) as [->|Hne].
    + rewrite deref_insert_eq. apply add_elem_prefix.
    + by rewrite (deref_insert_ne _ (listeners m)); [destruct m|].
  - cbn zeta. destruct (decide (fresh (dom (store m)) = r)) as [<-|Hne].
    + unfold deref at 1.
      assert (store m !! fresh (dom (store m)) = None) as ->.
      { apply not_elem_of_dom, is_fresh. }
      apply prefix_nil.
    + rewrite (deref_insert_ne _ (listeners m)) by done.
      by rewrite (deref_insert_ne _ (listeners m)); [destruct m|].
Qed.

Lemma after_registers_binding rs (m : Manager) k' (r : loc) :
  listeners m !! k' = Some r →
  listeners (after_registers cfg rs m) !! k' = Some r.
Proof.
  revert m. induction rs as [|[k l] rs IH]; intros m H; [done|].
  rewrite after_registers_cons. by apply IH, after_register_binding.
Qed.

Lemma after_registers_deref rs (m : Manager) (r : loc) :
  deref m r `prefix_of` deref (after_registers cfg rs m) r.
Proof.
  revert m. induction rs as [|[k l] rs IH]; intros m; [done|].
  rewrite after_registers_cons.
  etrans; [apply (after_register_deref k l)|apply IH].
Qed.

(** The invariant holds initially and [register] keeps it. *)
Lemma wf_empty : wf empty_manager.
Proof. split; intros *; cbn; by rewrite lookup_empty. Qed.

Lemma after_register_wf k l (m : Manager) : wf m → wf (after_register cfg k l m).
Proof.
  intros [Hlive Hinj Hnd]. rewrite after_register_eq.
  destruct (listeners m !! trim k) as [r0|] eqn:E.
  - split; cbn [listeners store].
    + intros k1 r. destruct (decide (trim k = k1)) as [<-|Hne].
      * rewrite lookup_insert_eq. intros [= <-]. rewrite lookup_insert_eq. eauto.
      * rewrite lookup_insert_ne by done. intros H%Hlive.
        destruct (decide (r0 = r)) as [->|]; [rewrite lookup_insert_eq; eauto|].
        by rewrite lookup_insert_ne.
    + intros k1 k2 r H1 H2. rewrite (insert_id _ _ _ E) in H1, H2. eauto.
    + intros r s. destruct (decide (r0 = r)) as [<-|Hne].
      * rewrite lookup_insert_eq. intros [= <-]. apply add_elem_NoDup.
        unfold deref. destruct (Hlive _ _ E) as [s0 Hs0]. rewrite Hs0.
        cbn. eauto.
      * rewrite lookup_insert_ne by done. eauto.
  - cbn zeta. set (r0 := fresh (dom (store m))).
    assert (store m !! r0 = None) as Hfresh.
    { apply not_elem_of_dom, is_fresh. }
    split; cbn [listeners store].
    + intros k1 r. destruct (decide (trim k = k1)) as [<-|Hne].
      * rewrite lookup_insert_eq. intros [= <-]. rewrite lookup_insert_eq. eauto.
      * rewrite lookup_insert_ne by done. intros H%Hlive.
        destruct (decide (r0 = r)) as [->|]; [rewrite lookup_insert_eq; eauto|].
        by rewrite !lookup_insert_ne.
    + intros k1 k2 r.
      destruct (decide (trim k = k1)) as [<-|Hne1];
        destruct (decide (trim k = k2)) as [<-|Hne2]; [done|..].
      * rewrite lookup_insert_eq, lookup_insert_ne by done.
        intros [= <-] H%Hlive. rewrite Hfresh in H. by destruct H.
      * rewrite lookup_insert_eq, lookup_insert_ne by done.
        intros H%Hlive [= <-]. rewrite Hfresh in H. by destruct H.
      * rewrite !lookup_insert_ne by done. eauto.
    + intros r s. destruct (decide (r0 = r)) as [<-|Hne].
      * rewrite lookup_insert_eq. intros [= <-]. apply NoDup_singleton.
      * rewrite !lookup_insert_ne by done. eauto.
Qed.

Lemma after_registers_wf rs (m : Manager) : wf m → wf (after_registers cfg rs m).
Proof.
  revert m. induction rs as [|[k l] rs IH]; intros m H; [done|].
  rewrite after_registers_cons. by apply IH, after_register_wf.
Qed.

(** [register] through the map: the listeners of the trimmed key get the
    new one, those of any other key stay. *)
Lemma after_register_listenersFor k l (m : Manager) k' :
  wf m →
  listenersFor (after_register cfg k l m) k' =
  if decide (k' = trim k) then add_elem l (listenersFor m k')
  else listenersFor m k'.
Proof.
  intros [Hlive Hinj Hnd]. rewrite after_register_eq. unfold listenersFor.
  destruct (listeners m !! trim k) as [r0|] eqn:E; cbn [listeners].
  - destruct (decide (k' = trim k)) as [->|Hne].
    + by rewrite lookup_insert_eq, E, deref_insert_eq.
    + rewrite lookup_insert_ne by done.
      destruct (listeners m !! k') as [r|] eqn:E'; [|done].
      rewrite (deref_insert_ne _ (listeners m)); [by destruct m|].
      intros ->. apply Hne. eauto.
  - cbn zeta. destruct (decide (k' = trim k)) as [->|Hne].
    + by rewrite lookup_insert_eq, E, deref_insert_eq.
    + rewrite lookup_insert_ne by done.
      destruct (listeners m !! k') as [r|] eqn:E'; [|done].
      assert (fresh (dom (store m)) ≠ r) as Hr.
      { intros <-. apply Hlive in E'. apply elem_of_dom in E'.
        by apply is_fresh in E'. }
      rewrite (deref_insert_ne _ (listeners m)) by done.
      by rewrite (deref_insert_ne _ (listeners m)); [destruct m|].
Qed.


End RegisterFacts.

(** ** Synchronous dispatch *)

Lemma reports_app fails name i (l1 l2 : list lid) :
  reports fails name i (l1 ++ l2) =
  reports fails name i l1 ++ reports fails name (i + length l1) l2.
Proof.
  revert i. induction l1 as [|l l1 IH]; intros i; cbn [reports app length].
  - by rewrite Nat.add_0_r.
  - rewrite IH. replace (S i + length l1) with (i + S (length l1)) by lia.
    by destruct (fails l).
Qed.

Section EmitFacts.
Context {T : Type}.
Variable cfg : Config.
Variable handler : lid → NexusEvent T → Behaviour.
Variable event : NexusEvent T.

(** The call of a handler: it is recorded, its registrations reach the
    manager, and it returns or throws. *)
Lemma call_handler_run (l : lid) (s : St) :
  ∃ o, call_handler cfg handler l event s =
         (match thrown handler event l with Some e => Exn e | None => Ok () end,
          {| mgr := after_registers cfg (regs (handler l event)) (mgr s);
             out := out s ++ Invoke l :: o; idx := idx s |})
       ∧ silent o.
Proof.
  unfold call_handler, thrown. rewrite !bind_run. mrun.
  destruct (register_all_run cfg (regs (handler l event))
              {| mgr := mgr s; out := out s ++ [Invoke l]; idx := idx s |})
    as (o & -> & Ho).
  cbn [mgr out idx]. exists o. rewrite <- app_assoc. cbn [app].
  split; [|done]. by destruct (sync (handler l event)).
Qed.

(** A call of a sink that returns. *)
Lemma report_run (e : error) (name : jsstring) (i : nat) (s : St) :
  report cfg e name i s =
  (Ok (), {| mgr := mgr s;
             out := out s ++ (if onError cfg then [OnError e name i] else []);
             idx := idx s |}).
Proof.
  unfold report. cbn [sink_outcome returning_sink].
  destruct (onError cfg); mrun; [done|]. by rewrite app_nil_r, St_eta.
Qed.

(** The [catch] block in [run]. *)
Lemma run_catch_run (name : jsstring) (e : error) (s : St) :
  (i ← get_idx;
   report cfg e name i;;
   when (debug cfg) (emit_obs (ConsoleError (ListenerErrorMsg name e None)))) s =
  (Ok (), {| mgr := mgr s;
             out := out s ++
                    (if onError cfg then [OnError e name (idx s)] else []) ++
                    (if debug cfg
                     then [ConsoleError (ListenerErrorMsg name e None)] else []);
             idx := idx s |}).
Proof.
  rewrite bind_run. cbn [get_idx].
  rewrite bind_run, report_run, when_obs_run. cbn [mgr out idx].
  by rewrite app_assoc.
Qed.

(** One turn of the loop of [run]: [try], [catch], [finally]. *)
Lemma run_body_run (name : jsstring) (l : lid) (s : St) :
  ∃ o, try_finally
         (try_catch (call_handler cfg handler l event)
            (λ e, i ← get_idx;
                  report cfg e name i;;
                  when (debug cfg)
                    (emit_obs (ConsoleError (ListenerErrorMsg name e None)))))
         (i ← get_idx; put_idx (S i)) s =
       (Ok (), {| mgr := after_registers cfg (regs (handler l event)) (mgr s);
                  out := out s ++ o; idx := S (idx s) |})
       ∧ invoked o = [l]
       ∧ sink_calls o =
           match thrown handler event l with
           | Some e => if onError cfg then [(e, name, idx s)] else []
           | None => []
           end.
Proof.
  unfold try_finally, try_catch.
  destruct (call_handler_run l s) as (o1 & -> & Hi1 & Hs1).
  destruct (thrown handler event l) as [e|] eqn:Ethrown.
  - rewrite run_catch_run. mrun.
    eexists (Invoke l :: o1 ++ _). rewrite <- app_assoc. cbn [app].
    split; [reflexivity|].
    rewrite invoked_Invoke, sink_calls_Invoke.
    rewrite !invoked_app, !sink_calls_app, Hi1, Hs1.
    by destruct (onError cfg), (debug cfg).
  - mrun. exists (Invoke l :: o1). split; [reflexivity|].
    by rewrite invoked_Invoke, sink_calls_Invoke, Hi1, Hs1.
Qed.

(** The loop of [run]: every listener of the array is called, whatever
    the ones before it did; the sink gets the failures with the running
    index; the loop returns. *)
Lemma run_loop_run (name : jsstring) (ls : list lid) (s : St) :
  ∃ o, run_loop cfg handler event name ls s =
         (Ok (), {| mgr := after_handlers cfg handler event ls (mgr s);
                    out := out s ++ o; idx := idx s + length ls |})
       ∧ invoked o = ls
       ∧ sink_calls o =
           if onError cfg then reports (thrown handler event) name (idx s) ls
           else [].
Proof.
  revert s. induction ls as [|l ls IH]; intros s.
  - exists []. cbn. rewrite app_nil_r, Nat.add_0_r, St_eta.
    by destruct (onError cfg).
  - cbn [run_loop]. rewrite bind_run.
    destruct (run_body_run name l s) as (o1 & -> & Hi1 & Hs1).
    destruct (IH {| mgr := after_registers cfg (regs (handler l event)) (mgr s);
                    out := out s ++ o1; idx := S (idx s) |})
      as (o2 & -> & Hi2 & Hs2).
    cbn [mgr out idx] in *. exists (o1 ++ o2). split; [|split].
    + cbn [after_handlers foldl length]. rewrite <- app_assoc.
      replace (idx s + S (length ls)) with (S (idx s) + length ls) by lia.
      reflexivity.
    + by rewrite invoked_app, Hi1, Hi2.
    + rewrite sink_calls_app, Hs1, Hs2. cbn [reports].
      by destruct (thrown handler event l), (onError cfg).
Qed.

(** [run(set)] on a reference: the loop over the elements the [Set] has
    when [run] is entered. *)
Lemma run_run (name : jsstring) (r : loc) (s : St) :
  ∃ o, run cfg handler event name (Some r) s =
         (Ok (), {| mgr := after_handlers cfg handler event (deref (mgr s) r) (mgr s);
                    out := out s ++ o;
                    idx := idx s + length (deref (mgr s) r) |})
       ∧ invoked o = deref (mgr s) r
       ∧ sink_calls o =
           if onError cfg
           then reports (thrown handler event) name (idx s) (deref (mgr s) r)
           else [].
Proof.
  unfold run, Set_size, Array_from. mrun. case_bool_decide as Hsize.
  - apply length_zero_iff_nil in Hsize. rewrite Hsize.
    exists []. cbn. rewrite app_nil_r, Nat.add_0_r, St_eta.
    by destruct (onError cfg).
  - apply run_loop_run.
Qed.

Lemma after_handlers_binding (ls : list lid) (m : Manager) k (r : loc) :
  listeners m !! k = Some r →
  listeners (after_handlers cfg handler event ls m) !! k = Some r.
Proof.
  revert m. induction ls as [|l ls IH]; intros m H; [done|].
  cbn [after_handlers foldl]. by apply IH, after_registers_binding.
Qed.

Lemma after_handlers_deref (ls : list lid) (m : Manager) (r : loc) :
  deref m r `prefix_of` deref (after_handlers cfg handler event ls m) r.
Proof.
  revert m. induction ls as [|l ls IH]; intros m; [done|].
  cbn [after_handlers foldl].
  etrans; [apply (after_registers_deref cfg (regs (handler l event)))|apply IH].
Qed.

(** [emit]: the first pass runs over the listeners that the key has when
    the call is made; the second pass, over the elements that the [Set]
    of the wildcard key has when the first pass is over. The call
    returns, and the sink has every failure with its position in the
    whole sequence. *)
Lemma emit_run (m : Manager) :
  let K := trim (name event) in
  let P1 := listenersFor m K in
  let P2 := match listeners m !! star with
            | Some r => deref (after_handlers cfg handler event P1 m) r
            | None => []
            end in
  ∃ s', emit cfg handler event (init_St m) = (Ok (), s')
        ∧ mgr s' = after_handlers cfg handler event (P1 ++ P2) m
        ∧ invoked (out s') = P1 ++ P2
        ∧ sink_calls (out s') =
            if onError cfg
            then reports (thrown handler event) K 0 (P1 ++ P2) else [].
Proof.
  intros K P1 P2. unfold emit, Map_get. fold K. mrun.
  set (o0 := if debug cfg then [ConsoleDebug (DispatchMsg (name event))] else []).
  assert (∀ s1 : St, mgr s1 = m → idx s1 = 0 → out s1 = o0 →
    ∃ s', (let (r, s2) := run cfg handler event K (listeners m !! K) s1 in
           match r with
           | Ok _ => match listeners m !! star with
                     | Some _ => run cfg handler event K (listeners m !! star)
                     | None => λ s, (Ok (), s)
                     end s2
           | Exn e => (Exn e, s2)
           | Pending => (Pending, s2)
           end) = (Ok (), s')
        ∧ mgr s' = after_handlers cfg handler event (P1 ++ P2) m
        ∧ invoked (out s') = P1 ++ P2
        ∧ sink_calls (out s') =
            if onError cfg
            then reports (thrown handler event) K 0 (P1 ++ P2) else []) as Hmain.
  { intros s1 Hm Hidx Hout.
    assert (invoked o0 = [] ∧ sink_calls o0 = []) as [Hi0 Hs0].
    { subst o0. by destruct (debug cfg). }
    assert (∃ o1, run cfg handler event K (listeners m !! K) s1 =
              (Ok (), {| mgr := after_handlers cfg handler event P1 m;
                         out := o0 ++ o1; idx := length P1 |})
            ∧ invoked o1 = P1
            ∧ sink_calls o1 =
                if onError cfg
                then reports (thrown handler event) K 0 P1 else [])
      as (o1 & -> & Hi1 & Hs1).
    { subst P1. unfold listenersFor.
      destruct (listeners m !! K) as [r|] eqn:EK.
      - destruct (run_run K r s1) as (o1 & E1 & H1 & H2).
        rewrite Hm, Hidx, Hout in *. cbn [Nat.add] in E1. eauto.
      - exists []. cbn. rewrite app_nil_r. destruct s1; cbn in *. subst.
        by destruct (onError cfg). }
    subst P2. destruct (listeners m !! star) as [rw|] eqn:Estar.
    - destruct (run_run K rw {| mgr := after_handlers cfg handler event P1 m;
                                out := o0 ++ o1; idx := length P1 |})
        as (o2 & -> & Hi2 & Hs2).
      cbn [mgr out idx] in *. eexists. split; [reflexivity|].
      cbn [out mgr].
      rewrite !invoked_app, !sink_calls_app, Hi0, Hs0, Hi1, Hs1, Hi2, Hs2.
      split; [by unfold after_handlers; rewrite foldl_app|].
      split; [done|]. rewrite reports_app. by destruct (onError cfg).
    - eexists. split; [reflexivity|]. cbn [out mgr].
      rewrite !invoked_app, !sink_calls_app, Hi0, Hs0, Hi1, Hs1, !app_nil_r.
      done. }
  destruct (debug cfg); mrun; apply Hmain; done.
Qed.
End EmitFacts.

(** ** Asynchronous dispatch *)

Section RunOneFacts.
Context {T : Type}.
Variable cfg : Config.
Variable handler : lid → NexusEvent T → Behaviour.
Variable event : NexusEvent T.
Variable name : jsstring.
Variable mode : jsstring.
Variable stopOnError : bool.
Variable timeOutMs : option num.
Variable signal : option AbortSignal.

Local Abbreviation fate := (listener_outcome handler event timeOutMs signal).
Local Abbreviation rethrows := (is_sequential mode && stopOnError).

Lemma runOne_catch_run (i : nat) (e : error) (s : St) :
  ∃ o, runOne_catch cfg name mode stopOnError i e s =
         (if rethrows then Exn e else Ok (),
          {| mgr := mgr s; out := out s ++ o; idx := idx s |})
       ∧ invoked o = []
       ∧ sink_calls o = if onError cfg then [(e, name, i)] else [].
Proof.
  unfold runOne_catch, report. cbn [sink_outcome returning_sink]. mrun.
  exists ((if onError cfg then [OnError e name i] else [])
          ++ (if debug cfg
              then [ConsoleError (ListenerErrorMsg name e (Some i))] else [])).
  destruct (onError cfg), (debug cfg), rethrows; mrun;
    rewrite <- ?app_assoc, ?app_nil_r, ?St_eta; done.
Qed.

(** One awaited call of [runOne]: the handler is called once; a failure
    goes to the sink, and on to the caller only under
    [mode === 'sequential' && stopOnError]; with a promise that never
    settles the call stays pending. *)
Lemma runOne_run (l : lid) (i : nat) (s : St) :
  ∃ o, runOne cfg handler event name mode stopOnError timeOutMs signal l i s =
         (match fate l with
          | Some Fulfilled => Ok ()
          | Some (Rejected e) => if rethrows then Exn e else Ok ()
          | None => Pending
          end,
          {| mgr := after_registers cfg (regs (handler l event)) (mgr s);
             out := out s ++ o; idx := idx s |})
       ∧ invoked o = [l]
       ∧ sink_calls o = report_of cfg handler event name timeOutMs signal l i.
Proof.
  unfold runOne, try_catch, report_of, failure, listener_outcome.
  rewrite bind_run.
  destruct (call_handler_run cfg handler event l s) as (o1 & -> & Hi1 & Hs1).
  destruct (thrown handler event l) as [e|] eqn:Ethrown.
  - destruct (runOne_catch_run i e
                {| mgr := after_registers cfg (regs (handler l event)) (mgr s);
                   out := out s ++ Invoke l :: o1; idx := idx s |})
      as (o2 & -> & Hi2 & Hs2).
    cbn [mgr out idx]. exists ((Invoke l :: o1) ++ o2). rewrite app_assoc.
    split; [done|].
    by rewrite invoked_app, sink_calls_app, invoked_Invoke, sink_calls_Invoke,
      Hi1, Hs1, Hi2, Hs2.
  - unfold await.
    destruct (outcome (wrapped handler event timeOutMs signal l)) as [[|e]|];
      mrun.
    + exists (Invoke l :: o1). split; [done|].
      by rewrite invoked_Invoke, sink_calls_Invoke, Hi1, Hs1.
    + destruct (runOne_catch_run i e
                {| mgr := after_registers cfg (regs (handler l event)) (mgr s);
                   out := out s ++ Invoke l :: o1; idx := idx s |})
        as (o2 & -> & Hi2 & Hs2).
      cbn [mgr out idx]. exists ((Invoke l :: o1) ++ o2). rewrite app_assoc.
      split; [done|].
      by rewrite invoked_app, sink_calls_app, invoked_Invoke, sink_calls_Invoke,
        Hi1, Hs1, Hi2, Hs2.
    + exists (Invoke l :: o1). split; [done|].
      by rewrite invoked_Invoke, sink_calls_Invoke, Hi1, Hs1.
Qed.

(** The sequential loop over listeners that all let it go on: each is
    called once, in order, and the loop is then at the next position. *)
Lemma seq_loop_pass (pre rest : list lid) (i : nat) (s : St) :
  Forall (λ l, match fate l with
               | Some Fulfilled => True
               | Some (Rejected _) => rethrows = false
               | None => False
               end) pre →
  ∃ o, seq_loop cfg handler event name mode stopOnError timeOutMs signal
         (pre ++ rest) i s =
       seq_loop cfg handler event name mode stopOnError timeOutMs signal
         rest (i + length pre)
         {| mgr := after_handlers cfg handler event pre (mgr s);
            out := out s ++ o; idx := idx s |}
       ∧ invoked o = pre
       ∧ sink_calls o =
           if onError cfg
           then reports (failure handler event timeOutMs signal) name i pre
           else [].
Proof.
  intros Hpre. revert i s. induction Hpre as [|l pre Hl Hpre IH]; intros i s.
  - exists []. cbn. rewrite app_nil_r, Nat.add_0_r, St_eta.
    by destruct (onError cfg).
  - cbn [app seq_loop]. rewrite bind_run.
    destruct (runOne_run l i s) as (o1 & -> & Hi1 & Hs1).
    destruct (IH (S i)
                {| mgr := after_registers cfg (regs (handler l event)) (mgr s);
                   out := out s ++ o1; idx := idx s |})
      as (o2 & E2 & Hi2 & Hs2).
    cbn [mgr out idx] in E2. exists (o1 ++ o2).
    split; [|split].
    + rewrite app_assoc. cbn [after_handlers foldl length].
      replace (i + S (length pre)) with (S i + length pre) by lia.
      destruct (fate l) as [[|e]|]; [done| |done].
      by rewrite Hl.
    + by rewrite invoked_app, Hi1, Hi2.
    + rewrite sink_calls_app, Hs1, Hs2. unfold report_of. cbn [reports].
      by destruct (failure handler event timeOutMs signal l), (onError cfg).
Qed.

(** Whatever happens, the listeners called by the sequential loop are an
    initial part of its array, in order. *)
Lemma seq_loop_prefix (ls : list lid) (i : nat) (s : St) :
  ∃ o, out (seq_loop cfg handler event name mode stopOnError timeOutMs signal
              ls i s).2 = out s ++ o
       ∧ invoked o `prefix_of` ls.
Proof.
  revert i s. induction ls as [|l ls IH]; intros i s.
  - exists []. cbn. by rewrite app_nil_r.
  - cbn [seq_loop]. rewrite bind_run.
    destruct (runOne_run l i s) as (o1 & -> & Hi1 & _).
    assert (∃ o, out s ++ o1 ++ o = out s ++ o1 ∧ invoked (o1 ++ o) `prefix_of` l :: ls)
      as Hstop.
    { exists []. rewrite !app_nil_r, Hi1. split; [done|].
      by apply (prefix_app_r [l] [l] ls). }
    destruct (fate l) as [[|e]|]; [|destruct rethrows|];
      try (destruct Hstop as (o & Ho & Hp); exists (o1 ++ o); cbn [snd out];
           split; [by rewrite Ho|done]).
    all: destruct (IH (S i)
                {| mgr := after_registers cfg (regs (handler l event)) (mgr s);
                   out := out s ++ o1; idx := idx s |}) as (o2 & -> & Hp2);
      cbn [out]; exists (o1 ++ o2); rewrite app_assoc; (split; [done|]);
      rewrite invoked_app, Hi1; by apply (prefix_app [l]).
Qed.
End RunOneFacts.

Section ConcurrentFacts.
Context {T : Type}.
Variable cfg : Config.
Variable handler : lid → NexusEvent T → Behaviour.
Variable event : NexusEvent T.
Variable name : jsstring.
Variable mode : jsstring.
Variable stopOnError : bool.
Variable timeOutMs : option num.
Variable signal : option AbortSignal.
Hypothesis not_sequential : is_sequential mode = false.

Local Abbreviation state_of :=
  (task_state handler event timeOutMs signal).

(** Outside sequential mode the [catch] block of [runOne] returns. *)
Lemma finish_catch_run (i : nat) (e : error) (s : St) :
  ∃ o, finish (runOne_catch cfg name mode stopOnError i e) s =
         (Ok (Done Fulfilled),
          {| mgr := mgr s; out := out s ++ o; idx := idx s |})
       ∧ invoked o = []
       ∧ sink_calls o = if onError cfg then [(e, name, i)] else [].
Proof.
  unfold finish.
  destruct (runOne_catch_run cfg name mode stopOnError i e s)
    as (o & -> & Hi & Hs).
  rewrite not_sequential. cbn [andb]. eauto.
Qed.

(** The start of a call of [runOne]. *)
Lemma runOne_start_run (l : lid) (i : nat) (s : St) :
  ∃ o, runOne_start cfg handler event name mode stopOnError timeOutMs signal
         l i s =
         (Ok (state_of [] i l),
          {| mgr := after_registers cfg (regs (handler l event)) (mgr s);
             out := out s ++ o; idx := idx s |})
       ∧ invoked o = [l]
       ∧ sink_calls o =
           match thrown handler event l with
           | Some e => if onError cfg then [(e, name, i)] else []
           | None => []
           end.
Proof.
  unfold runOne_start, try_catch, task_state. rewrite bind_run.
  destruct (call_handler_run cfg handler event l s) as (o1 & -> & Hi1 & Hs1).
  destruct (thrown handler event l) as [e|] eqn:Ethrown.
  - destruct (finish_catch_run i e
                {| mgr := after_registers cfg (regs (handler l event)) (mgr s);
                   out := out s ++ Invoke l :: o1; idx := idx s |})
      as (o2 & -> & Hi2 & Hs2).
    cbn [mgr out idx]. exists ((Invoke l :: o1) ++ o2). rewrite app_assoc.
    split; [done|].
    by rewrite invoked_app, sink_calls_app, invoked_Invoke, sink_calls_Invoke,
      Hi1, Hs1, Hi2, Hs2.
  - mrun. exists (Invoke l :: o1). split; [done|].
    by rewrite invoked_Invoke, sink_calls_Invoke, Hi1, Hs1.
Qed.

(** [snapshot.map(...)]: every listener is called, in order, before any
    continuation runs, and no call of [runOne] has rejected. *)
Lemma start_all_run (ls : list lid) (i : nat) (rej : option error) (s : St) :
  ∃ o, start_all cfg handler event name mode stopOnError timeOutMs signal
         ls i rej s =
         (Ok {| tasks := imap (λ k l, state_of [] (i + k) l) ls;
                rejection := rej |},
          {| mgr := after_handlers cfg handler event ls (mgr s);
             out := out s ++ o; idx := idx s |})
       ∧ invoked o = ls
       ∧ sink_calls o =
           if onError cfg then reports (thrown handler event) name i ls
           else [].
Proof.
  revert i rej s. induction ls as [|l ls IH]; intros i rej s.
  - exists []. cbn. rewrite app_nil_r, St_eta. by destruct (onError cfg).
  - cbn [start_all]. rewrite bind_run.
    destruct (runOne_start_run l i s) as (o1 & -> & Hi1 & Hs1).
    rewrite bind_run.
    destruct (IH (S i) (note (state_of [] i l) rej)
                {| mgr := after_registers cfg (regs (handler l event)) (mgr s);
                   out := out s ++ o1; idx := idx s |})
      as (o2 & -> & Hi2 & Hs2).
    mrun. exists (o1 ++ o2). split; [|split].
    + rewrite app_assoc. cbn [imap]. rewrite Nat.add_0_r.
      do 3 f_equal.
      * f_equal. apply imap_ext. intros k x _. cbn. f_equal. lia.
      * unfold note, task_state.
        destruct rej; [done|]. by destruct (thrown handler event l).
    + by rewrite invoked_app, Hi1, Hi2.
    + rewrite sink_calls_app, Hs1, Hs2. cbn [reports].
      by destruct (thrown handler event l), (onError cfg).
Qed.

(** A turn at position [k] touches no other position. *)
Lemma state_of_other (turns : list nat) (k k' : nat) (l : lid) :
  k ≠ k' → state_of (k :: turns) k' l = state_of turns k' l.
Proof.
  intros Hne. unfold task_state.
  assert (bool_decide (k' ∈ k :: turns) = bool_decide (k' ∈ turns)) as ->; [|done].
  apply bool_decide_ext. rewrite elem_of_cons. intuition congruence.
Qed.

Lemma tasks_turn (snapshot : list lid) (turns : list nat) (k : nat) (t : Task) :
  (∀ l, snapshot !! k = Some l → state_of (k :: turns) k l = t) →
  <[k := t]> (imap (state_of turns) snapshot) =
  imap (state_of (k :: turns)) snapshot.
Proof.
  intros Ht. apply list_eq. intros k'.
  destruct (decide (k = k')) as [<-|Hne].
  - rewrite list_lookup_imap.
    destruct (snapshot !! k) as [l|] eqn:El.
    + rewrite list_lookup_insert_eq.
      * cbn. by rewrite (Ht l).
      * rewrite length_imap. by eapply lookup_lt_Some.
    + rewrite list_insert_ge.
      * by rewrite list_lookup_imap, El.
      * rewrite length_imap. by apply lookup_ge_None.
  - rewrite list_lookup_insert_ne by done. rewrite !list_lookup_imap.
    destruct (snapshot !! k') as [l|]; [|done]. cbn.
    by rewrite state_of_other.
Qed.

Lemma tasks_turn_out (snapshot : list lid) (turns : list nat) (k : nat) :
  snapshot !! k = None →
  imap (state_of turns) snapshot = imap (state_of (k :: turns)) snapshot.
Proof.
  intros Hk. rewrite <- (tasks_turn snapshot turns k (Done Fulfilled)).
  - rewrite list_insert_ge; [done|]. rewrite length_imap. by apply lookup_ge_None.
  - intros l. by rewrite Hk.
Qed.

(** One turn: the continuation at position [k] runs if the promise it
    awaits has settled. No handler is called, and no call of [runOne]
    rejects. *)
Lemma resume_at_run (snapshot : list lid) (turns : list nat) (k : nat) (s : St) :
  ∃ o, resume_at cfg name mode stopOnError k
         {| tasks := imap (state_of turns) snapshot; rejection := None |} s =
         (Ok {| tasks := imap (state_of (k :: turns)) snapshot;
                rejection := None |},
          {| mgr := mgr s; out := out s ++ o; idx := idx s |})
       ∧ invoked o = []
       ∧ sink_calls o =
           late_report cfg handler event name timeOutMs signal snapshot turns k.
Proof.
  unfold resume_at, late_report. cbn [tasks rejection].
  rewrite list_lookup_imap.
  destruct (snapshot !! k) as [l|] eqn:El; cbn [fmap option_fmap option_map].
  2:{ mrun. exists []. rewrite app_nil_r, St_eta.
      by rewrite <- (tasks_turn_out snapshot turns k). }
  rewrite bind_run. unfold task_state at 1 3.
  destruct (thrown handler event l) as [e0|] eqn:Ethrown.
  { cbn [runOne_resume is_done]. mrun. exists []. rewrite app_nil_r, St_eta.
    rewrite tasks_turn; [done|]. intros l' Hl'. assert (l' = l) as -> by congruence. unfold task_state.
    by rewrite Ethrown. }
  cbn zeta.
  destruct (bool_decide (k ∈ turns)
            && given (outcome (wrapped handler event timeOutMs signal l)))
    eqn:Edone.
  { cbn [runOne_resume is_done]. mrun. exists []. rewrite app_nil_r, St_eta.
    rewrite tasks_turn.
    - apply andb_prop in Edone as [-> Hg].
      by destruct (outcome (wrapped handler event timeOutMs signal l)) as [[|e]|].
    - intros l' Hl'. assert (l' = l) as -> by congruence. unfold task_state. rewrite Ethrown. cbn zeta.
      apply andb_prop in Edone as [_ ->].
      by rewrite bool_decide_eq_true_2 by set_solver. }
  cbn [runOne_resume is_done].
  destruct (outcome (wrapped handler event timeOutMs signal l)) as [[|e]|]
    eqn:Eout.
  - mrun. exists []. rewrite app_nil_r, St_eta. rewrite tasks_turn; [done|].
    intros l' Hl'. assert (l' = l) as -> by congruence. unfold task_state. rewrite Ethrown, Eout. cbn zeta.
    by rewrite bool_decide_eq_true_2 by set_solver.
  - cbn [given] in Edone. rewrite andb_true_r in Edone. rewrite Edone.
    destruct (finish_catch_run k e s) as (o & -> & Hi & Hs).
    mrun. exists o. rewrite tasks_turn; [done|].
    intros l' Hl'. assert (l' = l) as -> by congruence. unfold task_state. rewrite Ethrown, Eout. cbn zeta.
    by rewrite bool_decide_eq_true_2 by set_solver.
  - mrun. exists []. rewrite app_nil_r, St_eta.
    rewrite tasks_turn; [done|].
    intros l' Hl'. assert (l' = l) as -> by congruence. unfold task_state. rewrite Ethrown, Eout. cbn zeta.
      by rewrite andb_false_r.
Qed.

(** The turns of a schedule, one after the other. *)
Lemma resume_all_run (snapshot : list lid) (sched turns : list nat) (s : St) :
  ∃ o, resume_all cfg name mode stopOnError sched
         {| tasks := imap (state_of turns) snapshot; rejection := None |} s =
         (Ok {| tasks := imap (state_of (reverse sched ++ turns)) snapshot;
                rejection := None |},
          {| mgr := mgr s; out := out s ++ o; idx := idx s |})
       ∧ invoked o = []
       ∧ sink_calls o =
           late_reports cfg handler event name timeOutMs signal snapshot
             turns sched.
Proof.
  revert turns s. induction sched as [|k sched IH]; intros turns s.
  - exists []. cbn. by rewrite app_nil_r, St_eta.
  - cbn [resume_all late_reports]. rewrite bind_run.
    destruct (resume_at_run snapshot turns k s) as (o1 & -> & Hi1 & Hs1).
    destruct (IH (k :: turns) {| mgr := mgr s; out := out s ++ o1; idx := idx s |})
      as (o2 & -> & Hi2 & Hs2).
    cbn [mgr out idx]. exists (o1 ++ o2).
    replace (reverse (k :: sched) ++ turns) with (reverse sched ++ k :: turns)
      by (by rewrite reverse_cons, <- app_assoc).
    rewrite app_assoc.
    split; [done|]. by rewrite invoked_app, sink_calls_app, Hi1, Hi2, Hs1, Hs2.
Qed.

(** The concurrent branch: all handlers are called first; the joint wait
    is over exactly when every call of [runOne] is; it never rejects. *)
Lemma concurrent_run (snapshot : list lid) (sched : list nat) (s : St) :
  ∃ o, concurrent cfg handler event name mode stopOnError timeOutMs signal
         snapshot sched s =
         (if forallb is_done (imap (state_of (reverse sched)) snapshot)
          then Ok () else Pending,
          {| mgr := after_handlers cfg handler event snapshot (mgr s);
             out := out s ++ o; idx := idx s |})
       ∧ invoked o = snapshot
       ∧ sink_calls o =
           (if onError cfg then reports (thrown handler event) name 0 snapshot
            else [])
           ++ late_reports cfg handler event name timeOutMs signal snapshot
                [] sched.
Proof.
  unfold concurrent. rewrite bind_run.
  destruct (start_all_run snapshot 0 None s) as (o1 & -> & Hi1 & Hs1).
  rewrite bind_run.
  change (imap (λ k l, state_of [] (0 + k) l) snapshot)
    with (imap (state_of []) snapshot).
  destruct (resume_all_run snapshot sched []
              {| mgr := after_handlers cfg handler event snapshot (mgr s);
                 out := out s ++ o1; idx := idx s |})
    as (o2 & -> & Hi2 & Hs2).
  cbn [mgr out idx]. rewrite app_nil_r.
  unfold Promise_all, await. cbn [rejection tasks].
  exists (o1 ++ o2). rewrite app_assoc, invoked_app, sink_calls_app.
  rewrite Hi1, Hi2, Hs1, Hs2, app_nil_r.
  split; [|done].
  by destruct (forallb is_done (imap (state_of (reverse sched)) snapshot)).
Qed.

(** When every call of [runOne] is over. *)
Lemma all_done_iff (snapshot : list lid) (turns : list nat) :
  forallb is_done (imap (state_of turns) snapshot) = true ↔
  ∀ k l, snapshot !! k = Some l →
    is_Some (thrown handler event l)
    ∨ (k ∈ turns
       ∧ is_Some (outcome (wrapped handler event timeOutMs signal l))).
Proof.
  rewrite <- Is_true_true, forallb_True, Forall_lookup. split.
  - intros H k l Hl. specialize (H k (state_of turns k l)).
    rewrite list_lookup_imap, Hl in H. specialize (H eq_refl).
    unfold task_state in H.
    destruct (thrown handler event l); [by left; eauto|right].
    cbn zeta in H. case_bool_decide; [|done].
    destruct (outcome (wrapped handler event timeOutMs signal l)); [eauto|done].
  - intros H k t. rewrite list_lookup_imap.
    destruct (snapshot !! k) as [l|] eqn:El; [|done]. intros [= <-].
    unfold task_state. destruct (H k l El) as [[e ->]|[Hk [o ->]]]; [done|].
    destruct (thrown handler event l); [done|]. cbn zeta.
    by rewrite bool_decide_eq_true_2.
Qed.
End ConcurrentFacts.

(** The sink calls, read as a set. *)
Lemma reports_elem fails name i (ls : list lid) e n k :
  (e, n, k) ∈ reports fails name i ls ↔
  n = name ∧ i ≤ k ∧ ∃ l, ls !! (k - i) = Some l ∧ fails l = Some e.
Proof.
  revert i. induction ls as [|l ls IH]; intros i; cbn [reports].
  - rewrite elem_of_nil. split; [done|]. by intros (_ & _ & l & ? & _).
  - assert ((e, n, k) ∈ reports fails name (S i) ls ↔
            n = name ∧ i < k ∧ ∃ l', (l :: ls) !! (k - i) = Some l' ∧ fails l' = Some e)
      as Htail.
    { rewrite IH. split.
      - intros (-> & Hk & l' & Hl' & He). split; [done|]. split; [lia|].
        exists l'. replace (k - i) with (S (k - S i)) by lia. done.
      - intros (-> & Hk & l' & Hl' & He). split; [done|]. split; [lia|].
        exists l'. replace (k - i) with (S (k - S i)) in Hl' by lia. done. }
    destruct (fails l) as [e'|] eqn:El.
    + rewrite elem_of_cons, Htail. split.
      * intros [[= -> -> ->]|(-> & Hk & l' & Hl' & He)].
        -- split; [done|]. split; [lia|]. exists l. by rewrite Nat.sub_diag.
        -- split; [done|]. split; [lia|]. eauto.
      * intros (-> & Hk & l' & Hl' & He).
        destruct (decide (k = i)) as [->|Hne].
        -- left. rewrite Nat.sub_diag in Hl'. cbn in Hl'. congruence.
        -- right. split; [done|]. split; [lia|]. eauto.
    + rewrite Htail. split.
      * intros (-> & Hk & l' & Hl' & He). split; [done|]. split; [lia|]. eauto.
      * intros (-> & Hk & l' & Hl' & He). split; [done|]. split; [|eauto].
        destruct (decide (k = i)) as [->|Hne]; [|lia].
        rewrite Nat.sub_diag in Hl'. cbn in Hl'. congruence.
Qed.

Lemma late_reports_elem {T} cfg (handler : lid → NexusEvent T → Behaviour) event
    name timeOutMs signal (snapshot : list lid) (turns sched : list nat) e n k :
  (e, n, k) ∈ late_reports cfg handler event name timeOutMs signal snapshot
                turns sched ↔
  onError cfg = true ∧ n = name ∧ k ∈ sched ∧ (k ∉ turns)
  ∧ ∃ l, snapshot !! k = Some l ∧ thrown handler event l = None
         ∧ outcome (wrapped handler event timeOutMs signal l) = Some (Rejected e).
Proof.
  revert turns. induction sched as [|k0 sched IH]; intros turns;
    cbn [late_reports].
  - rewrite elem_of_nil. split; [done|]. intros (_ & _ & H%elem_of_nil & _). done.
  - rewrite elem_of_app, IH.
    assert ((e, n, k) ∈ late_report cfg handler event name timeOutMs signal
                          snapshot turns k0 ↔
            onError cfg = true ∧ n = name ∧ k = k0 ∧ (k ∉ turns)
            ∧ ∃ l, snapshot !! k = Some l ∧ thrown handler event l = None
                   ∧ outcome (wrapped handler event timeOutMs signal l)
                     = Some (Rejected e)) as ->.
    { unfold late_report. split.
      - destruct (snapshot !! k0) as [l|] eqn:El; [|by intros ?%elem_of_nil].
        destruct (thrown handler event l) eqn:Et; [by intros ?%elem_of_nil|].
        destruct (outcome (wrapped handler event timeOutMs signal l)) as [[|e']|]
          eqn:Eo; try by intros ?%elem_of_nil.
        case_bool_decide; [by intros ?%elem_of_nil|].
        destruct (onError cfg); [|by intros ?%elem_of_nil].
        intros [= -> -> ->]%list_elem_of_singleton. eauto 10.
      - intros (Hon & -> & -> & Hk & l & -> & -> & ->).
        rewrite bool_decide_eq_false_2, Hon by done. by apply list_elem_of_singleton. }
    rewrite !elem_of_cons. split.
    + intros [(? & ? & ? & ? & ?)|(? & ? & ? & Hk & ?)].
      * eauto 10.
      * split_and!; eauto.
    + intros (Hon & -> & [->|Hk] & Hturns & Hl).
      * by left.
      * destruct (decide (k = k0)) as [->|Hne]; [by left|].
        right. split_and!; try done. intros [?|?]; done.
Qed.

(** [emitAsync] takes its array when the call is made: the listeners of
    the key, then those of the wildcard key. *)
Lemma emitAsync_run {T} cfg (handler : lid → NexusEvent T → Behaviour) event
    options sched (m : Manager) :
  let K := trim (name event) in
  let snapshot := listenersFor m K ++ listenersFor m star in
  let mode' := default (js "sequential") (mode options) in
  let stop := default false (stopOnError options) in
  emitAsync cfg handler event options sched (init_St m) =
  (if is_sequential mode'
   then seq_loop cfg handler event K mode' stop (timeOutMs options)
          (signal options) snapshot 0
   else concurrent cfg handler event K mode' stop (timeOutMs options)
          (signal options) snapshot sched)
    {| mgr := m;
       out := if debug cfg then [ConsoleDebug (DispatchAsyncMsg (name event))]
              else [];
       idx := 0 |}.
Proof.
  intros K snapshot mode' stop. unfold emitAsync, Map_get, Array_from.
  rewrite bind_run, when_obs_run. fold K mode' stop. mrun.
  subst snapshot. unfold listenersFor.
  by destruct (listeners m !! K), (listeners m !! star).
Qed.

(** [mode] and [stopOnError] are read in one place only, the test
    [mode === 'sequential' && stopOnError] of the [catch] block. *)
Section CatchTest.
Context {T : Type}.
Variable cfg : Config.
Variable handler : lid → NexusEvent T → Behaviour.
Variable event : NexusEvent T.
Variable name : jsstring.
Variable timeOutMs : option num.
Variable signal : option AbortSignal.
Variables mode1 mode2 : jsstring.
Variables stop1 stop2 : bool.
Hypothesis same_test :
  is_sequential mode1 && stop1 = is_sequential mode2 && stop2.

Lemma runOne_catch_ext (i : nat) (e : error) (s : St) :
  runOne_catch cfg name mode1 stop1 i e s =
  runOne_catch cfg name mode2 stop2 i e s.
Proof. unfold runOne_catch. by rewrite same_test. Qed.

Lemma runOne_ext (l : lid) (i : nat) (s : St) :
  runOne cfg handler event name mode1 stop1 timeOutMs signal l i s =
  runOne cfg handler event name mode2 stop2 timeOutMs signal l i s.
Proof.
  unfold runOne, try_catch.
  destruct ((call_handler cfg handler l event;;
             await (outcome (wrapped handler event timeOutMs signal l))) s)
    as [[| |] s']; try done.
  all: apply runOne_catch_ext.
Qed.

Lemma seq_loop_ext (ls : list lid) (i : nat) (s : St) :
  seq_loop cfg handler event name mode1 stop1 timeOutMs signal ls i s =
  seq_loop cfg handler event name mode2 stop2 timeOutMs signal ls i s.
Proof.
  revert i s. induction ls as [|l ls IH]; intros i s; [done|].
  cbn [seq_loop]. rewrite !bind_run, runOne_ext.
  destruct (runOne _ _ _ _ mode2 _ _ _ _ _ _) as [[| |] s']; try done.
  all: apply IH.
Qed.

Lemma finish_catch_ext (i : nat) (e : error) (s : St) :
  finish (runOne_catch cfg name mode1 stop1 i e) s =
  finish (runOne_catch cfg name mode2 stop2 i e) s.
Proof. unfold finish. by rewrite runOne_catch_ext. Qed.

Lemma runOne_start_ext (l : lid) (i : nat) (s : St) :
  runOne_start cfg handler event name mode1 stop1 timeOutMs signal l i s =
  runOne_start cfg handler event name mode2 stop2 timeOutMs signal l i s.
Proof.
  unfold runOne_start, try_catch.
  destruct ((call_handler cfg handler l event;;
             mret (Awaiting i (wrapped handler event timeOutMs signal l))) s)
    as [[| |] s']; try done.
  all: apply finish_catch_ext.
Qed.

Lemma runOne_resume_ext (t : Task) (s : St) :
  runOne_resume cfg name mode1 stop1 t s =
  runOne_resume cfg name mode2 stop2 t s.
Proof.
  destruct t as [i a|r]; [|done]. cbn [runOne_resume].
  destruct (outcome a) as [[|e]|]; try done. all: apply finish_catch_ext.
Qed.

Lemma start_all_ext (ls : list lid) (i : nat) (rej : option error) (s : St) :
  start_all cfg handler event name mode1 stop1 timeOutMs signal ls i rej s =
  start_all cfg handler event name mode2 stop2 timeOutMs signal ls i rej s.
Proof.
  revert i rej s. induction ls as [|l ls IH]; intros i rej s; [done|].
  cbn [start_all]. rewrite !bind_run, runOne_start_ext.
  destruct (runOne_start _ _ _ _ mode2 _ _ _ _ _ _) as [[t| |] s']; try done.
  all: rewrite !bind_run; by rewrite IH.
Qed.

Lemma resume_at_ext (k : nat) (j : Join) (s : St) :
  resume_at cfg name mode1 stop1 k j s = resume_at cfg name mode2 stop2 k j s.
Proof.
  unfold resume_at. destruct (tasks j !! k) as [t|]; [|done].
  by rewrite !bind_run, runOne_resume_ext.
Qed.

Lemma resume_all_ext (sched : list nat) (j : Join) (s : St) :
  resume_all cfg name mode1 stop1 sched j s =
  resume_all cfg name mode2 stop2 sched j s.
Proof.
  revert j s. induction sched as [|k sched IH]; intros j s; [done|].
  cbn [resume_all]. rewrite !bind_run, resume_at_ext.
  destruct (resume_at _ _ mode2 _ _ _ _) as [[j'| |] s']; try done.
  all: apply IH.
Qed.

Lemma concurrent_ext (ls : list lid) (sched : list nat) (s : St) :
  concurrent cfg handler event name mode1 stop1 timeOutMs signal ls sched s =
  concurrent cfg handler event name mode2 stop2 timeOutMs signal ls sched s.
Proof.
  unfold concurrent. rewrite !bind_run, start_all_ext.
  destruct (start_all _ _ _ _ mode2 _ _ _ _ _ _ _) as [[j| |] s']; try done.
  all: by rewrite !bind_run, resume_all_ext.
Qed.
End CatchTest.

(** ** What a dispatch calls *)

Section Invoked.
Context {T : Type}.
Variable cfg : Config.
Variable handler : lid → NexusEvent T → Behaviour.
Variable event : NexusEvent T.

Lemma after_handlers_wf (ls : list lid) (m : Manager) :
  wf m → wf (after_handlers cfg handler event ls m).
Proof.
  revert m. induction ls as [|l ls IH]; intros m H; [done|].
  cbn [after_handlers foldl]. by apply IH, after_registers_wf.
Qed.



Variable options : EmitAsyncOptions.
Variable sched : list nat.

(** [emitAsync] calls an initial part of the array it took when the call
    was made. *)
Lemma emitAsync_invoked_prefix (m : Manager) :
  invoked (out (emitAsync cfg handler event options sched (init_St m)).2)
  `prefix_of` listenersFor m (trim (name event)) ++ listenersFor m star.
Proof.
  rewrite emitAsync_run.
  set (s0 := {| mgr := m;
                out := if debug cfg
                       then [ConsoleDebug (DispatchAsyncMsg (name event))]
                       else [];
                idx := 0 |}).
  assert (invoked (out s0) = []) as Hi0 by (cbn; by destruct (debug cfg)).
  destruct (is_sequential _) eqn:Eseq.
  - destruct (seq_loop_prefix cfg handler event (trim (name event))
                (default (js "sequential") (mode options))
                (default false (stopOnError options))
                (timeOutMs options) (signal options)
                (listenersFor m (trim (name event)) ++ listenersFor m star)
                0 s0) as (o & -> & Hp).
    by rewrite invoked_app, Hi0.
  - destruct (concurrent_run cfg handler event (trim (name event)) _
                (default false (stopOnError options))
                (timeOutMs options) (signal options) Eseq
                (listenersFor m (trim (name event)) ++ listenersFor m star)
                sched s0) as (o & -> & Hi & _).
    cbn [snd out]. by rewrite invoked_app, Hi0, Hi.
Qed.

(** Outside sequential mode it calls the whole array. *)
Lemma emitAsync_invoked_all (m : Manager) :
  is_sequential (default (js "sequential") (mode options)) = false →
  invoked (out (emitAsync cfg handler event options sched (init_St m)).2)
  = listenersFor m (trim (name event)) ++ listenersFor m star.
Proof.
  intros Eseq. rewrite emitAsync_run, Eseq.
  set (s0 := {| mgr := m;
                out := if debug cfg
                       then [ConsoleDebug (DispatchAsyncMsg (name event))]
                       else [];
                idx := 0 |}).
  assert (invoked (out s0) = []) as Hi0 by (cbn; by destruct (debug cfg)).
  destruct (concurrent_run cfg handler event (trim (name event)) _
              (default false (stopOnError options))
              (timeOutMs options) (signal options) Eseq
              (listenersFor m (trim (name event)) ++ listenersFor m star)
              sched s0) as (o & -> & Hi & _).
  cbn [snd out]. by rewrite invoked_app, Hi0, Hi.
Qed.
End Invoked.

(** ** A sink that returns *)

(** Two computations that do the same on every state. *)
Lemma meq_bind {A B} (c c' : M A) (f f' : A → M B) (s : St) :
  (∀ s, c s = c' s) → (∀ a s, f a s = f' a s) → (c ≫= f) s = (c' ≫= f') s.
Proof.
  intros Hc Hf. rewrite !bind_run, Hc.
  destruct (c' s) as [[a|e|] s1]; [apply Hf|done..].
Qed.

Lemma meq_try_catch {A} (c c' : M A) (h h' : error → M A) (s : St) :
  (∀ s, c s = c' s) → (∀ e s, h e s = h' e s) →
  try_catch c h s = try_catch c' h' s.
Proof.
  intros Hc Hh. unfold try_catch. rewrite Hc.
  destruct (c' s) as [[a|e|] s1]; [done|apply Hh|done].
Qed.

Lemma meq_try_finally {A} (c c' : M A) (f f' : M ()) (s : St) :
  (∀ s, c s = c' s) → (∀ s, f s = f' s) →
  try_finally c f s = try_finally c' f' s.
Proof.
  intros Hc Hf. unfold try_finally. rewrite Hc.
  destruct (c' s) as [[a|e|] s1]; by rewrite ?Hf.
Qed.

Lemma meq_finish (c c' : M ()) (s : St) :
  (∀ s, c s = c' s) → finish c s = finish c' s.
Proof. intros Hc. unfold finish. by rewrite Hc. Qed.

(** With no sink installed, or with one that never throws, the code runs
    as with the sink that returns. *)
Section SinkReturns.
Context {T : Type}.
Context {sk : Sink}.
Variable cfg : Config.
Variable handler : lid → NexusEvent T → Behaviour.
Variable event : NexusEvent T.
Hypothesis returns : sink_returns cfg sk.

Lemma report_returns (e : error) (name : jsstring) (i : nat) (s : St) :
  report (sk := sk) cfg e name i s =
  report (sk := returning_sink) cfg e name i s.
Proof.
  unfold report. destruct (onError cfg) eqn:Hon; [|done].
  cbn [when sink_outcome returning_sink]. by rewrite returns.
Qed.

Lemma run_loop_returns (name : jsstring) (ls : list lid) (s : St) :
  run_loop (sk := sk) cfg handler event name ls s =
  run_loop (sk := returning_sink) cfg handler event name ls s.
Proof.
  revert s. induction ls as [|l ls IH]; intros s; [done|].
  cbn [run_loop]. apply meq_bind; [|intros _; apply IH].
  intros s1. apply meq_try_finally; [|done].
  intros s2. apply meq_try_catch; [done|].
  intros e s3. apply meq_bind; [done|].
  intros i s4. apply meq_bind; [|done].
  apply report_returns.
Qed.

Lemma run_returns (name : jsstring) (set : option loc) (s : St) :
  run (sk := sk) cfg handler event name set s =
  run (sk := returning_sink) cfg handler event name set s.
Proof.
  destruct set as [r|]; [|done]. unfold run.
  apply meq_bind; [done|]. intros size s1.
  destruct (bool_decide (size = 0)); [done|].
  apply meq_bind; [done|]. intros ls s2. apply run_loop_returns.
Qed.

Lemma emit_returns (s : St) :
  emit (sk := sk) cfg handler event s =
  emit (sk := returning_sink) cfg handler event s.
Proof.
  unfold emit.
  apply meq_bind; [done|]. intros _ s1.
  apply meq_bind; [done|]. intros specific s2.
  apply meq_bind; [done|]. intros wildcard s3.
  apply meq_bind; [done|]. intros _ s4.
  apply meq_bind; [apply run_returns|]. intros _ s5.
  destruct wildcard; [apply run_returns|done].
Qed.

Variable name : jsstring.
Variable mode : jsstring.
Variable stopOnError : bool.
Variable timeOutMs : option num.
Variable signal : option AbortSignal.

Lemma runOne_catch_returns (i : nat) (e : error) (s : St) :
  runOne_catch (sk := sk) cfg name mode stopOnError i e s =
  runOne_catch (sk := returning_sink) cfg name mode stopOnError i e s.
Proof.
  unfold runOne_catch. apply meq_bind; [apply report_returns|done].
Qed.

Lemma runOne_returns (l : lid) (i : nat) (s : St) :
  runOne (sk := sk) cfg handler event name mode stopOnError timeOutMs signal
    l i s =
  runOne (sk := returning_sink) cfg handler event name mode stopOnError
    timeOutMs signal l i s.
Proof.
  unfold runOne. apply meq_try_catch; [done|]. apply runOne_catch_returns.
Qed.

Lemma seq_loop_returns (ls : list lid) (i : nat) (s : St) :
  seq_loop (sk := sk) cfg handler event name mode stopOnError timeOutMs signal
    ls i s =
  seq_loop (sk := returning_sink) cfg handler event name mode stopOnError
    timeOutMs signal ls i s.
Proof.
  revert i s. induction ls as [|l ls IH]; intros i s; [done|].
  cbn [seq_loop]. apply meq_bind; [apply runOne_returns|].
  intros _. apply IH.
Qed.

Lemma runOne_start_returns (l : lid) (i : nat) (s : St) :
  runOne_start (sk := sk) cfg handler event name mode stopOnError timeOutMs
    signal l i s =
  runOne_start (sk := returning_sink) cfg handler event name mode stopOnError
    timeOutMs signal l i s.
Proof.
  unfold runOne_start. apply meq_try_catch; [done|].
  intros e s1. apply meq_finish, runOne_catch_returns.
Qed.

Lemma runOne_resume_returns (t : Task) (s : St) :
  runOne_resume (sk := sk) cfg name mode stopOnError t s =
  runOne_resume (sk := returning_sink) cfg name mode stopOnError t s.
Proof.
  unfold runOne_resume. destruct t as [i a|r]; [|done].
  destruct (outcome a) as [[|e]|]; [done| |done].
  apply meq_finish, runOne_catch_returns.
Qed.

Lemma start_all_returns (ls : list lid) (i : nat) (rej : option error)
    (s : St) :
  start_all (sk := sk) cfg handler event name mode stopOnError timeOutMs
    signal ls i rej s =
  start_all (sk := returning_sink) cfg handler event name mode stopOnError
    timeOutMs signal ls i rej s.
Proof.
  revert i rej s. induction ls as [|l ls IH]; intros i rej s; [done|].
  cbn [start_all]. apply meq_bind; [apply runOne_start_returns|].
  intros t s1. apply meq_bind; [apply IH|done].
Qed.

Lemma resume_at_returns (k : nat) (j : Join) (s : St) :
  resume_at (sk := sk) cfg name mode stopOnError k j s =
  resume_at (sk := returning_sink) cfg name mode stopOnError k j s.
Proof.
  unfold resume_at. destruct (tasks j !! k) as [t|]; [|done].
  apply meq_bind; [apply runOne_resume_returns|done].
Qed.

Lemma resume_all_returns (sched : list nat) (j : Join) (s : St) :
  resume_all (sk := sk) cfg name mode stopOnError sched j s =
  resume_all (sk := returning_sink) cfg name mode stopOnError sched j s.
Proof.
  revert j s. induction sched as [|k sched IH]; intros j s; [done|].
  cbn [resume_all]. apply meq_bind; [apply resume_at_returns|].
  intros j'. apply IH.
Qed.

Lemma concurrent_returns (snapshot : list lid) (sched : list nat) (s : St) :
  concurrent (sk := sk) cfg handler event name mode stopOnError timeOutMs
    signal snapshot sched s =
  concurrent (sk := returning_sink) cfg handler event name mode stopOnError
    timeOutMs signal snapshot sched s.
Proof.
  unfold concurrent. apply meq_bind; [apply start_all_returns|].
  intros j s1. apply meq_bind; [apply resume_all_returns|done].
Qed.
End SinkReturns.

Lemma emitAsync_returns {T} {sk : Sink} (cfg : Config)
    (handler : lid → NexusEvent T → Behaviour) (event : NexusEvent T)
    (options : EmitAsyncOptions) (sched : list nat) (s : St) :
  sink_returns cfg sk →
  emitAsync (sk := sk) cfg handler event options sched s =
  emitAsync (sk := returning_sink) cfg handler event options sched s.
Proof.
  intros Hret. unfold emitAsync.
  apply meq_bind; [done|]. intros _ s1.
  apply meq_bind; [done|]. intros specific s2.
  apply meq_bind; [done|]. intros wildcard s3.
  apply meq_bind; [done|]. intros l1 s4.
  apply meq_bind; [done|]. intros l2 s5. cbn zeta.
  destruct (is_sequential _).
  - by apply seq_loop_returns.
  - by apply concurrent_returns.
Qed.

(** ** How far the sequential loop gets *)



(** * The claims *)

(** ** Registration *)

Lemma occurrences_notin (x : lid) (s : list lid) : x ∉ s → occurrences x s = 0.
Proof.
  unfold occurrences. induction s as [|y s IH]; [done|].
  rewrite not_elem_of_cons. intros [Hne Hs].
  rewrite filter_cons_False by done. by apply IH.
Qed.

Lemma occurrences_NoDup (x : lid) (s : list lid) :
  NoDup s → x ∈ s → occurrences x s = 1.
Proof.
  unfold occurrences. induction 1 as [|y s Hy Hs IH]; [by intros ?%elem_of_nil|].
  rewrite elem_of_cons. intros [->|Hx].
  - rewrite filter_cons_True by done. cbn [length]. f_equal.
    by apply occurrences_notin.
  - rewrite filter_cons_False; [by apply IH|]. by intros ->.
Qed.

Lemma others_add_elem (x : lid) (s : list lid) : others x (add_elem x s) = others x s.
Proof.
  unfold others. destruct (decide (x ∈ s)) as [H|H].
  - by rewrite add_elem_in.
  - rewrite add_elem_notin, filter_app by done.
    rewrite filter_cons_False, filter_nil by (by intros ?). apply app_nil_r.
Qed.

Lemma NoDup_occurrences_le (x : lid) (s : list lid) :
  NoDup s → occurrences x s ≤ 1.
Proof.
  intros Hs. destruct (decide (x ∈ s)) as [Hx|Hx].
  - by rewrite occurrences_NoDup.
  - rewrite occurrences_notin by done. lia.
Qed.

Lemma wf_listenersFor_NoDup (m : Manager) (k : jsstring) :
  wf m → NoDup (listenersFor m k).
Proof.
  intros [Hlive _ Hnd]. unfold listenersFor, deref.
  destruct (listeners m !! k) as [r|] eqn:E; [|apply NoDup_nil_2].
  destruct (Hlive _ _ E) as [s Hs]. rewrite Hs. cbn. eauto.
Qed.

(** Registering again what is registered leaves the manager as it is. *)
Lemma after_register_again cfg (k : jsstring) (l : lid) (m : Manager) :
  wf m → l ∈ listenersFor m (trim k) → after_register cfg k l m = m.
Proof.
  intros [Hlive _ _] Hl. rewrite after_register_eq. unfold listenersFor in Hl.
  destruct (listeners m !! trim k) as [r|] eqn:E; [|by apply elem_of_nil in Hl].
  rewrite add_elem_in by done. destruct (Hlive _ _ E) as [s Hs].
  unfold deref. rewrite Hs. cbn. rewrite !insert_id by done. by destruct m.
Qed.

(** C9. For every key K and listener L, on a registry in its invariant:
    both calls of [register(K, L)] return; after them the listeners of the
    trimmed key hold L exactly once; the second call leaves the manager as
    the first one left it; and the other listeners of the key are those
    that were there, in the same order. *)
Theorem register_twice_idempotent (cfg : Config) (K : jsstring) (L : lid) (s : St) :
  wf (mgr s) →
  let r1 := register cfg K L s in
  let r2 := register cfg K L r1.2 in
  r1.1 = Ok () ∧ r2.1 = Ok ()
  ∧ occurrences L (listenersFor (mgr r2.2) (trim K)) = 1
  ∧ mgr r2.2 = mgr r1.2
  ∧ others L (listenersFor (mgr r2.2) (trim K))
    = others L (listenersFor (mgr s) (trim K)).
Proof.
  intros Hwf r1 r2. subst r2 r1.
  destruct (register_run cfg K L s) as (o1 & -> & _). cbn [fst snd].
  destruct (register_run cfg K L
              {| mgr := after_register cfg K L (mgr s); out := out s ++ o1;
                 idx := idx s |}) as (o2 & -> & _).
  cbn [fst snd mgr].
  assert (wf (after_register cfg K L (mgr s))) as Hwf1
    by by apply after_register_wf.
  assert (listenersFor (after_register cfg K L (mgr s)) (trim K)
          = add_elem L (listenersFor (mgr s) (trim K))) as E1.
  { rewrite after_register_listenersFor by done. by rewrite decide_True. }
  assert (after_register cfg K L (after_register cfg K L (mgr s))
          = after_register cfg K L (mgr s)) as ->.
  { apply after_register_again; [done|]. rewrite E1. apply add_elem_elem. }
  rewrite E1. split_and!; try done.
  - apply occurrences_NoDup; [|apply add_elem_elem].
    by apply add_elem_NoDup, wf_listenersFor_NoDup.
  - apply others_add_elem.
Qed.

Lemma register_twice_idempotent_witness :
  let s := init_St (Sample.manager [("a", 1); ("a", 2); ("b", 2)]) in
  let r1 := register Sample.cfg (js " a ") 2 s in
  let r2 := register Sample.cfg (js " a ") 2 r1.2 in
  r1.1 = Ok () ∧ r2.1 = Ok ()
  ∧ occurrences 2 (listenersFor (mgr r2.2) (trim (js " a "))) = 1
  ∧ mgr r2.2 = mgr r1.2
  ∧ others 2 (listenersFor (mgr r2.2) (trim (js " a ")))
    = others 2 (listenersFor (mgr s) (trim (js " a "))).
Proof.
  apply (register_twice_idempotent Sample.cfg (js " a ") 2
           (init_St (Sample.manager [("a", 1); ("a", 2); ("b", 2)]))).
  apply after_registers_wf, wf_empty.
Defined.

(** ** Synchronous dispatch *)

(** [emit] with a sink that returns: the call returns, every listener of
    both passes is called, and the sink has the failures. *)
Lemma emit_isolation {T} (cfg : Config)
    (handler : lid → NexusEvent T → Behaviour) (event : NexusEvent T)
    (m : Manager) :
  let K := trim (name event) in
  let r := emit cfg handler event (init_St m) in
  r.1 = Ok ()
  ∧ (∃ late, invoked (out r.2) = listenersFor m K ++ listenersFor m star ++ late)
  ∧ sink_calls (out r.2) =
      if onError cfg
      then reports (thrown handler event) K 0 (invoked (out r.2))
      else [].
Proof.
  intros K r. subst r.
  destruct (emit_run cfg handler event m) as (s' & -> & _ & Hi & Hs).
  fold K in Hi, Hs. cbn [fst snd]. rewrite Hs, Hi. split_and!; try done.
  assert (listenersFor m star `prefix_of`
          match listeners m !! star with
          | Some r => deref (after_handlers cfg handler event (listenersFor m K) m) r
          | None => []
          end) as [late ->]; [|by eauto].
  unfold listenersFor at 1.
  destruct (listeners m !! star); [apply after_handlers_deref|done].
Qed.

(** C7, counterexample. Two listeners under ["risky:op"], the first of
    which throws, and a sink that throws when it is called: [emit] throws
    to its caller what the sink threw, and the second listener is not
    called. *)
Example emit_raises_what_sink_throws :
  let m := Sample.manager [("risky:op", 2); ("risky:op", 5)] in
  let r := emit (sk := Sample.throwing) Sample.cfg Sample.handler
             (Sample.event "risky:op") (init_St m) in
  listenersFor m (js "risky:op") = [2; 5]
  ∧ thrown Sample.handler (Sample.event "risky:op") 2 = Some (Thrown 2)
  ∧ r.1 = Exn (Thrown 99)
  ∧ invoked (out r.2) = [2]
  ∧ sink_calls (out r.2) = [(Thrown 2, js "risky:op", 0)].
Proof. by vm_compute. Qed.

(** C7. For every [emit] with no sink installed, or with a sink that
    returns from its calls: the call returns to its caller whatever the
    handlers do; every listener of the key and of the wildcard key is
    called, a throwing one not stopping those after it; with a sink
    installed the sink receives each failure with the trimmed key and the
    position of the failing call in the whole sequence of calls, counted
    from zero across both passes; with no sink nothing is reported. *)
Theorem emit_isolates_failures {T} (sk : Sink) (cfg : Config)
    (handler : lid → NexusEvent T → Behaviour) (event : NexusEvent T)
    (m : Manager) :
  sink_returns cfg sk →
  let K := trim (name event) in
  let r := emit (sk := sk) cfg handler event (init_St m) in
  r.1 = Ok ()
  ∧ (∃ late, invoked (out r.2) = listenersFor m K ++ listenersFor m star ++ late)
  ∧ sink_calls (out r.2) =
      if onError cfg
      then reports (thrown handler event) K 0 (invoked (out r.2))
      else [].
Proof.
  intros Hret K r. subst r. rewrite emit_returns by done.
  apply emit_isolation.
Qed.

Lemma emit_isolates_failures_witness :
  let m := Sample.manager [("risky:op", 2); ("risky:op", 5); ("*", 2)] in
  let K := trim (name (Sample.event "risky:op")) in
  let r := emit (sk := returning_sink) Sample.cfg Sample.handler
             (Sample.event "risky:op") (init_St m) in
  r.1 = Ok ()
  ∧ (∃ late, invoked (out r.2) = listenersFor m K ++ listenersFor m star ++ late)
  ∧ sink_calls (out r.2) =
      if onError Sample.cfg
      then reports (thrown Sample.handler (Sample.event "risky:op")) K 0
             (invoked (out r.2))
      else [].
Proof.
  apply (emit_isolates_failures returning_sink Sample.cfg Sample.handler
           (Sample.event "risky:op")
           (Sample.manager [("risky:op", 2); ("risky:op", 5); ("*", 2)])).
  intros _ e n i. reflexivity.
Defined.

(** ** Order of invocation *)


(** ** Sequential mode *)

(** A wrapped promise that never settles holds the sequential loop at its
    listener: the call stays pending and no later listener is called. *)
Lemma sequential_pending {T} (cfg : Config)
    (handler : lid → NexusEvent T → Behaviour) (event : NexusEvent T)
    (options : EmitAsyncOptions) (sched : list nat) (m : Manager)
    (l : lid) (rest : list lid) :
  is_sequential (default (js "sequential") (mode options)) = true →
  listenersFor m (trim (name event)) ++ listenersFor m star = l :: rest →
  listener_outcome handler event (timeOutMs options) (signal options) l = None →
  let r := emitAsync cfg handler event options sched (init_St m) in
  r.1 = Pending ∧ invoked (out r.2) = [l].
Proof.
  intros Hseq Hsnap Hl r. subst r. rewrite emitAsync_run, Hseq, Hsnap.
  cbn [seq_loop]. rewrite bind_run.
  destruct (runOne_run cfg handler event (trim (name event))
              (default (js "sequential") (mode options))
              (default false (stopOnError options))
              (timeOutMs options) (signal options) l 0
              {| mgr := m;
                 out := if debug cfg
                        then [ConsoleDebug (DispatchAsyncMsg (name event))]
                        else [];
                 idx := 0 |}) as (o & -> & Hi & _).
  rewrite Hl. cbn [fst snd out]. rewrite invoked_app, Hi.
  by destruct (debug cfg).
Qed.

(** The sequential loop under [stopOnError], with a sink that returns:
    the first failure ends the loop and is the rejection of the call. *)
Lemma sequential_stop {T} (cfg : Config)
    (handler : lid → NexusEvent T → Behaviour) (event : NexusEvent T)
    (options : EmitAsyncOptions) (sched : list nat) (m : Manager)
    (pre post : list lid) (l : lid) (e : error) :
  is_sequential (default (js "sequential") (mode options)) = true →
  default false (stopOnError options) = true →
  listenersFor m (trim (name event)) ++ listenersFor m star = pre ++ l :: post →
  Forall (λ x, listener_outcome handler event (timeOutMs options)
                 (signal options) x = Some Fulfilled) pre →
  listener_outcome handler event (timeOutMs options) (signal options) l
    = Some (Rejected e) →
  let r := emitAsync cfg handler event options sched (init_St m) in
  r.1 = Exn e
  ∧ invoked (out r.2) = pre ++ [l]
  ∧ sink_calls (out r.2) =
      if onError cfg then [(e, trim (name event), length pre)] else [].
Proof.
  intros Hseq Hstop Hsnap Hpre Hl r. subst r.
  rewrite emitAsync_run, Hseq, Hsnap, Hstop.
  set (s0 := {| mgr := m;
                out := if debug cfg
                       then [ConsoleDebug (DispatchAsyncMsg (name event))]
                       else [];
                idx := 0 |}).
  destruct (seq_loop_pass cfg handler event (trim (name event))
              (default (js "sequential") (mode options)) true
              (timeOutMs options) (signal options) pre (l :: post) 0 s0)
    as (o1 & -> & Hi1 & Hs1).
  { eapply Forall_impl; [exact Hpre|]. intros x ->. done. }
  cbn [seq_loop]. rewrite bind_run.
  destruct (runOne_run cfg handler event (trim (name event))
              (default (js "sequential") (mode options)) true
              (timeOutMs options) (signal options) l (0 + length pre)
              {| mgr := after_handlers cfg handler event pre (mgr s0);
                 out := out s0 ++ o1; idx := idx s0 |})
    as (o2 & -> & Hi2 & Hs2).
  rewrite Hl, Hseq. cbn [andb fst snd out s0].
  rewrite !invoked_app, !sink_calls_app, Hi1, Hi2, Hs1, Hs2.
  assert (reports (failure handler event (timeOutMs options) (signal options))
            (trim (name event)) 0 pre = []) as ->.
  { clear -Hpre. generalize 0.
    induction Hpre as [|x pre Hx Hpre IH]; intros i; [done|].
    cbn [reports]. unfold failure at 1. rewrite Hx. apply IH. }
  unfold report_of, failure. rewrite Hl.
  split_and!; [done|by destruct (debug cfg)|by destruct (debug cfg), (onError cfg)].
Qed.

(** C5, counterexample. Listeners 1, 4 and 5 under ["k"], sequential
    mode with [stopOnError], and a sink that throws when it is called. The
    invocation of 1 ends well and that of 4 fails with its rejection: the
    sink is called with it and position 1, and the call rejects with what
    the sink threw, not with the error of the listener. *)
Example sequential_rejects_with_what_sink_throws :
  let m := Sample.manager [("k", 1); ("k", 4); ("k", 5)] in
  let options := Sample.options (Some "sequential") (Some true) None None in
  let fate := listener_outcome Sample.handler (Sample.event "k")
                (timeOutMs options) (signal options) in
  let r := emitAsync (sk := Sample.throwing) Sample.cfg Sample.handler
             (Sample.event "k") options [] (init_St m) in
  listenersFor m (js "k") ++ listenersFor m star = [1; 4; 5]
  ∧ fate 1 = Some Fulfilled
  ∧ fate 4 = Some (Rejected (Thrown 4))
  ∧ sink_calls (out r.2) = [(Thrown 4, js "k", 1)]
  ∧ invoked (out r.2) = [1; 4]
  ∧ r.1 = Exn (Thrown 99).
Proof. by vm_compute. Qed.

(** C5. For every [emitAsync] in sequential mode with [stopOnError] set,
    with no sink installed or with a sink that returns from its calls,
    whose array is [pre ++ l :: post] where the invocation of each listener
    of [pre] ends well and that of [l] fails with [e]: the call rejects
    with [e]; the handlers called are those of [pre] and of [l], and none
    of [post]; the sink, if installed, is called once, with [e], the
    trimmed key and the position of [l]. *)
Theorem sequential_stops_at_first_failure {T} (sk : Sink) (cfg : Config)
    (handler : lid → NexusEvent T → Behaviour) (event : NexusEvent T)
    (options : EmitAsyncOptions) (sched : list nat) (m : Manager)
    (pre post : list lid) (l : lid) (e : error) :
  sink_returns cfg sk →
  is_sequential (default (js "sequential") (mode options)) = true →
  default false (stopOnError options) = true →
  listenersFor m (trim (name event)) ++ listenersFor m star = pre ++ l :: post →
  Forall (λ x, listener_outcome handler event (timeOutMs options)
                 (signal options) x = Some Fulfilled) pre →
  listener_outcome handler event (timeOutMs options) (signal options) l
    = Some (Rejected e) →
  let r := emitAsync (sk := sk) cfg handler event options sched (init_St m) in
  r.1 = Exn e
  ∧ invoked (out r.2) = pre ++ [l]
  ∧ sink_calls (out r.2) =
      if onError cfg then [(e, trim (name event), length pre)] else [].
Proof.
  intros Hret Hseq Hstop Hsnap Hpre Hl r. subst r.
  rewrite emitAsync_returns by done.
  by apply (sequential_stop cfg handler event options sched m pre post l e).
Qed.

Lemma sequential_stops_at_first_failure_witness :
  let m := Sample.manager [("k", 1); ("k", 2); ("k", 5); ("*", 6)] in
  let options := Sample.options None (Some true) None None in
  let r := emitAsync (sk := returning_sink) Sample.cfg Sample.handler
             (Sample.event " k ") options [] (init_St m) in
  r.1 = Exn (Thrown 2)
  ∧ invoked (out r.2) = [1] ++ [2]
  ∧ sink_calls (out r.2) =
      if onError Sample.cfg
      then [(Thrown 2, trim (name (Sample.event " k ")), length [1])] else [].
Proof.
  apply (sequential_stops_at_first_failure returning_sink Sample.cfg
           Sample.handler (Sample.event " k ")
           (Sample.options None (Some true) None None) []
           (Sample.manager [("k", 1); ("k", 2); ("k", 5); ("*", 6)])
           [1] [5; 6] 2 (Thrown 2)).
  - intros _ e n i. reflexivity.
  - reflexivity.
  - reflexivity.
  - vm_compute. reflexivity.
  - repeat constructor.
  - reflexivity.
Defined.

(** The sequential loop without [stopOnError], with a sink that returns
    and invocations that all end: the loop goes through the array. *)
Lemma sequential_pass {T} (cfg : Config)
    (handler : lid → NexusEvent T → Behaviour) (event : NexusEvent T)
    (options : EmitAsyncOptions) (sched : list nat) (m : Manager) :
  is_sequential (default (js "sequential") (mode options)) = true →
  default false (stopOnError options) = false →
  let snapshot := listenersFor m (trim (name event)) ++ listenersFor m star in
  Forall (λ x, is_Some (listener_outcome handler event (timeOutMs options)
                          (signal options) x)) snapshot →
  let r := emitAsync cfg handler event options sched (init_St m) in
  r.1 = Ok ()
  ∧ invoked (out r.2) = snapshot
  ∧ sink_calls (out r.2) =
      if onError cfg
      then reports (failure handler event (timeOutMs options) (signal options))
             (trim (name event)) 0 snapshot
      else [].
Proof.
  intros Hseq Hstop snapshot Hall r. subst r.
  rewrite emitAsync_run, Hseq, Hstop. fold snapshot.
  set (s0 := {| mgr := m;
                out := if debug cfg
                       then [ConsoleDebug (DispatchAsyncMsg (name event))]
                       else [];
                idx := 0 |}).
  destruct (seq_loop_pass cfg handler event (trim (name event))
              (default (js "sequential") (mode options)) false
              (timeOutMs options) (signal options) snapshot [] 0 s0)
    as (o1 & E & Hi1 & Hs1).
  { eapply Forall_impl; [exact Hall|]. intros x [[|e] ->]; [done|].
    apply andb_false_r. }
  rewrite app_nil_r in E. rewrite E. cbn [seq_loop fst snd out s0]. mrun.
  rewrite !invoked_app, !sink_calls_app, Hi1, Hs1.
  split_and!; [done|by destruct (debug cfg)|by destruct (debug cfg), (onError cfg)].
Qed.

(** C6, counterexample. Sequential mode, [stopOnError] unset. With
    listeners 3 and 5 under ["k"] and no timeout, the promise of 3 never
    settles: the call stays pending and 5 is not called. With listener 6
    under ["k"] and under ["*"], the array holds it twice and its handler
    is called twice. With listeners 4 and 5 under ["k"] and a sink that
    throws when it is called, the call rejects at the failure of 4 and 5
    is not called. *)
Example sequential_not_all_once :
  let ev := Sample.event "k" in
  let options := Sample.options (Some "sequential") None None None in
  let m1 := Sample.manager [("k", 3); ("k", 5)] in
  let r1 := emitAsync Sample.cfg Sample.handler ev options [] (init_St m1) in
  let m2 := Sample.manager [("k", 6); ("*", 6)] in
  let r2 := emitAsync Sample.cfg Sample.handler ev options [] (init_St m2) in
  let m3 := Sample.manager [("k", 4); ("k", 5)] in
  let r3 := emitAsync (sk := Sample.throwing) Sample.cfg Sample.handler ev
              options [] (init_St m3) in
  (listenersFor m1 (js "k") ++ listenersFor m1 star = [3; 5]
   ∧ r1.1 = Pending ∧ invoked (out r1.2) = [3])
  ∧ (listenersFor m2 (js "k") ++ listenersFor m2 star = [6; 6]
     ∧ r2.1 = Ok () ∧ invoked (out r2.2) = [6; 6]
     ∧ occurrences 6 (invoked (out r2.2)) = 2)
  ∧ (listenersFor m3 (js "k") ++ listenersFor m3 star = [4; 5]
     ∧ r3.1 = Exn (Thrown 99) ∧ invoked (out r3.2) = [4]).
Proof. by vm_compute. Qed.

(** C6. For every [emitAsync] in sequential mode with [stopOnError] unset
    or false, with no sink installed or with a sink that returns from its
    calls, in which the invocation of every listener of the array ends,
    well or not (a thrown error, a rejection, a timeout, an abort): the
    call resolves; the handlers called are those of the array, each entry
    at its position and once, so that a listener is called as many times
    as the two keys hold it, at most once for each key on a registry in
    its invariant; the sink, if installed, has every failure with its
    position. *)
Theorem sequential_runs_all {T} (sk : Sink) (cfg : Config)
    (handler : lid → NexusEvent T → Behaviour) (event : NexusEvent T)
    (options : EmitAsyncOptions) (sched : list nat) (m : Manager) :
  sink_returns cfg sk →
  is_sequential (default (js "sequential") (mode options)) = true →
  default false (stopOnError options) = false →
  let specific := listenersFor m (trim (name event)) in
  let wildcard := listenersFor m star in
  let snapshot := specific ++ wildcard in
  Forall (λ x, is_Some (listener_outcome handler event (timeOutMs options)
                          (signal options) x)) snapshot →
  let r := emitAsync (sk := sk) cfg handler event options sched (init_St m) in
  r.1 = Ok ()
  ∧ invoked (out r.2) = snapshot
  ∧ (∀ l, occurrences l (invoked (out r.2)) =
          occurrences l specific + occurrences l wildcard)
  ∧ (wf m → ∀ l, occurrences l specific ≤ 1 ∧ occurrences l wildcard ≤ 1)
  ∧ sink_calls (out r.2) =
      if onError cfg
      then reports (failure handler event (timeOutMs options) (signal options))
             (trim (name event)) 0 snapshot
      else [].
Proof.
  intros Hret Hseq Hstop specific wildcard snapshot Hall r. subst r.
  rewrite emitAsync_returns by done.
  destruct (sequential_pass cfg handler event options sched m Hseq Hstop Hall)
    as (Hok & Hi & Hs).
  split_and!; [done|done| | |done].
  - intros l. rewrite Hi. unfold occurrences. subst snapshot.
    by rewrite filter_app, length_app.
  - intros Hwf l. split; apply NoDup_occurrences_le, wf_listenersFor_NoDup, Hwf.
Qed.

Lemma sequential_runs_all_witness :
  let m := Sample.manager [("k", 1); ("k", 2); ("k", 3); ("k", 4); ("*", 6)] in
  let options :=
    Sample.options (Some "sequential") None (Some (Finite 100)) (Some TheSignal) in
  let specific := listenersFor m (trim (name (Sample.event "k"))) in
  let wildcard := listenersFor m star in
  let snapshot := specific ++ wildcard in
  let r := emitAsync (sk := returning_sink) Sample.cfg Sample.handler
             (Sample.event "k") options [] (init_St m) in
  r.1 = Ok ()
  ∧ invoked (out r.2) = snapshot
  ∧ (∀ l, occurrences l (invoked (out r.2)) =
          occurrences l specific + occurrences l wildcard)
  ∧ (wf m → ∀ l, occurrences l specific ≤ 1 ∧ occurrences l wildcard ≤ 1)
  ∧ sink_calls (out r.2) =
      if onError Sample.cfg
      then reports (failure Sample.handler (Sample.event "k")
                      (timeOutMs options) (signal options))
             (trim (name (Sample.event "k"))) 0 snapshot
      else [].
Proof.
  apply (sequential_runs_all returning_sink Sample.cfg Sample.handler
           (Sample.event "k")
           (Sample.options (Some "sequential") None (Some (Finite 100))
              (Some TheSignal)) []
           (Sample.manager [("k", 1); ("k", 2); ("k", 3); ("k", 4); ("*", 6)])).
  - intros _ e n i. reflexivity.
  - reflexivity.
  - reflexivity.
  - vm_compute. repeat constructor; eauto.
Defined.

(** ** Concurrent mode *)

(** No sink call is made twice. *)
Lemma reports_NoDup fails name i (ls : list lid) : NoDup (reports fails name i ls).
Proof.
  revert i. induction ls as [|l ls IH]; intros i; cbn [reports]; [constructor|].
  destruct (fails l) as [e|]; [|apply IH].
  constructor; [|apply IH]. rewrite reports_elem. intros (_ & H & _). lia.
Qed.

Lemma late_reports_NoDup {T} cfg (handler : lid → NexusEvent T → Behaviour) event
    name timeOutMs signal (snapshot : list lid) (turns sched : list nat) :
  NoDup (late_reports cfg handler event name timeOutMs signal snapshot turns sched).
Proof.
  revert turns. induction sched as [|k sched IH]; intros turns;
    cbn [late_reports]; [constructor|].
  apply NoDup_app. split_and!; [|intros [[e n] k'] Hin|apply IH].
  - unfold late_report. destruct (snapshot !! k); [|constructor].
    destruct (thrown handler event l); [constructor|].
    destruct (outcome _) as [[|e]|]; try constructor.
    destruct (bool_decide _); [constructor|].
    destruct (onError cfg); [apply NoDup_singleton|constructor].
  - rewrite late_reports_elem. intros (_ & _ & _ & Hk & _). apply Hk.
    assert (k' = k) as ->; [|by left].
    unfold late_report in Hin. destruct (snapshot !! k); [|by apply elem_of_nil in Hin].
    destruct (thrown handler event l); [by apply elem_of_nil in Hin|].
    destruct (outcome _) as [[|e']|]; try by apply elem_of_nil in Hin.
    destruct (bool_decide _); [by apply elem_of_nil in Hin|].
    destruct (onError cfg); [|by apply elem_of_nil in Hin].
    apply list_elem_of_singleton in Hin. congruence.
Qed.

(** The joint wait with a sink that returns: the call never rejects and
    is over exactly when every call of [runOne] is. *)
Lemma concurrent_wait {T} (cfg : Config)
    (handler : lid → NexusEvent T → Behaviour) (event : NexusEvent T)
    (options : EmitAsyncOptions) (sched : list nat) (m : Manager) :
  is_sequential (default (js "sequential") (mode options)) = false →
  let K := trim (name event) in
  let snapshot := listenersFor m K ++ listenersFor m star in
  let fate := listener_outcome handler event (timeOutMs options) (signal options) in
  let r := emitAsync cfg handler event options sched (init_St m) in
  (∀ e, r.1 ≠ Exn e)
  ∧ (r.1 = Ok () ↔
     ∀ k l, snapshot !! k = Some l →
       is_Some (thrown handler event l)
       ∨ (k ∈ sched
          ∧ is_Some (outcome (wrapped handler event (timeOutMs options)
                                (signal options) l))))
  ∧ (r.1 = Ok () → Forall (λ l, is_Some (fate l)) snapshot)
  ∧ invoked (out r.2) = snapshot
  ∧ (∀ e n k,
       (e, n, k) ∈ sink_calls (out r.2) ↔
       onError cfg = true ∧ n = K
       ∧ ∃ l, snapshot !! k = Some l ∧ fate l = Some (Rejected e)
              ∧ (is_Some (thrown handler event l) ∨ k ∈ sched))
  ∧ NoDup (sink_calls (out r.2))
  ∧ (∀ b, emitAsync cfg handler event
            {| mode := mode options; stopOnError := b;
               timeOutMs := timeOutMs options; signal := signal options |}
            sched (init_St m) = r).
Proof.
  intros Hconc K snapshot fate r.
  set (s0 := {| mgr := m;
                out := if debug cfg
                       then [ConsoleDebug (DispatchAsyncMsg (name event))]
                       else [];
                idx := 0 |}).
  assert (invoked (out s0) = [] ∧ sink_calls (out s0) = []) as [Hi0 Hs0].
  { cbn. by destruct (debug cfg). }
  destruct (concurrent_run cfg handler event K
              (default (js "sequential") (mode options))
              (default false (stopOnError options))
              (timeOutMs options) (signal options) Hconc snapshot sched s0)
    as (o & Er & Hi & Hs).
  assert (r = (if forallb is_done
                    (imap (task_state handler event (timeOutMs options)
                             (signal options) (reverse sched)) snapshot)
               then Ok () else Pending,
               {| mgr := after_handlers cfg handler event snapshot (mgr s0);
                  out := out s0 ++ o; idx := idx s0 |})) as ->.
  { subst r. rewrite emitAsync_run, Hconc. exact Er. }
  cbn [fst snd out].
  assert (forallb is_done
            (imap (task_state handler event (timeOutMs options)
                     (signal options) (reverse sched)) snapshot) = true ↔
          ∀ k l, snapshot !! k = Some l →
            is_Some (thrown handler event l)
            ∨ (k ∈ sched
               ∧ is_Some (outcome (wrapped handler event (timeOutMs options)
                                     (signal options) l)))) as Hdone.
  { rewrite all_done_iff. by setoid_rewrite elem_of_reverse. }
  split_and!.
  - intros e. by destruct (forallb _ _).
  - rewrite <- Hdone. by destruct (forallb _ _).
  - intros Hok. apply Forall_lookup. intros k l Hl.
    assert (forallb is_done
              (imap (task_state handler event (timeOutMs options)
                       (signal options) (reverse sched)) snapshot) = true) as Hall
      by by destruct (forallb _ _).
    destruct (proj1 Hdone Hall k l Hl) as [[e He]|[_ Ho]];
      subst fate; unfold listener_outcome.
    + by rewrite He.
    + by destruct (thrown handler event l).
  - by rewrite invoked_app, Hi0, Hi.
  - intros e n k. rewrite sink_calls_app, Hs0, Hs. cbn [app].
    rewrite elem_of_app, late_reports_elem.
    assert ((e, n, k) ∈ (if onError cfg
                         then reports (thrown handler event) K 0 snapshot
                         else []) ↔
            onError cfg = true ∧ n = K
            ∧ ∃ l, snapshot !! k = Some l ∧ thrown handler event l = Some e) as ->.
    { destruct (onError cfg).
      - rewrite reports_elem, Nat.sub_0_r. split.
        + intros (-> & _ & l & ? & ?). eauto.
        + intros (_ & -> & l & ? & ?). split_and!; [done|lia|eauto].
      - rewrite elem_of_nil. split; [done|]. by intros [? _]. }
    subst fate. unfold listener_outcome. split.
    + intros [(Hon & -> & l & Hl & He)|(Hon & -> & Hk & _ & l & Hl & Ht & Ho)].
      * split_and!; try done. exists l. rewrite He. eauto.
      * split_and!; try done. exists l. rewrite Ht. eauto.
    + intros (Hon & -> & l & Hl & Hf & Hk).
      destruct (thrown handler event l) as [e'|] eqn:Ht.
      * left. split_and!; try done. exists l. split; [done|]. congruence.
      * right. destruct Hk as [[? [=]]|Hk].
        split_and!; try done; [by intros ?%elem_of_nil|]. eauto.
  - rewrite sink_calls_app, Hs0, Hs. cbn [app]. apply NoDup_app. split_and!.
    + destruct (onError cfg); [apply reports_NoDup|constructor].
    + intros [[e n] k] Hin. rewrite late_reports_elem.
      intros (_ & _ & _ & _ & l & Hl & Ht & _).
      destruct (onError cfg); [|by apply elem_of_nil in Hin].
      apply reports_elem in Hin as (_ & _ & l' & Hl' & Ht').
      rewrite Nat.sub_0_r in Hl'. congruence.
    + apply late_reports_NoDup.
  - intros b. rewrite emitAsync_run. cbn [mode stopOnError timeOutMs signal].
    rewrite Hconc. fold K snapshot s0. rewrite <- Er.
    apply concurrent_ext. by rewrite Hconc.
Qed.

(** C8, counterexample. Listeners 2 and 3 under ["k"], concurrent mode,
    no timeout, and a sink that throws when it is called. The handler of 2
    throws, the sink is called and throws, and the call of [runOne] for 2
    rejects: the call rejects with what the sink threw, before any
    promise has had its turn, while the promise of 3 has not settled. *)
Example concurrent_rejects_with_what_sink_throws :
  let m := Sample.manager [("k", 2); ("k", 3)] in
  let options := Sample.options (Some "concurrent") None None None in
  let fate := listener_outcome Sample.handler (Sample.event "k")
                (timeOutMs options) (signal options) in
  let r := emitAsync (sk := Sample.throwing) Sample.cfg Sample.handler
             (Sample.event "k") options [] (init_St m) in
  listenersFor m (js "k") ++ listenersFor m star = [2; 3]
  ∧ fate 2 = Some (Rejected (Thrown 2))
  ∧ fate 3 = None
  ∧ invoked (out r.2) = [2; 3]
  ∧ sink_calls (out r.2) = [(Thrown 2, js "k", 0)]
  ∧ r.1 = Exn (Thrown 99).
Proof. by vm_compute. Qed.

(** C8. For every [emitAsync] whose mode is not ['sequential'], with no
    sink installed or with a sink that returns from its calls, at any
    point of the schedule: all handlers have been called, in the order of
    the array; the call never rejects; it has resolved exactly when every
    call of [runOne] is over, that is when each handler has thrown or its
    wrapped promise has settled and its continuation has run, so that a
    resolved call means that every invocation has ended; the sink, if
    installed, has exactly the failures that have ended so far, each once
    and with its position; and the value of [stopOnError] changes nothing. *)
Theorem concurrent_waits_for_all {T} (sk : Sink) (cfg : Config)
    (handler : lid → NexusEvent T → Behaviour) (event : NexusEvent T)
    (options : EmitAsyncOptions) (sched : list nat) (m : Manager) :
  sink_returns cfg sk →
  is_sequential (default (js "sequential") (mode options)) = false →
  let K := trim (name event) in
  let snapshot := listenersFor m K ++ listenersFor m star in
  let fate := listener_outcome handler event (timeOutMs options) (signal options) in
  let r := emitAsync (sk := sk) cfg handler event options sched (init_St m) in
  (∀ e, r.1 ≠ Exn e)
  ∧ (r.1 = Ok () ↔
     ∀ k l, snapshot !! k = Some l →
       is_Some (thrown handler event l)
       ∨ (k ∈ sched
          ∧ is_Some (outcome (wrapped handler event (timeOutMs options)
                                (signal options) l))))
  ∧ (r.1 = Ok () → Forall (λ l, is_Some (fate l)) snapshot)
  ∧ invoked (out r.2) = snapshot
  ∧ (∀ e n k,
       (e, n, k) ∈ sink_calls (out r.2) ↔
       onError cfg = true ∧ n = K
       ∧ ∃ l, snapshot !! k = Some l ∧ fate l = Some (Rejected e)
              ∧ (is_Some (thrown handler event l) ∨ k ∈ sched))
  ∧ NoDup (sink_calls (out r.2))
  ∧ (∀ b, emitAsync (sk := sk) cfg handler event
            {| mode := mode options; stopOnError := b;
               timeOutMs := timeOutMs options; signal := signal options |}
            sched (init_St m) = r).
Proof.
  intros Hret Hconc K snapshot fate r.
  pose proof (concurrent_wait cfg handler event options sched m Hconc) as H.
  cbn zeta in H. subst r. rewrite emitAsync_returns by done.
  destruct H as (H1 & H2 & H3 & H4 & H5 & H6 & H7).
  split_and!; try done.
  intros b. rewrite emitAsync_returns by done. apply H7.
Qed.

Lemma concurrent_waits_for_all_witness :
  let m := Sample.manager [("k", 1); ("k", 2); ("k", 3); ("k", 4); ("*", 6)] in
  let options :=
    Sample.options (Some "parallel") (Some true) (Some (Finite 100)) None in
  let sched := [3; 0] in
  let K := trim (name (Sample.event "k")) in
  let snapshot := listenersFor m K ++ listenersFor m star in
  let fate := listener_outcome Sample.handler (Sample.event "k")
                (timeOutMs options) (signal options) in
  let r := emitAsync (sk := returning_sink) Sample.cfg Sample.handler
             (Sample.event "k") options sched (init_St m) in
  (∀ e, r.1 ≠ Exn e)
  ∧ (r.1 = Ok () ↔
     ∀ k l, snapshot !! k = Some l →
       is_Some (thrown Sample.handler (Sample.event "k") l)
       ∨ (k ∈ sched
          ∧ is_Some (outcome (wrapped Sample.handler (Sample.event "k")
                                (timeOutMs options) (signal options) l))))
  ∧ (r.1 = Ok () → Forall (λ l, is_Some (fate l)) snapshot)
  ∧ invoked (out r.2) = snapshot
  ∧ (∀ e n k,
       (e, n, k) ∈ sink_calls (out r.2) ↔
       onError Sample.cfg = true ∧ n = K
       ∧ ∃ l, snapshot !! k = Some l ∧ fate l = Some (Rejected e)
              ∧ (is_Some (thrown Sample.handler (Sample.event "k") l) ∨ k ∈ sched))
  ∧ NoDup (sink_calls (out r.2))
  ∧ (∀ b, emitAsync (sk := returning_sink) Sample.cfg Sample.handler
            (Sample.event "k")
            {| mode := mode options; stopOnError := b;
               timeOutMs := timeOutMs options; signal := signal options |}
            sched (init_St m) = r).
Proof.
  apply (concurrent_waits_for_all returning_sink Sample.cfg Sample.handler
           (Sample.event "k")
           (Sample.options (Some "parallel") (Some true) (Some (Finite 100)) None)
           [3; 0]
           (Sample.manager [("k", 1); ("k", 2); ("k", 3); ("k", 4); ("*", 6)])).
  - intros _ e n i. reflexivity.
  - reflexivity.
Defined.

(** ** Choice of the mode *)

(** C10. For every [emitAsync]: when [mode] is a string other than
    ['sequential'], whichever it is, the call behaves as with
    ['concurrent'] and with any value of [stopOnError], and all handlers
    of the array have been called before any wrapped promise has had its
    turn; when [mode] is ['sequential'] or is omitted, the call behaves as
    with ['sequential'], the schedule of the joint wait plays no part, and
    a first listener whose wrapped promise does not settle keeps every
    other handler from being called. *)
Theorem mode_selects_path {T} (cfg : Config)
    (handler : lid → NexusEvent T → Behaviour) (event : NexusEvent T)
    (options : EmitAsyncOptions) (sched : list nat) (m : Manager) :
  let snapshot := listenersFor m (trim (name event)) ++ listenersFor m star in
  let r := emitAsync cfg handler event options sched (init_St m) in
  (∀ md, mode options = Some md → md ≠ js "sequential" →
     (∀ stop, emitAsync cfg handler event
                {| mode := Some (js "concurrent"); stopOnError := stop;
                   timeOutMs := timeOutMs options; signal := signal options |}
                sched (init_St m) = r)
     ∧ invoked (out (emitAsync cfg handler event options [] (init_St m)).2)
       = snapshot)
  ∧ (mode options = None ∨ mode options = Some (js "sequential") →
     (∀ sched', emitAsync cfg handler event
                  {| mode := Some (js "sequential");
                     stopOnError := stopOnError options;
                     timeOutMs := timeOutMs options; signal := signal options |}
                  sched' (init_St m) = r)
     ∧ (∀ l rest, snapshot = l :: rest →
          listener_outcome handler event (timeOutMs options) (signal options) l
            = None →
          r.1 = Pending ∧ invoked (out r.2) = [l])).
Proof.
  intros snapshot r. split.
  - intros md Hmd Hne.
    assert (is_sequential md = false) as Hconc by by apply bool_decide_eq_false_2.
    split.
    + intros stop. subst r. rewrite !emitAsync_run.
      cbn [mode stopOnError timeOutMs signal]. rewrite Hmd.
      cbn [default from_option id].
      assert (is_sequential (js "concurrent") = false) as Hc by by vm_compute.
      rewrite Hconc, Hc. apply concurrent_ext. by rewrite Hconc, Hc.
    + rewrite emitAsync_run, Hmd. cbn [default from_option id]. rewrite Hconc.
      fold snapshot.
      destruct (concurrent_run cfg handler event (trim (name event)) md
                  (default false (stopOnError options))
                  (timeOutMs options) (signal options) Hconc snapshot []
                  {| mgr := m;
                     out := if debug cfg
                            then [ConsoleDebug (DispatchAsyncMsg (name event))]
                            else [];
                     idx := 0 |}) as (o & -> & Hi & _).
      cbn [snd out]. rewrite invoked_app, Hi. by destruct (debug cfg).
  - intros Hmode.
    assert (default (js "sequential") (mode options) = js "sequential") as Hseq.
    { by destruct Hmode as [->| ->]. }
    split.
    + intros sched'. subst r. rewrite !emitAsync_run.
      cbn [mode stopOnError timeOutMs signal default from_option id].
      by rewrite Hseq.
    + intros l rest Hsnap Hl.
      apply (sequential_pending cfg handler event options sched m l rest);
        [by rewrite Hseq|done|done].
Qed.

(** ** The wrapper *)

(** With neither a timeout nor a signal the promise is passed through. *)
Lemma withTimeout_passes (p : option Settled) (timeoutMs : option num) :
  from_option truthy false timeoutMs = false →
  withTimeout p timeoutMs None = Passed p.
Proof. intros H. unfold withTimeout. by rewrite H. Qed.

(** With a signal that is already aborted the wrapper is rejected at once,
    takes no timer and no subscription, and does not look at [p]. *)
Lemma withTimeout_already_aborted (p : option Settled) (timeoutMs : option num)
    (evs : list RaceEvent) :
  let a := run_race evs (withTimeout p timeoutMs (Some true)) in
  outcome a = Some (Rejected ErrAborted) ∧ released a = true.
Proof.
  unfold withTimeout. rewrite andb_false_r. cbn [onAbort settle clearTimeout
    timer subscribed then_attached inner settled].
  induction evs as [|ev evs IH] using rev_ind; [done|].
  unfold run_race in *. rewrite foldl_app. cbn [foldl].
  destruct (foldl race_step _ evs) as [q|w].
  { destruct IH as [Ho _]. cbn in Ho. subst. by destruct ev. }
  destruct IH as [Ho Hr]. cbn in Ho, Hr.
  apply andb_prop in Hr as [Ht Hs]. apply negb_true_iff in Ht, Hs.
  destruct w as [tm sb ta inn st]. cbn in *. subst.
  destruct ev as [r| |], inn, ta, tm; cbn in *; done.
Qed.

(** The callbacks of [p.then] release what the wrapper holds: once [p] has
    settled, first or not, no timer is armed and [onAbort] is not
    subscribed. *)
Lemma released_when_inner_settled (p : option Settled)
    (timeoutMs : option num) (sg : option bool) (evs : list RaceEvent) :
  match run_race evs (withTimeout p timeoutMs sg) with
  | Passed _ => True
  | Wrapped w => then_attached w = false ∨ is_Some (inner w) →
                 is_armed (timer w) = false ∧ subscribed w = false
  end.
Proof.
  induction evs as [|ev evs IH] using rev_ind.
  - unfold run_race, withTimeout. cbn [foldl].
    destruct (negb _ && negb _); [done|].
    destruct sg as [[|]|]; cbn.
    + done.
    + destruct p; cbn; [by destruct (_ && _)|].
      intros [[=]|[? [=]]].
    + destruct p; cbn; [by destruct (_ && _)|].
      intros [[=]|[? [=]]].
  - unfold run_race in *. rewrite foldl_app. cbn [foldl].
    destruct (foldl race_step _ evs) as [q|w].
    { cbn. by destruct ev, q. }
    destruct w as [tm sb ta inn st]. cbn in IH.
    destruct ev as [r| |]; cbn.
    + destruct inn as [i|]; [done|]. destruct ta; cbn.
      * intros _. by destruct tm.
      * intros _. apply IH. by left.
    + destruct tm; cbn; try done.
      intros H. destruct IH as [[=] _]. done.
    + destruct sb; cbn; [|done].
      intros H. destruct IH as [_ [=]]. done.
Qed.

(** The timer wins against a pending promise, whatever the delay: the
    wrapper is rejected with the timeout error and keeps its subscription
    to the signal. *)
Lemma timer_wins_keeps_subscription (timeoutMs : num) :
  truthy timeoutMs = true → isFinite timeoutMs = true →
  let a := run_race [TimerFires] (withTimeout None (Some timeoutMs) (Some false)) in
  outcome a = Some (Rejected ErrTimeout) ∧ released a = false.
Proof.
  intros Ht Hf. unfold withTimeout. cbn [from_option given negb andb].
  rewrite Ht, Hf. done.
Qed.

(** C2. The wrapper with a timeout of 100 ms and a signal that is not
    aborted, around a promise that stays pending. When the timer fires the
    wrapper is rejected with the timeout error and [onAbort] is still
    subscribed to the signal. When instead the signal aborts, the wrapper
    is rejected with the abort error, the timer is cleared and [onAbort]
    is still subscribed. *)
Example timeout_keeps_abort_subscription :
  let start := withTimeout None (Some (Finite 100)) (Some false) in
  run_race [TimerFires] start =
    Wrapped {| timer := Fired; subscribed := true; then_attached := true;
               inner := None; settled := Some (Rejected ErrTimeout) |}
  ∧ released (run_race [TimerFires] start) = false
  ∧ run_race [SignalAborts] start =
    Wrapped {| timer := Cleared; subscribed := true; then_attached := true;
               inner := None; settled := Some (Rejected ErrAborted) |}
  ∧ released (run_race [SignalAborts] start) = false.
Proof. by vm_compute. Qed.

(** ** The wildcard key as the key of an event *)





(** ** Registration during a dispatch *)

(** [emitAsync] calls only listeners that were registered when the call
    was made, whatever the handlers register. *)
Lemma emitAsync_calls_snapshot {T} (cfg : Config)
    (handler : lid → NexusEvent T → Behaviour) (event : NexusEvent T)
    (options : EmitAsyncOptions) (sched : list nat) (m : Manager) (l : lid) :
  l ∈ invoked (out (emitAsync cfg handler event options sched (init_St m)).2) →
  l ∈ listenersFor m (trim (name event)) ∨ l ∈ listenersFor m star.
Proof.
  destruct (emitAsync_invoked_prefix cfg handler event options sched m)
    as [rest Hp].
  intros Hl. apply elem_of_app. rewrite Hp. apply elem_of_app. by left.
Qed.

(** C3. Listeners 1 under ["k"] and 8 under ["*"]; the handler of 1
    registers listener 9 under ["*"]. [emit] of ["k"] calls 1, 8 and then
    9, which was not registered when the call was made; [emitAsync] on the
    same input calls 1 and 8 only. With listener 1 alone, so that the
    wildcard key has no [Set] when the call is made, [emit] calls 1 and
    not 9. *)
Example emit_invokes_late_wildcard :
  let m := Sample.manager [("k", 1); ("*", 8)] in
  let m' := Sample.manager [("k", 1)] in
  listenersFor m (js "k") = [1] ∧ listenersFor m star = [8]
  ∧ invoked (out (emit Sample.cfg Sample.handler (Sample.event "k")
                    (init_St m)).2) = [1; 8; 9]
  ∧ invoked (out (emitAsync Sample.cfg Sample.handler (Sample.event "k")
                    (Sample.options None None None None) []
                    (init_St m)).2) = [1; 8]
  ∧ invoked (out (emit Sample.cfg Sample.handler (Sample.event "k")
                    (init_St m')).2) = [1].
Proof. by vm_compute. Qed.

(** ** Scenarios *)

(** Handler 5 on ["user:login"] and handler 6 on ["*"]: [emit] calls 5,
    then 6. *)
Example scenario_order :
  let m := Sample.manager [("*", 6); ("user:login", 5)] in
  invoked (out (emit Sample.cfg Sample.handler (Sample.event "user:login")
                  (init_St m)).2) = [5; 6].
Proof. by vm_compute. Qed.

(** Two listeners on ["risky:op"], the first of which throws: the second
    is called, and the sink is called once, with position 0. *)
Example scenario_risky :
  let m := Sample.manager [("risky:op", 2); ("risky:op", 5)] in
  let r := emit Sample.cfg Sample.handler (Sample.event "risky:op") (init_St m) in
  r.1 = Ok ()
  ∧ out r.2 = [Invoke 2; OnError (Thrown 2) (js "risky:op") 0; Invoke 5].
Proof. by vm_compute. Qed.

(** One listener whose promise never settles, a timeout of 100 ms,
    sequential mode: the timeout reaches the sink; the call resolves
    unless [stopOnError] is set, and then it rejects with the timeout. *)
Example scenario_timeout :
  let m := Sample.manager [("slow", 3)] in
  let run stop :=
    emitAsync Sample.cfg Sample.handler (Sample.event "slow")
      (Sample.options (Some "sequential") stop (Some (Finite 100)) None) []
      (init_St m) in
  (run None).1 = Ok ()
  ∧ out (run None).2 = [Invoke 3; OnError ErrTimeout (js "slow") 0]
  ∧ (run (Some true)).1 = Exn ErrTimeout.
Proof. by vm_compute. Qed.

(** * Further properties *)

(** ** Keys *)

Lemma trimStart_clean (s : jsstring) : clean_start (trimStart s).
Proof.
  induction s as [|c s IH]; [done|]. cbn.
  by destruct (isWhiteSpace c) eqn:E.
Qed.

Lemma trimStart_id (s : jsstring) : clean_start s → trimStart s = s.
Proof. destruct s as [|c s]; [done|]. cbn. by intros ->. Qed.

Lemma trimStart_app (s t : jsstring) :
  trimStart (s ++ t) =
  if decide (trimStart s = []) then trimStart t else trimStart s ++ t.
Proof.
  induction s as [|c s IH]; [done|]. cbn.
  destruct (isWhiteSpace c); [done|]. by rewrite decide_False.
Qed.

Lemma trimEnd_clean_start (s : jsstring) : clean_start s → clean_start (trimEnd s).
Proof.
  unfold trimEnd. destruct s as [|c s]; [done|]. intros Hc. cbn in Hc.
  rewrite reverse_cons, trimStart_app. case_decide as H.
  - cbn. by rewrite Hc.
  - by rewrite reverse_app.
Qed.

Lemma trim_idemp (s : jsstring) : trim (trim s) = trim s.
Proof.
  unfold trim.
  rewrite (trimStart_id (trimEnd _)) by apply trimEnd_clean_start, trimStart_clean.
  unfold trimEnd. rewrite reverse_involutive.
  by rewrite (trimStart_id (trimStart _)) by apply trimStart_clean.
Qed.

(** X1. A key counts by its trimmed form only: the trimmed key has no
    character to strip at either end, trimming it again changes nothing,
    and [register] under a key and under its trimmed form are the same
    operation. *)
Theorem register_key_is_trimmed (cfg : Config) (K : jsstring) (L : lid) (s : St) :
  clean_start (trim K) ∧ clean_start (reverse (trim K))
  ∧ trim (trim K) = trim K
  ∧ register cfg (trim K) L s = register cfg K L s.
Proof.
  split_and!.
  - apply trimEnd_clean_start, trimStart_clean.
  - unfold trim, trimEnd. rewrite reverse_involutive. apply trimStart_clean.
  - apply trim_idemp.
  - unfold register. by rewrite trim_idemp.
Qed.

(** ** Registration and delivery *)

Lemma after_register_member cfg (k : jsstring) (l : lid) (m : Manager) :
  l ∈ listenersFor (after_register cfg k l m) (trim k).
Proof.
  rewrite after_register_eq. unfold listenersFor.
  destruct (listeners m !! trim k) as [r|] eqn:E; cbn [listeners].
  - rewrite lookup_insert_eq, deref_insert_eq. apply add_elem_elem.
  - cbn zeta. rewrite lookup_insert_eq, deref_insert_eq. by left.
Qed.



(** X3. On a registry in its invariant, [register] changes the listeners
    of the trimmed key only: a new listener goes last, one that is there
    changes nothing, every other key keeps its listeners; and the
    invariant still holds. *)
Theorem register_lookup (cfg : Config) (K : jsstring) (L : lid) (m : Manager)
    (k : jsstring) :
  wf m →
  listenersFor (after_register cfg K L m) k =
    (if decide (k = trim K)
     then if decide (L ∈ listenersFor m k) then listenersFor m k
          else listenersFor m k ++ [L]
     else listenersFor m k)
  ∧ wf (after_register cfg K L m).
Proof.
  intros Hwf. split; [|by apply after_register_wf].
  rewrite after_register_listenersFor by done.
  destruct (decide (k = trim K)); [|done].
  destruct (decide (L ∈ listenersFor m k)).
  - by apply add_elem_in.
  - by apply add_elem_notin.
Qed.

Lemma register_lookup_witness :
  let m := Sample.manager [("a", 1); ("b", 2)] in
  listenersFor (after_register Sample.cfg (js "a ") 3 m) (js "a") =
    (if decide (js "a" = trim (js "a "))
     then if decide (3 ∈ listenersFor m (js "a")) then listenersFor m (js "a")
          else listenersFor m (js "a") ++ [3]
     else listenersFor m (js "a"))
  ∧ wf (after_register Sample.cfg (js "a ") 3 m).
Proof.
  apply (register_lookup Sample.cfg (js "a ") 3
           (Sample.manager [("a", 1); ("b", 2)]) (js "a")).
  apply after_registers_wf, wf_empty.
Defined.

(** [register], with its output written out. *)
Lemma register_exact (cfg : Config) (K : jsstring) (L : lid) (s : St) :
  let size := length (listenersFor (after_register cfg K L (mgr s)) (trim K)) in
  register cfg K L s =
  (Ok (), {| mgr := after_register cfg K L (mgr s);
             out := out s ++
                    (if exceeds cfg size && debug cfg
                     then [ConsoleDebug
                             (MaxListenersMsg (trim K) size
                                (default 0 (maxListeners cfg)))]
                     else []);
             idx := idx s |}).
Proof.
  cbn zeta. rewrite after_register_eq. unfold listenersFor.
  unfold register, Map_get, new_Set, Set_add, Set_size, Map_set. mrun.
  destruct (listeners (mgr s) !! trim K) as [r|] eqn:E; mrun.
  - rewrite lookup_insert_eq, !deref_insert_eq.
    destruct (exceeds cfg _); [destruct (debug cfg)|]; mrun;
      by rewrite ?app_nil_r.
  - rewrite lookup_insert_eq, !deref_insert_eq, add_elem_nil.
    destruct (exceeds cfg _); [destruct (debug cfg)|]; mrun;
      by rewrite ?app_nil_r.
Qed.

(** X4. [maxListeners] limits nothing: [register] returns and leaves the
    same manager whatever the configuration is, the listener added; the
    one effect of the configuration is a line of debug output, written
    when [debug] is on and the [Set] has grown beyond [maxListeners]. *)
Theorem maxListeners_is_advisory (cfg cfg' : Config) (K : jsstring) (L : lid)
    (s : St) :
  let r := register cfg K L s in
  let size := length (listenersFor (mgr r.2) (trim K)) in
  r.1 = Ok ()
  ∧ mgr r.2 = mgr (register cfg' K L s).2
  ∧ L ∈ listenersFor (mgr r.2) (trim K)
  ∧ out r.2 = out s ++
      match maxListeners cfg with
      | Some max =>
          if bool_decide (max < size) && debug cfg
          then [ConsoleDebug (MaxListenersMsg (trim K) size max)] else []
      | None => []
      end.
Proof.
  intros r size. subst size r.
  rewrite (register_exact cfg K L s), (register_exact cfg' K L s).
  cbn [fst snd mgr out]. split_and!.
  - done.
  - by rewrite !after_register_eq.
  - apply after_register_member.
  - unfold exceeds. by destruct (maxListeners cfg).
Qed.

(** ** The registry across a dispatch *)

Section RegistryAcrossDispatch.
Context {T : Type}.
Variable cfg : Config.
Variable handler : lid → NexusEvent T → Behaviour.
Variable event : NexusEvent T.

Lemma after_handlers_app (l1 l2 : list lid) (m : Manager) :
  after_handlers cfg handler event (l1 ++ l2) m =
  after_handlers cfg handler event l2 (after_handlers cfg handler event l1 m).
Proof. unfold after_handlers. apply foldl_app. Qed.

Lemma after_handlers_grows (ls : list lid) (m : Manager) (k : jsstring) :
  listenersFor m k `prefix_of` listenersFor (after_handlers cfg handler event ls m) k.
Proof.
  unfold listenersFor. destruct (listeners m !! k) as [r|] eqn:E.
  - erewrite after_handlers_binding by done. apply after_handlers_deref.
  - apply prefix_nil.
Qed.

Lemma after_handlers_no_regs (ls : list lid) (m : Manager) :
  (∀ l, regs (handler l event) = []) →
  after_handlers cfg handler event ls m = m.
Proof.
  intros Hno. induction ls as [|l ls IH]; [done|].
  cbn [after_handlers foldl]. by rewrite Hno.
Qed.

(** The manager that the sequential loop leaves is the one it found, with
    the registrations of the handlers it called. *)
Lemma seq_loop_mgr name mode stopOnError timeOutMs signal
    (ls : list lid) (i : nat) (s : St) :
  ∃ o, (seq_loop cfg handler event name mode stopOnError timeOutMs signal
          ls i s).2 =
       {| mgr := after_handlers cfg handler event (invoked o) (mgr s);
          out := out s ++ o; idx := idx s |}.
Proof.
  revert i s. induction ls as [|l ls IH]; intros i s.
  - exists []. cbn. by rewrite app_nil_r, St_eta.
  - cbn [seq_loop]. rewrite bind_run.
    destruct (runOne_run cfg handler event name mode stopOnError timeOutMs
                signal l i s) as (o1 & -> & Hi1 & _).
    assert (∃ o, {| mgr := after_registers cfg (regs (handler l event)) (mgr s);
                    out := out s ++ o1; idx := idx s |} =
                 {| mgr := after_handlers cfg handler event (invoked o) (mgr s);
                    out := out s ++ o; idx := idx s |}) as Hhere.
    { exists o1. by rewrite Hi1. }
    assert (∃ o, (seq_loop cfg handler event name mode stopOnError timeOutMs
                    signal ls (S i)
                    {| mgr := after_registers cfg (regs (handler l event)) (mgr s);
                       out := out s ++ o1; idx := idx s |}).2 =
                 {| mgr := after_handlers cfg handler event (invoked o) (mgr s);
                    out := out s ++ o; idx := idx s |}) as Hnext.
    { destruct (IH (S i)
                  {| mgr := after_registers cfg (regs (handler l event)) (mgr s);
                     out := out s ++ o1; idx := idx s |}) as (o2 & ->).
      cbn [mgr out idx]. exists (o1 ++ o2).
      by rewrite invoked_app, Hi1, app_assoc. }
    destruct (listener_outcome handler event timeOutMs signal l) as [[|e]|];
      [done| |done].
    destruct (is_sequential mode && stopOnError); done.
Qed.
End RegistryAcrossDispatch.

Lemma emit_mgr {T} (cfg : Config) (handler : lid → NexusEvent T → Behaviour)
    (event : NexusEvent T) (m : Manager) :
  let r := emit cfg handler event (init_St m) in
  mgr r.2 = after_handlers cfg handler event (invoked (out r.2)) m.
Proof.
  intros r. subst r.
  destruct (emit_run cfg handler event m) as (s' & -> & Hm & Hi & _).
  cbn [snd]. by rewrite Hi.
Qed.

Lemma emitAsync_mgr {T} (cfg : Config)
    (handler : lid → NexusEvent T → Behaviour) (event : NexusEvent T)
    (options : EmitAsyncOptions) (sched : list nat) (m : Manager) :
  let ra := emitAsync cfg handler event options sched (init_St m) in
  mgr ra.2 = after_handlers cfg handler event (invoked (out ra.2)) m.
Proof.
  intros ra. subst ra. rewrite emitAsync_run.
  set (s0 := {| mgr := m;
                out := if debug cfg
                       then [ConsoleDebug (DispatchAsyncMsg (name event))]
                       else [];
                idx := 0 |}).
  assert (invoked (out s0) = []) as Hi0 by (cbn; by destruct (debug cfg)).
  destruct (is_sequential _) eqn:Eseq.
  - destruct (seq_loop_mgr cfg handler event (trim (name event))
                (default (js "sequential") (mode options))
                (default false (stopOnError options))
                (timeOutMs options) (signal options)
                (listenersFor m (trim (name event)) ++ listenersFor m star)
                0 s0) as (o & ->).
    cbn [mgr out]. by rewrite invoked_app, Hi0.
  - destruct (concurrent_run cfg handler event (trim (name event)) _
                (default false (stopOnError options))
                (timeOutMs options) (signal options) Eseq
                (listenersFor m (trim (name event)) ++ listenersFor m star)
                sched s0) as (o & -> & Hi & _).
    cbn [snd mgr out]. by rewrite invoked_app, Hi0, Hi.
Qed.

(** X5. A dispatch changes the registry only through the [register] calls
    of the handlers it calls: the manager after [emit] or [emitAsync] is
    the manager before it with those registrations, in call order. So no
    listener is removed or moved (the listeners of every key before the
    call are an initial part of those after it), the invariant of the
    registry is kept, and with handlers that register nothing the manager
    is left as it was. *)
Theorem dispatch_grows_registry {T} (cfg : Config)
    (handler : lid → NexusEvent T → Behaviour) (event : NexusEvent T)
    (options : EmitAsyncOptions) (sched : list nat) (m : Manager) :
  let r := emit cfg handler event (init_St m) in
  let ra := emitAsync cfg handler event options sched (init_St m) in
  mgr r.2 = after_handlers cfg handler event (invoked (out r.2)) m
  ∧ mgr ra.2 = after_handlers cfg handler event (invoked (out ra.2)) m
  ∧ (∀ k, listenersFor m k `prefix_of` listenersFor (mgr r.2) k
          ∧ listenersFor m k `prefix_of` listenersFor (mgr ra.2) k)
  ∧ (wf m → wf (mgr r.2) ∧ wf (mgr ra.2))
  ∧ ((∀ l, regs (handler l event) = []) → mgr r.2 = m ∧ mgr ra.2 = m).
Proof.
  intros r ra.
  pose proof (emit_mgr cfg handler event m) as Hr.
  pose proof (emitAsync_mgr cfg handler event options sched m) as Hra.
  cbn zeta in Hr, Hra. fold r in Hr. fold ra in Hra.
  split_and!; [done|done| | |].
  - intros k. rewrite Hr, Hra. split; apply after_handlers_grows.
  - intros Hwf. rewrite Hr, Hra. split; by apply after_handlers_wf.
  - intros Hno. rewrite Hr, Hra. split; by apply after_handlers_no_regs.
Qed.

(** ** Nothing to call *)

(** X6. With no listener under the key of the event and none under the
    wildcard key, [emit] returns and [emitAsync] resolves, in either mode
    and whatever the options are, and they call no handler, report nothing
    to the sink and leave the manager as it is. *)
Theorem nothing_registered {T} (cfg : Config)
    (handler : lid → NexusEvent T → Behaviour) (event : NexusEvent T)
    (options : EmitAsyncOptions) (sched : list nat) (m : Manager) :
  listenersFor m (trim (name event)) = [] →
  listenersFor m star = [] →
  let r := emit cfg handler event (init_St m) in
  let ra := emitAsync cfg handler event options sched (init_St m) in
  (r.1 = Ok () ∧ invoked (out r.2) = [] ∧ sink_calls (out r.2) = []
   ∧ mgr r.2 = m)
  ∧ (ra.1 = Ok () ∧ invoked (out ra.2) = [] ∧ sink_calls (out ra.2) = []
     ∧ mgr ra.2 = m).
Proof.
  intros HK Hstar r ra. split.
  - subst r. destruct (emit_run cfg handler event m) as (s' & -> & Hm & Hi & Hs).
    cbn zeta in *. rewrite HK in *. cbn [app after_handlers foldl] in *.
    assert (match listeners m !! star with
            | Some r => deref m r
            | None => []
            end = []) as Hnone by exact Hstar.
    rewrite Hnone in *. cbn [snd fst].
    split_and!; [done|done| |done]. rewrite Hs. by destruct (onError cfg).
  - subst ra. rewrite emitAsync_run, HK, Hstar. cbn [app].
    set (s0 := {| mgr := m; out := _; idx := 0 |}).
    assert (invoked (out s0) = [] ∧ sink_calls (out s0) = []) as [Hi0 Hs0].
    { cbn. by destruct (debug cfg). }
    destruct (is_sequential _) eqn:Eseq.
    + cbn [seq_loop]. done.
    + destruct (concurrent_run cfg handler event (trim (name event)) _
                  (default false (stopOnError options))
                  (timeOutMs options) (signal options) Eseq [] sched s0)
        as (o & -> & Hi & Hs).
      cbn [fst snd mgr out imap forallb after_handlers foldl].
      rewrite invoked_app, sink_calls_app, Hi0, Hs0, Hi, Hs.
      split_and!; try done. cbn [app reports].
      assert (late_reports cfg handler event (trim (name event))
                (timeOutMs options) (signal options) [] [] sched = []) as ->.
      { apply elem_of_nil_inv. intros [[e n] k] Hin.
        apply late_reports_elem in Hin as (_ & _ & _ & _ & l & Hl & _). done. }
      by destruct (onError cfg).
Qed.

Lemma nothing_registered_witness :
  let m := Sample.manager [("a", 2)] in
  let r := emit Sample.cfg Sample.handler (Sample.event "b") (init_St m) in
  let ra := emitAsync Sample.cfg Sample.handler (Sample.event "b")
              (Sample.options (Some "parallel") (Some true) None None) [0; 1]
              (init_St m) in
  (r.1 = Ok () ∧ invoked (out r.2) = [] ∧ sink_calls (out r.2) = []
   ∧ mgr r.2 = m)
  ∧ (ra.1 = Ok () ∧ invoked (out ra.2) = [] ∧ sink_calls (out ra.2) = []
     ∧ mgr ra.2 = m).
Proof.
  apply (nothing_registered Sample.cfg Sample.handler (Sample.event "b")
           (Sample.options (Some "parallel") (Some true) None None) [0; 1]
           (Sample.manager [("a", 2)])); reflexivity.
Defined.

(** ** [emit] and promises *)

Section EmitSynchronous.
Context {T : Type}.
Variable cfg : Config.
Variables h1 h2 : lid → NexusEvent T → Behaviour.
Variable event : NexusEvent T.
Hypothesis same_sync : ∀ l,
  regs (h1 l event) = regs (h2 l event)
  ∧ thrown h1 event l = thrown h2 event l.

Lemma call_handler_sync (l : lid) (s : St) :
  call_handler cfg h1 l event s = call_handler cfg h2 l event s.
Proof.
  unfold call_handler. destruct (same_sync l) as [-> Hthrown].
  unfold thrown in Hthrown. rewrite !bind_run.
  destruct (emit_obs (Invoke l) s) as [[| |] s1]; [|done|done].
  rewrite !bind_run.
  destruct (register_all cfg (regs (h2 l event)) s1) as [[| |] s2]; [|done|done].
  destruct (sync (h1 l event)), (sync (h2 l event)); congruence.
Qed.

Lemma run_loop_sync (name : jsstring) (ls : list lid) (s : St) :
  run_loop cfg h1 event name ls s = run_loop cfg h2 event name ls s.
Proof.
  revert s. induction ls as [|l ls IH]; intros s; [done|].
  cbn [run_loop]. rewrite !bind_run. unfold try_finally, try_catch.
  rewrite call_handler_sync.
  destruct (call_handler cfg h2 l event s) as [[| |] s1];
    repeat match goal with
           | |- context [match ?c ?s with _ => _ end] =>
               lazymatch c with
               | run_loop _ _ _ _ _ => fail
               | _ => destruct (c s) as [[| |] ?]
               end
           end; try done; apply IH.
Qed.

Lemma run_sync (name : jsstring) (set : option loc) (s : St) :
  run cfg h1 event name set s = run cfg h2 event name set s.
Proof.
  destruct set as [r|]; [|done]. unfold run. rewrite !bind_run.
  destruct (Set_size r s) as [[| |] s1]; [|done|done].
  case_bool_decide; [done|]. rewrite !bind_run.
  destruct (Array_from r s1) as [[| |] s2]; [|done|done].
  apply run_loop_sync.
Qed.

Lemma emit_sync (s : St) : emit cfg h1 event s = emit cfg h2 event s.
Proof.
  unfold emit. rewrite !bind_run.
  destruct (when _ _ s) as [[| |] s1]; [|done|done]. rewrite !bind_run.
  destruct (Map_get _ s1) as [[sp| |] s2]; [|done|done]. rewrite !bind_run.
  destruct (Map_get star s2) as [[wc| |] s3]; [|done|done]. rewrite !bind_run.
  destruct (put_idx 0 s3) as [[| |] s4]; [|done|done]. rewrite !bind_run.
  rewrite run_sync.
  destruct (run cfg h2 event _ sp s4) as [[| |] s5]; [|done|done].
  destruct wc; [apply run_sync|done].
Qed.
End EmitSynchronous.

(** X7. [emit] does not wait for what a handler returns: the whole run
    of [emit] (result, registry, calls, sink calls, console lines) is
    fixed by what the handlers register and throw before they return.
    Two families of handlers that agree on that give the same run,
    whatever their promises do later. *)
Theorem emit_ignores_promises {T} (cfg : Config)
    (h1 h2 : lid → NexusEvent T → Behaviour) (event : NexusEvent T) (s : St) :
  (∀ l, regs (h1 l event) = regs (h2 l event)
        ∧ thrown h1 event l = thrown h2 event l) →
  emit cfg h1 event s = emit cfg h2 event s.
Proof. intros H. by apply emit_sync. Qed.

Lemma emit_ignores_promises_witness :
  let m := Sample.manager [("k", 4); ("k", 2); ("*", 3)] in
  emit Sample.cfg Sample.handler (Sample.event "k") (init_St m) =
  emit Sample.cfg Sample2.handler (Sample.event "k") (init_St m).
Proof.
  apply (emit_ignores_promises Sample.cfg Sample.handler Sample2.handler
           (Sample.event "k")
           (init_St (Sample.manager [("k", 4); ("k", 2); ("*", 3)]))).
  intros l. split; [reflexivity|].
  unfold thrown, Sample2.handler. cbn [sync].
  destruct (sync (Sample.handler l (Sample.event "k"))); reflexivity.
Defined.

(** ** The registry that can be reached *)

Section Sound.
Variable cfg : Config.

Lemma sound_empty : sound empty_manager.
Proof.
  split; [apply wf_empty|]. intros k [r Hr]. cbn in Hr.
  by rewrite lookup_empty in Hr.
Qed.

Lemma after_register_keys (K : jsstring) (L : lid) (m : Manager) (k : jsstring) :
  is_Some (listeners (after_register cfg K L m) !! k) →
  k = trim K ∨ is_Some (listeners m !! k).
Proof.
  rewrite after_register_eq.
  destruct (decide (k = trim K)) as [->|Hne]; [by left|]. right.
  destruct (listeners m !! trim K); cbn [listeners] in *;
    by rewrite lookup_insert_ne in * by done.
Qed.

Lemma after_register_sound (K : jsstring) (L : lid) (m : Manager) :
  sound m → sound (after_register cfg K L m).
Proof.
  intros [Hwf Hkeys]. split; [by apply after_register_wf|].
  intros k Hk. rewrite after_register_listenersFor by done.
  destruct (decide (k = trim K)) as [->|Hne].
  - split; [apply trim_idemp|]. intros Hnil.
    pose proof (add_elem_elem L (listenersFor m (trim K))) as Hin.
    rewrite Hnil in Hin. by apply elem_of_nil in Hin.
  - apply after_register_keys in Hk as [?|Hk]; [done|]. by apply Hkeys.
Qed.

Lemma after_registers_sound (rs : list (jsstring * lid)) (m : Manager) :
  sound m → sound (after_registers cfg rs m).
Proof.
  revert m. induction rs as [|[k l] rs IH]; intros m H; [done|].
  rewrite after_registers_cons. by apply IH, after_register_sound.
Qed.

Lemma after_handlers_sound {T} (handler : lid → NexusEvent T → Behaviour)
    (event : NexusEvent T) (ls : list lid) (m : Manager) :
  sound m → sound (after_handlers cfg handler event ls m).
Proof.
  revert m. induction ls as [|l ls IH]; intros m H; [done|].
  cbn [after_handlers foldl]. by apply IH, after_registers_sound.
Qed.
End Sound.

(** X8. The registries that the program can reach: the fresh manager
    is sound, and [register], [emit] and [emitAsync] keep a sound
    registry sound. In such a registry every key of the map is a trimmed
    string and is bound to a [Set] of its own with at least one listener
    and no listener twice; so the test [set.size === 0] of [run] never
    holds for a [Set] that the map gave. *)
Theorem registry_stays_sound {T} (cfg : Config)
    (handler : lid → NexusEvent T → Behaviour) (event : NexusEvent T)
    (options : EmitAsyncOptions) (sched : list nat)
    (K : jsstring) (L : lid) (m : Manager) :
  sound m →
  sound empty_manager
  ∧ sound (after_register cfg K L m)
  ∧ sound (mgr (emit cfg handler event (init_St m)).2)
  ∧ sound (mgr (emitAsync cfg handler event options sched (init_St m)).2).
Proof.
  intros Hm. split_and!.
  - apply sound_empty.
  - by apply after_register_sound.
  - rewrite emit_mgr. by apply after_handlers_sound.
  - rewrite emitAsync_mgr. by apply after_handlers_sound.
Qed.

Lemma registry_stays_sound_witness :
  let m := Sample.manager [(" k ", 1); ("*", 8)] in
  sound empty_manager
  ∧ sound (after_register Sample.cfg (js "k") 2 m)
  ∧ sound (mgr (emit Sample.cfg Sample.handler (Sample.event "k")
                  (init_St m)).2)
  ∧ sound (mgr (emitAsync Sample.cfg Sample.handler (Sample.event "k")
                  (Sample.options None None None None) [] (init_St m)).2).
Proof.
  apply (registry_stays_sound Sample.cfg Sample.handler (Sample.event "k")
           (Sample.options None None None None) [] (js "k") 2
           (Sample.manager [(" k ", 1); ("*", 8)])).
  apply after_registers_sound, sound_empty.
Defined.

(** ** The race in [withTimeout] *)

Lemma race_step_settled (w : Wrapper) (ev : RaceEvent) (o : Settled) :
  settled w = Some o →
  ∃ w', race_step (Wrapped w) ev = Wrapped w' ∧ settled w' = Some o.
Proof.
  intros Hs. destruct w as [tm sb ta inn st]. cbn in Hs. subst st.
  destruct ev as [r| |]; cbn.
  - destruct inn; [eauto|]. destruct ta; eauto.
  - destruct tm; eauto.
  - destruct sb; eauto.
Qed.

(** A promise settles once: no event changes a state that is settled. *)
Lemma outcome_stable (evs : list RaceEvent) (a : Awaited) (o : Settled) :
  outcome a = Some o → outcome (run_race evs a) = Some o.
Proof.
  revert a. induction evs as [|ev evs IH]; intros a Ha; [done|].
  unfold run_race. cbn [foldl]. apply IH.
  destruct a as [p|w]; cbn in Ha.
  - subst p. by destruct ev.
  - destruct (race_step_settled w ev o Ha) as (w' & -> & Hw'). done.
Qed.

(** The wrapper around a pending promise, as the executor leaves it. *)
Lemma race_pending_wrapper (tm ab : bool) (evs : list RaceEvent) :
  outcome (run_race evs
             (Wrapped {| timer := if tm then Armed else NoTimer;
                         subscribed := ab; then_attached := true;
                         inner := None; settled := None |})) =
  first_event tm ab evs.
Proof.
  induction evs as [|ev evs IH]; [done|].
  unfold run_race in *. cbn [foldl first_event].
  destruct ev as [r| |].
  - cbn. by apply (outcome_stable evs).
  - destruct tm; cbn; [by apply (outcome_stable evs)|apply IH].
  - destruct ab; cbn; [by apply (outcome_stable evs)|apply IH].
Qed.

Lemma race_pending_passed (evs : list RaceEvent) :
  outcome (run_race evs (Passed None)) = first_event false false evs.
Proof.
  induction evs as [|ev evs IH]; [done|].
  unfold run_race in *. cbn [foldl first_event].
  destruct ev as [r| |]; [|apply IH..].
  cbn. by apply (outcome_stable evs).
Qed.

Lemma outcome_winner (p : option Settled) (timeoutMs : option num)
    (sg : option bool) (evs : list RaceEvent) :
  outcome (run_race evs (withTimeout p timeoutMs sg)) = winner p timeoutMs sg evs.
Proof.
  unfold withTimeout, winner, timed.
  destruct (from_option truthy false timeoutMs) eqn:Et;
    destruct sg as [[|]|]; cbn [negb andb given];
    try (by apply outcome_stable);
    destruct p as [r|]; try (by apply outcome_stable).
  - apply (race_pending_wrapper _ true).
  - apply (race_pending_wrapper _ false).
  - apply (race_pending_wrapper false true).
  - apply race_pending_passed.
Qed.

(** X9. What the promise returned by [withTimeout] settles to, for every
    promise, timeout, signal and order of events: to the abort error if
    the signal is aborted at the call; else to what [p] is settled to at
    the call; else to whichever comes first of the settlement of [p], the
    timer and the abort, where the timer counts only for a timeout that
    is a finite number other than zero, and the abort only if a signal
    was given. The events are those of the race as modelled here: they
    come once the reactions that are due at the call have run. *)
Theorem withTimeout_settles_with_first (p : option Settled)
    (timeoutMs : option num) (sg : option bool) (evs : list RaceEvent) :
  outcome (run_race evs (withTimeout p timeoutMs sg)) = winner p timeoutMs sg evs
  ∧ (timed timeoutMs = true ↔ ∃ z, timeoutMs = Some (Finite z) ∧ z ≠ 0%Z).
Proof.
  split; [apply outcome_winner|]. unfold timed. split.
  - destruct timeoutMs as [[| |z]|]; cbn; try done.
    intros Hz. exists z. split; [done|]. intros ->. done.
  - intros (z & -> & Hz). cbn. rewrite andb_true_r.
    apply negb_true_iff, Z.eqb_neq. done.
Qed.

(** X10. A settled promise stays as it is: once the promise that
    [runOne] awaits has an outcome, no later event of the race changes
    it, from any state of the wrapper. *)
Theorem settled_is_final (a : Awaited) (evs1 evs2 : list RaceEvent) :
  is_Some (outcome (run_race evs1 a)) →
  outcome (run_race (evs1 ++ evs2) a) = outcome (run_race evs1 a).
Proof.
  intros [o Ho]. unfold run_race in *. rewrite foldl_app, Ho.
  by apply (outcome_stable evs2).
Qed.

Lemma settled_is_final_witness :
  let a := withTimeout None (Some (Finite 100)) (Some false) in
  outcome (run_race ([TimerFires] ++ [PSettles Fulfilled; SignalAborts]) a) =
  outcome (run_race [TimerFires] a).
Proof.
  apply (settled_is_final (withTimeout None (Some (Finite 100)) (Some false))
           [TimerFires] [PSettles Fulfilled; SignalAborts]).
  vm_compute. eauto.
Defined.

Lemma race_step_inner (a : Awaited) (ev : RaceEvent) :
  is_Some (inner_of a) → is_Some (inner_of (race_step a ev)).
Proof.
  destruct a as [p|w]; cbn.
  - intros [r ->]. by destruct ev.
  - destruct w as [tm sb ta inn st]. cbn. intros [r ->].
    destruct ev as [r'| |]; cbn; [done| |].
    + by destruct tm.
    + by destruct sb.
Qed.

Lemma run_race_inner (evs : list RaceEvent) (a : Awaited) :
  is_Some (inner_of a) → is_Some (inner_of (run_race evs a)).
Proof.
  revert a. induction evs as [|ev evs IH]; intros a Ha; [done|].
  unfold run_race. cbn [foldl]. by apply IH, race_step_inner.
Qed.

Lemma race_step_settles (a : Awaited) (r : Settled) :
  is_Some (inner_of (race_step a (PSettles r))).
Proof.
  destruct a as [[q|]|w]; cbn; [done..|].
  destruct w as [tm sb ta inn st]. cbn.
  destruct inn; [done|]. by destruct ta.
Qed.

Lemma run_race_settles (evs : list RaceEvent) (a : Awaited) (r : Settled) :
  PSettles r ∈ evs → is_Some (inner_of (run_race evs a)).
Proof.
  revert a. induction evs as [|ev evs IH]; intros a Hin.
  - by apply elem_of_nil in Hin.
  - unfold run_race. cbn [foldl].
    apply elem_of_cons in Hin as [<-|Hin]; [|by apply IH].
    apply run_race_inner, race_step_settles.
Qed.

Lemma withTimeout_inner (p : option Settled) (timeoutMs : option num)
    (sg : option bool) :
  inner_of (withTimeout p timeoutMs sg) = p.
Proof.
  unfold withTimeout. destruct (negb _ && negb _); [done|].
  destruct sg as [[|]|], p; reflexivity.
Qed.

(** Once [p] has settled, at the call or in the race, first or after
    the timer or the abort, no timer is armed and [onAbort] is not
    subscribed to the signal. *)
Lemma released_after_settling (p : option Settled) (timeoutMs : option num)
    (sg : option bool) (evs : list RaceEvent) :
  is_Some p ∨ (∃ r, PSettles r ∈ evs) →
  released (run_race evs (withTimeout p timeoutMs sg)) = true.
Proof.
  intros H.
  assert (is_Some (inner_of (run_race evs (withTimeout p timeoutMs sg)))) as Hin.
  { destruct H as [Hp|[r Hr]].
    - apply run_race_inner. by rewrite withTimeout_inner.
    - by apply (run_race_settles evs _ r). }
  pose proof (released_when_inner_settled p timeoutMs sg evs) as Hrel.
  destruct (run_race evs (withTimeout p timeoutMs sg)) as [q|w]; [done|].
  cbn in Hin. destruct Hrel as [Ht Hs]; [by right|].
  cbn [released]. by rewrite Ht, Hs.
Qed.

(** The wrapper that the executor leaves around a pending promise. *)
Lemma withTimeout_pending (timeoutMs : option num) (sg : option bool) :
  sg ≠ Some true →
  from_option truthy false timeoutMs = true ∨ given sg = true →
  withTimeout None timeoutMs sg =
  Wrapped {| timer := if timed timeoutMs then Armed else NoTimer;
             subscribed := given sg; then_attached := true;
             inner := None; settled := None |}.
Proof.
  intros Hsg Hw. unfold withTimeout, timed.
  destruct sg as [[|]|]; [done|..];
    destruct (from_option truthy false timeoutMs); cbn in *;
    try reflexivity; by destruct Hw.
Qed.

Lemma run_race_passed (evs : list RaceEvent) (p : option Settled) :
  ∃ q, run_race evs (Passed p) = Passed q.
Proof.
  revert p. induction evs as [|ev evs IH]; intros p; [by exists p|].
  unfold run_race in *. cbn [foldl].
  destruct ev as [r| |], p; cbn; apply IH.
Qed.

(** While [p] is pending nothing takes [onAbort] off the signal. *)
Lemma race_keeps_subscription (evs : list RaceEvent) (w : Wrapper) :
  subscribed w = true → (∀ r, PSettles r ∉ evs) →
  ∃ w', run_race evs (Wrapped w) = Wrapped w' ∧ subscribed w' = true.
Proof.
  revert w. induction evs as [|ev evs IH]; intros w Hs Hno; [by exists w|].
  assert (∀ r, PSettles r ∉ evs) as Hno'.
  { intros r Hr. apply (Hno r), elem_of_cons. by right. }
  unfold run_race in *. cbn [foldl]. destruct ev as [r| |].
  - destruct (Hno r). apply elem_of_cons. by left.
  - cbn. destruct (timer w); by apply IH.
  - cbn. rewrite Hs. by apply IH.
Qed.

(** Without a subscription and while [p] is pending, the timer stays
    armed until it fires. *)
Lemma race_unsubscribed (evs : list RaceEvent) (w : Wrapper) :
  subscribed w = false → (∀ r, PSettles r ∉ evs) →
  ∃ w', run_race evs (Wrapped w) = Wrapped w' ∧ subscribed w' = false
        ∧ (is_armed (timer w') = true ↔
           is_armed (timer w) = true ∧ TimerFires ∉ evs).
Proof.
  revert w. induction evs as [|ev evs IH]; intros w Hs Hno.
  { exists w. split_and!; [done..|]. split; [|by intros [? _]].
    intros ?. split; [done|]. apply not_elem_of_nil. }
  assert (∀ r, PSettles r ∉ evs) as Hno'.
  { intros r Hr. apply (Hno r), elem_of_cons. by right. }
  unfold run_race in *. cbn [foldl]. destruct ev as [r| |].
  - destruct (Hno r). apply elem_of_cons. by left.
  - cbn. destruct (timer w) eqn:Et.
    1,3,4: destruct (IH w Hs Hno') as (w' & -> & Hs' & Harm);
      exists w'; split_and!; [done..|]; rewrite Harm, Et; cbn;
      split; by intros [? _].
    destruct (IH (onTimer w) Hs Hno') as (w' & -> & Hs' & Harm).
    exists w'. split_and!; [done..|]. rewrite Harm. cbn. split.
    + by intros [? _].
    + intros [_ Hn]. destruct Hn. apply elem_of_cons. by left.
  - cbn. rewrite Hs. destruct (IH w Hs Hno') as (w' & -> & Hs' & Harm).
    exists w'. split_and!; [done..|]. rewrite Harm, elem_of_cons.
    split; intros [? ?]; split; try done.
    + by intros [?|?].
    + intros ?. apply H0. by right.
Qed.

(** X11. When the wrapper still holds a timer or its place among the
    listeners of the signal, for every promise, timeout, signal and
    order of events: exactly when [p] is pending at the call and does
    not settle, and either a signal was given that was not aborted at
    the call, or no signal was given and the timer was set and has not
    fired. So the settlement of [p] releases everything, first or not;
    without it a timer goes only by firing, and the subscription does
    not go at all, also once the timer or the abort has rejected the
    wrapper. As in the rest of the race, a promise that is settled at
    the call has had its reactions run. *)
Theorem wrapper_holds_iff (p : option Settled) (timeoutMs : option num)
    (sg : option bool) (evs : list RaceEvent) :
  released (run_race evs (withTimeout p timeoutMs sg)) = false ↔
  p = None ∧ (∀ r, PSettles r ∉ evs)
  ∧ (sg = Some false
     ∨ (sg = None ∧ timed timeoutMs = true ∧ TimerFires ∉ evs)).
Proof.
  split.
  - intros Hrel.
    assert (p = None) as ->.
    { destruct p as [r|]; [|done].
      rewrite released_after_settling in Hrel; [done|]. left. eauto. }
    assert (∀ r, PSettles r ∉ evs) as Hno.
    { intros r Hr. rewrite released_after_settling in Hrel; [done|].
      right. eauto. }
    split_and!; [done..|].
    destruct sg as [[|]|].
    + destruct (withTimeout_already_aborted None timeoutMs evs) as [_ Hr].
      cbn zeta in Hr. congruence.
    + by left.
    + right. split; [done|].
      destruct (from_option truthy false timeoutMs) eqn:Et.
      * rewrite withTimeout_pending in Hrel by (try done; by left).
        cbn [given] in Hrel.
        destruct (race_unsubscribed evs
                    {| timer := if timed timeoutMs then Armed else NoTimer;
                       subscribed := false; then_attached := true;
                       inner := None; settled := None |}
                    eq_refl Hno) as (w' & Hw' & Hs' & Harm).
        rewrite Hw' in Hrel. cbn [released timer] in *.
        rewrite Hs', andb_true_r in Hrel. apply negb_false_iff in Hrel.
        apply Harm in Hrel as [Ha Hn]. by destruct (timed timeoutMs).
      * rewrite withTimeout_passes in Hrel by done.
        destruct (run_race_passed evs None) as [q Hq].
        by rewrite Hq in Hrel.
  - intros (-> & Hno & [->|(-> & Ht & Hn)]).
    + rewrite withTimeout_pending by (try done; by right).
      cbn [given].
      destruct (race_keeps_subscription evs
                  {| timer := if timed timeoutMs then Armed else NoTimer;
                       subscribed := true; then_attached := true;
                       inner := None; settled := None |}
                  eq_refl Hno) as (w' & -> & Hs').
      cbn [released]. by rewrite Hs', andb_false_r.
    + rewrite withTimeout_pending; [|done|].
      2:{ left. unfold timed in Ht. by apply andb_prop in Ht as [? _]. }
      cbn [given].
      destruct (race_unsubscribed evs
                  {| timer := if timed timeoutMs then Armed else NoTimer;
                       subscribed := false; then_attached := true;
                       inner := None; settled := None |}
                  eq_refl Hno) as (w' & -> & Hs' & Harm).
      cbn [released timer] in *. rewrite Ht in Harm.
      destruct Harm as [_ ->]; done.
Qed.

(** ** One invocation in [emitAsync] *)

Section OneInvocation.
Context {T : Type}.
Variable cfg : Config.
Variable handler : lid → NexusEvent T → Behaviour.
Variable event : NexusEvent T.

Lemma outcome_aborted (timeOutMs : option num) (l : lid) :
  aborted_at_call (handler l event) = true →
  listener_outcome handler event timeOutMs (Some TheSignal) l =
  Some (Rejected (default ErrAborted (thrown handler event l))).
Proof.
  intros Hab. unfold listener_outcome.
  destruct (thrown handler event l) as [e|]; [done|].
  unfold wrapped, wrap. by rewrite outcome_winner, Hab.
Qed.

Lemma outcome_void (timeOutMs : option num) (l : lid) :
  sync (handler l event) = ReturnsVoid →
  listener_outcome handler event timeOutMs None l = Some Fulfilled.
Proof.
  intros Hv. unfold listener_outcome, thrown. rewrite Hv.
  unfold wrapped, wrap, promise_of. by rewrite outcome_winner, Hv.
Qed.
End OneInvocation.

(** The [catch] block of [runOne] with any sink: what the sink throws
    goes to the caller of [runOne] in every mode, before the test of
    [stopOnError] is reached. *)
Lemma runOne_catch_any (sk : Sink) (cfg : Config) (name mode : jsstring)
    (stop : bool) (i : nat) (e : error) (s : St) :
  ∃ o, runOne_catch (sk := sk) cfg name mode stop i e s =
         (match sink_throws cfg sk e name i with
          | Some e' => Exn e'
          | None => if is_sequential mode && stop then Exn e else Ok ()
          end,
          {| mgr := mgr s; out := out s ++ o; idx := idx s |})
       ∧ invoked o = []
       ∧ sink_calls o = if onError cfg then [(e, name, i)] else [].
Proof.
  unfold runOne_catch, report, sink_throws.
  destruct (onError cfg).
  - destruct (sink_outcome e name i) as [e'|]; mrun.
    + exists [OnError e name i]. done.
    + exists ([OnError e name i]
              ++ if debug cfg
                 then [ConsoleError (ListenerErrorMsg name e (Some i))]
                 else []).
      destruct (debug cfg), (is_sequential mode && stop); mrun;
        rewrite <- ?app_assoc, ?app_nil_r; done.
  - mrun.
    exists (if debug cfg
            then [ConsoleError (ListenerErrorMsg name e (Some i))] else []).
    destruct (debug cfg), (is_sequential mode && stop); mrun;
      rewrite ?app_nil_r, ?St_eta; done.
Qed.

(** X12. [runOne] does not look at the signal before it calls the
    handler. With a signal that is already aborted the handler is still
    called and its registrations are made; the invocation then fails,
    with what the handler threw or else with the abort error, whatever
    the handler returned, the timeout and the later events are; the
    failure goes to the sink, if one is installed. If the sink throws,
    [runOne] rejects with what it threw, in every mode; if it returns or
    none is installed, [runOne] rejects with the failure under
    [mode === 'sequential' && stopOnError] and returns otherwise. *)
Theorem aborted_signal_fails_invocation {T} (sk : Sink) (cfg : Config)
    (handler : lid → NexusEvent T → Behaviour) (event : NexusEvent T)
    (name mode : jsstring) (stop : bool) (timeOutMs : option num)
    (l : lid) (i : nat) (s : St) :
  aborted_at_call (handler l event) = true →
  let e := default ErrAborted (thrown handler event l) in
  ∃ o, runOne (sk := sk) cfg handler event name mode stop timeOutMs
         (Some TheSignal) l i s =
         (match sink_throws cfg sk e name i with
          | Some e' => Exn e'
          | None => if is_sequential mode && stop then Exn e else Ok ()
          end,
          {| mgr := after_registers cfg (regs (handler l event)) (mgr s);
             out := out s ++ o; idx := idx s |})
       ∧ invoked o = [l]
       ∧ sink_calls o = if onError cfg then [(e, name, i)] else [].
Proof.
  intros Hab e.
  assert (∃ o1,
    (call_handler cfg handler l event;;
     await (outcome (wrapped handler event timeOutMs (Some TheSignal) l))) s =
    (Exn e, {| mgr := after_registers cfg (regs (handler l event)) (mgr s);
               out := out s ++ Invoke l :: o1; idx := idx s |})
    ∧ silent o1) as (o1 & Hbody & Hi1 & Hs1).
  { rewrite bind_run.
    destruct (call_handler_run cfg handler event l s) as (o1 & -> & Hsil).
    exists o1. split; [|done]. subst e.
    destruct (thrown handler event l) as [e0|]; [done|].
    unfold wrapped, wrap. by rewrite outcome_winner, Hab. }
  unfold runOne, try_catch. rewrite Hbody.
  destruct (runOne_catch_any sk cfg name mode stop i e
              {| mgr := after_registers cfg (regs (handler l event)) (mgr s);
                 out := out s ++ Invoke l :: o1; idx := idx s |})
    as (o2 & -> & Hi2 & Hs2).
  cbn [mgr out idx]. exists ((Invoke l :: o1) ++ o2). rewrite app_assoc.
  split; [done|].
  by rewrite invoked_app, sink_calls_app, invoked_Invoke, sink_calls_Invoke,
    Hi1, Hs1, Hi2, Hs2.
Qed.

Lemma aborted_signal_fails_invocation_witness :
  let e := default ErrAborted (thrown Sample2.handler (Sample.event "k") 5) in
  ∃ o, runOne (sk := Sample.throwing) Sample.cfg Sample2.handler
         (Sample.event "k") (js "k") (js "parallel") true (Some (Finite 100))
         (Some TheSignal) 5 0 (init_St empty_manager) =
         (match sink_throws Sample.cfg Sample.throwing e (js "k") 0 with
          | Some e' => Exn e'
          | None => if is_sequential (js "parallel") && true
                    then Exn e else Ok ()
          end,
          {| mgr := after_registers Sample.cfg
                      (regs (Sample2.handler 5 (Sample.event "k")))
                      (mgr (init_St empty_manager));
             out := out (init_St empty_manager) ++ o;
             idx := idx (init_St empty_manager) |})
       ∧ invoked o = [5]
       ∧ sink_calls o = if onError Sample.cfg then [(e, js "k", 0)] else [].
Proof.
  apply (aborted_signal_fails_invocation Sample.throwing Sample.cfg
           Sample2.handler (Sample.event "k") (js "k") (js "parallel") true
           (Some (Finite 100)) 5 0 (init_St empty_manager)).
  reflexivity.
Defined.

(** X13. A handler that returns no promise cannot time out: when the
    handler returns [undefined] and no signal is given, the invocation
    ends well whatever the timeout is and whenever the timer fires;
    [runOne] returns and the sink is not called. *)
Theorem void_handler_ends_well {T} (cfg : Config)
    (handler : lid → NexusEvent T → Behaviour) (event : NexusEvent T)
    (name mode : jsstring) (stop : bool) (timeOutMs : option num)
    (l : lid) (i : nat) (s : St) :
  sync (handler l event) = ReturnsVoid →
  ∃ o, runOne cfg handler event name mode stop timeOutMs None l i s =
         (Ok (),
          {| mgr := after_registers cfg (regs (handler l event)) (mgr s);
             out := out s ++ o; idx := idx s |})
       ∧ invoked o = [l]
       ∧ sink_calls o = [].
Proof.
  intros Hv.
  destruct (runOne_run cfg handler event name mode stop timeOutMs
              None l i s) as (o & Hrun & Hi & Hs).
  exists o. unfold report_of, failure in Hs.
  rewrite outcome_void in Hrun, Hs by done. done.
Qed.

Lemma void_handler_ends_well_witness :
  ∃ o, runOne Sample.cfg Sample.handler (Sample.event "k") (js "k")
         (js "sequential") true (Some (Finite 1)) None 1 0
         (init_St empty_manager) =
         (Ok (),
          {| mgr := after_registers Sample.cfg
                      (regs (Sample.handler 1 (Sample.event "k")))
                      (mgr (init_St empty_manager));
             out := out (init_St empty_manager) ++ o;
             idx := idx (init_St empty_manager) |})
       ∧ invoked o = [1]
       ∧ sink_calls o = [].
Proof.
  apply (void_handler_ends_well Sample.cfg Sample.handler (Sample.event "k")
           (js "k") (js "sequential") true (Some (Finite 1))
           1 0 (init_St empty_manager)).
  reflexivity.
Defined.

(** ** The order of calls and reports *)

Lemma trace_app (o1 o2 : list Obs) : trace (o1 ++ o2) = trace o1 ++ trace o2.
Proof. apply omap_app. Qed.

Lemma trace_no_calls (o : list Obs) :
  invoked o = [] → trace o = inr <$> sink_calls o.
Proof.
  induction o as [|x o IH]; [done|].
  destruct x; cbn; intros H; [done|f_equal; by apply IH|by apply IH..].
Qed.

Lemma silent_trace (o : list Obs) : silent o → trace o = [].
Proof. intros [Hi Hs]. by rewrite trace_no_calls, Hs. Qed.

Lemma traces_app sink fails name i (l1 l2 : list lid) :
  traces sink fails name i (l1 ++ l2) =
  traces sink fails name i l1 ++ traces sink fails name (i + length l1) l2.
Proof.
  revert i. induction l1 as [|l l1 IH]; intros i; cbn [traces app length].
  - by rewrite Nat.add_0_r.
  - rewrite IH. replace (S i + length l1) with (i + S (length l1)) by lia.
    by rewrite <- app_assoc.
Qed.

Section EmitTrace.
Context {T : Type}.
Variable cfg : Config.
Variable handler : lid → NexusEvent T → Behaviour.
Variable event : NexusEvent T.

Lemma run_body_trace (name : jsstring) (l : lid) (s : St) :
  ∃ o, try_finally
         (try_catch (call_handler cfg handler l event)
            (λ e, i ← get_idx;
                  report cfg e name i;;
                  when (debug cfg)
                    (emit_obs (ConsoleError (ListenerErrorMsg name e None)))))
         (i ← get_idx; put_idx (S i)) s =
       (Ok (), {| mgr := after_registers cfg (regs (handler l event)) (mgr s);
                  out := out s ++ o; idx := S (idx s) |})
       ∧ trace o = traces (onError cfg) (thrown handler event) name (idx s) [l].
Proof.
  unfold try_finally, try_catch.
  destruct (call_handler_run cfg handler event l s) as (o1 & -> & Hsil).
  apply silent_trace in Hsil. cbn [traces].
  destruct (thrown handler event l) as [e|] eqn:Ethrown.
  - rewrite run_catch_run. mrun.
    eexists (Invoke l :: o1 ++ _). rewrite <- app_assoc. cbn [app].
    split; [reflexivity|].
    change (trace (Invoke l :: ?o)) with (inl l :: trace o).
    rewrite !trace_app, Hsil.
    by destruct (onError cfg), (debug cfg).
  - mrun. exists (Invoke l :: o1). split; [reflexivity|].
    change (trace (Invoke l :: ?o)) with (inl l :: trace o). by rewrite Hsil.
Qed.

Lemma run_loop_trace (name : jsstring) (ls : list lid) (s : St) :
  ∃ o, run_loop cfg handler event name ls s =
         (Ok (), {| mgr := after_handlers cfg handler event ls (mgr s);
                    out := out s ++ o; idx := idx s + length ls |})
       ∧ trace o = traces (onError cfg) (thrown handler event) name (idx s) ls.
Proof.
  revert s. induction ls as [|l ls IH]; intros s.
  - exists []. cbn. by rewrite app_nil_r, Nat.add_0_r, St_eta.
  - cbn [run_loop]. rewrite bind_run.
    destruct (run_body_trace name l s) as (o1 & -> & Ht1).
    destruct (IH {| mgr := after_registers cfg (regs (handler l event)) (mgr s);
                    out := out s ++ o1; idx := S (idx s) |})
      as (o2 & -> & Ht2).
    cbn [mgr out idx] in *. exists (o1 ++ o2). split.
    + cbn [after_handlers foldl length]. rewrite <- app_assoc.
      replace (idx s + S (length ls)) with (S (idx s) + length ls) by lia.
      reflexivity.
    + rewrite trace_app, Ht1, Ht2. cbn [traces]. by rewrite app_nil_r.
Qed.

Lemma run_trace (name : jsstring) (r : loc) (s : St) :
  ∃ o, run cfg handler event name (Some r) s =
         (Ok (), {| mgr := after_handlers cfg handler event (deref (mgr s) r) (mgr s);
                    out := out s ++ o;
                    idx := idx s + length (deref (mgr s) r) |})
       ∧ trace o = traces (onError cfg) (thrown handler event) name (idx s)
                     (deref (mgr s) r).
Proof.
  unfold run, Set_size, Array_from. mrun. case_bool_decide as Hsize.
  - apply length_zero_iff_nil in Hsize. rewrite Hsize.
    exists []. cbn. by rewrite app_nil_r, Nat.add_0_r, St_eta.
  - apply run_loop_trace.
Qed.

Lemma emit_trace (m : Manager) :
  let r := emit cfg handler event (init_St m) in
  trace (out r.2) =
  traces (onError cfg) (thrown handler event) (trim (name event)) 0
    (invoked (out r.2)).
Proof.
  intros r.
  destruct (emit_run cfg handler event m) as (s' & Hrun & _ & Hi & _).
  cbn zeta in Hi. subst r. rewrite Hrun. cbn [snd]. rewrite Hi. clear Hi.
  revert Hrun. unfold emit, Map_get. mrun.
  set (K := trim (name event)).
  set (o0 := if debug cfg then [ConsoleDebug (DispatchMsg (name event))] else []).
  set (P1 := listenersFor m K).
  assert (∀ s1 : St, mgr s1 = m → idx s1 = 0 → out s1 = o0 →
    (let (r, s2) := run cfg handler event K (listeners m !! K) s1 in
     match r with
     | Ok _ => match listeners m !! star with
               | Some _ => run cfg handler event K (listeners m !! star)
               | None => λ s, (Ok (), s)
               end s2
     | Exn e => (Exn e, s2)
     | Pending => (Pending, s2)
     end) = (Ok (), s') →
    trace (out s') =
    traces (onError cfg) (thrown handler event) K 0
      (P1 ++ match listeners m !! star with
             | Some r => deref (after_handlers cfg handler event P1 m) r
             | None => []
             end)) as Hmain.
  { intros s1 Hm Hidx Hout.
    assert (trace o0 = []) as Ht0 by (subst o0; by destruct (debug cfg)).
    assert (∃ o1, run cfg handler event K (listeners m !! K) s1 =
              (Ok (), {| mgr := after_handlers cfg handler event P1 m;
                         out := o0 ++ o1; idx := length P1 |})
            ∧ trace o1 = traces (onError cfg) (thrown handler event) K 0 P1)
      as (o1 & -> & Ht1).
    { subst P1. unfold listenersFor.
      destruct (listeners m !! K) as [r|] eqn:EK.
      - destruct (run_trace K r s1) as (o1 & E1 & H1).
        rewrite Hm, Hidx, Hout in *. cbn [Nat.add] in E1. eauto.
      - exists []. cbn. rewrite app_nil_r. destruct s1; cbn in *. by subst. }
    destruct (listeners m !! star) as [rw|] eqn:Estar.
    - destruct (run_trace K rw {| mgr := after_handlers cfg handler event P1 m;
                                  out := o0 ++ o1; idx := length P1 |})
        as (o2 & -> & Ht2).
      cbn [mgr out idx] in *. intros [= <-]. cbn [out].
      by rewrite !trace_app, Ht0, Ht1, Ht2, traces_app.
    - intros [= <-]. cbn [out].
      by rewrite !trace_app, Ht0, Ht1, !app_nil_r. }
  destruct (debug cfg); mrun; apply Hmain; done.
Qed.
End EmitTrace.

Section AsyncTrace.
Context {T : Type}.
Variable cfg : Config.
Variable handler : lid → NexusEvent T → Behaviour.
Variable event : NexusEvent T.
Variable name : jsstring.
Variable mode : jsstring.
Variable stopOnError : bool.
Variable timeOutMs : option num.
Variable signal : option AbortSignal.

Lemma runOne_trace (l : lid) (i : nat) (s : St) :
  ∃ o, (runOne cfg handler event name mode stopOnError timeOutMs signal
          l i s).2 =
         {| mgr := after_registers cfg (regs (handler l event)) (mgr s);
            out := out s ++ o; idx := idx s |}
       ∧ trace o = traces (onError cfg)
                     (failure handler event timeOutMs signal) name i [l].
Proof.
  unfold runOne, try_catch, failure, listener_outcome. cbn [traces].
  rewrite bind_run.
  destruct (call_handler_run cfg handler event l s) as (o1 & -> & Hsil).
  apply silent_trace in Hsil.
  assert (∀ e, ∃ o,
    (runOne_catch cfg name mode stopOnError i e
       {| mgr := after_registers cfg (regs (handler l event)) (mgr s);
          out := out s ++ Invoke l :: o1; idx := idx s |}).2 =
    {| mgr := after_registers cfg (regs (handler l event)) (mgr s);
       out := out s ++ o; idx := idx s |}
    ∧ trace o = inl l :: (if onError cfg then [inr (e, name, i)] else []) ++ [])
    as Hcatch.
  { intros e.
    destruct (runOne_catch_run cfg name mode stopOnError i e
                {| mgr := after_registers cfg (regs (handler l event)) (mgr s);
                   out := out s ++ Invoke l :: o1; idx := idx s |})
      as (o2 & -> & Hi2 & Hs2).
    cbn [snd mgr out idx]. exists ((Invoke l :: o1) ++ o2).
    rewrite app_assoc. split; [done|].
    rewrite trace_app, (trace_no_calls o2), Hs2 by done.
    change (trace (Invoke l :: o1)) with (inl l :: trace o1). rewrite Hsil.
    by destruct (onError cfg). }
  destruct (thrown handler event l) as [e|] eqn:Ethrown; [apply Hcatch|].
  unfold await.
  destruct (outcome (wrapped handler event timeOutMs signal l)) as [[|e]|];
    mrun; [|apply Hcatch|].
  all: exists (Invoke l :: o1); split; [done|].
  all: change (trace (Invoke l :: o1)) with (inl l :: trace o1);
    by rewrite Hsil.
Qed.

Lemma seq_loop_trace (ls : list lid) (i : nat) (s : St) :
  ∃ o, out (seq_loop cfg handler event name mode stopOnError timeOutMs signal
              ls i s).2 = out s ++ o
       ∧ trace o = traces (onError cfg)
                     (failure handler event timeOutMs signal) name i (invoked o).
Proof.
  revert i s. induction ls as [|l ls IH]; intros i s.
  - exists []. cbn. by rewrite app_nil_r.
  - cbn [seq_loop]. rewrite bind_run.
    destruct (runOne_trace l i s) as (o1 & Hst & Ht1).
    destruct (runOne_run cfg handler event name mode stopOnError timeOutMs
                signal l i s) as (o1' & Hrun & Hi1 & _).
    rewrite Hrun in Hst. cbn [snd] in Hst.
    assert (o1' = o1) as ->.
    { injection Hst as Hst. by apply app_inv_head in Hst. }
    clear Hst. rewrite Hrun.
    assert (∃ o, out s ++ o1 = out s ++ o
                 ∧ trace o = traces (onError cfg)
                               (failure handler event timeOutMs signal) name i
                               (invoked o)) as Hstop.
    { exists o1. by rewrite Hi1. }
    destruct (listener_outcome handler event timeOutMs signal l) as [[|e]|];
      [|destruct (is_sequential mode && stopOnError)|]; try exact Hstop.
    all: destruct (IH (S i)
                {| mgr := after_registers cfg (regs (handler l event)) (mgr s);
                   out := out s ++ o1; idx := idx s |}) as (o2 & -> & Ht2);
      cbn [out]; exists (o1 ++ o2); rewrite app_assoc; (split; [done|]);
      rewrite trace_app, invoked_app, Hi1, Ht1, Ht2; cbn [traces app];
      by rewrite app_nil_r.
Qed.

Hypothesis not_sequential : is_sequential mode = false.

Lemma runOne_start_trace (l : lid) (i : nat) (s : St) :
  ∃ o, (runOne_start cfg handler event name mode stopOnError timeOutMs signal
          l i s).2 =
         {| mgr := after_registers cfg (regs (handler l event)) (mgr s);
            out := out s ++ o; idx := idx s |}
       ∧ trace o = traces (onError cfg) (thrown handler event) name i [l].
Proof.
  unfold runOne_start, try_catch. cbn [traces]. rewrite bind_run.
  destruct (call_handler_run cfg handler event l s) as (o1 & -> & Hsil).
  apply silent_trace in Hsil.
  destruct (thrown handler event l) as [e|] eqn:Ethrown.
  - destruct (finish_catch_run cfg name mode stopOnError not_sequential i e
                {| mgr := after_registers cfg (regs (handler l event)) (mgr s);
                   out := out s ++ Invoke l :: o1; idx := idx s |})
      as (o2 & -> & Hi2 & Hs2).
    cbn [snd mgr out idx]. exists ((Invoke l :: o1) ++ o2).
    rewrite app_assoc. split; [done|].
    rewrite trace_app, (trace_no_calls o2), Hs2 by done.
    change (trace (Invoke l :: o1)) with (inl l :: trace o1). rewrite Hsil.
    by destruct (onError cfg).
  - mrun. exists (Invoke l :: o1). split; [done|].
    change (trace (Invoke l :: o1)) with (inl l :: trace o1). by rewrite Hsil.
Qed.

Lemma start_all_trace (ls : list lid) (i : nat) (rej : option error) (s : St) :
  ∃ o, out (start_all cfg handler event name mode stopOnError timeOutMs signal
              ls i rej s).2 = out s ++ o
       ∧ trace o = traces (onError cfg) (thrown handler event) name i ls.
Proof.
  revert i rej s. induction ls as [|l ls IH]; intros i rej s.
  - exists []. cbn. by rewrite app_nil_r.
  - cbn [start_all]. rewrite bind_run.
    destruct (runOne_start_trace l i s) as (o1 & Hst & Ht1).
    destruct (runOne_start_run cfg handler event name mode stopOnError
                timeOutMs signal not_sequential l i s) as (o1' & Hrun & _).
    rewrite Hrun in Hst. cbn [snd] in Hst.
    assert (o1' = o1) as ->.
    { injection Hst as Hst. by apply app_inv_head in Hst. }
    clear Hst. rewrite Hrun, bind_run.
    set (s1 := {| mgr := after_registers cfg (regs (handler l event)) (mgr s);
                  out := out s ++ o1; idx := idx s |}).
    set (rej1 := note _ rej).
    destruct (IH (S i) rej1 s1) as (o2 & Ho2 & Ht2).
    destruct (start_all_run cfg handler event name mode stopOnError timeOutMs
                signal not_sequential ls (S i) rej1 s1) as (o2' & Hrun2 & _).
    rewrite Hrun2 in Ho2 |- *. cbn [snd out] in Ho2. mrun.
    exists (o1 ++ o2). rewrite Ho2. subst s1. cbn [out].
    rewrite app_assoc. split; [done|].
    rewrite trace_app, Ht1, Ht2. cbn [traces]. by rewrite app_nil_r.
Qed.

Lemma concurrent_trace (snapshot : list lid) (sched : list nat) (s : St) :
  ∃ o, out (concurrent cfg handler event name mode stopOnError timeOutMs
              signal snapshot sched s).2 = out s ++ o
       ∧ trace o =
           traces (onError cfg) (thrown handler event) name 0 snapshot
           ++ (inr <$> late_reports cfg handler event name timeOutMs signal
                         snapshot [] sched).
Proof.
  unfold concurrent. rewrite bind_run.
  destruct (start_all_trace snapshot 0 None s) as (o1 & Ho1 & Ht1).
  destruct (start_all_run cfg handler event name mode stopOnError timeOutMs
              signal not_sequential snapshot 0 None s) as (o1' & Hrun & _).
  rewrite Hrun in Ho1 |- *. cbn [snd out] in Ho1.
  apply app_inv_head in Ho1 as ->. rewrite bind_run.
  change (imap (λ k l, task_state handler event timeOutMs signal [] (0 + k) l)
            snapshot)
    with (imap (task_state handler event timeOutMs signal []) snapshot).
  destruct (resume_all_run cfg handler event name mode stopOnError timeOutMs
              signal not_sequential snapshot sched []
              {| mgr := after_handlers cfg handler event snapshot (mgr s);
                 out := out s ++ o1; idx := idx s |})
    as (o2 & -> & Hi2 & Hs2).
  cbn [mgr out idx]. exists (o1 ++ o2). split.
  - rewrite app_assoc. unfold await.
    by destruct (Promise_all _) as [[|?]|].
  - by rewrite trace_app, Ht1, (trace_no_calls o2), Hs2.
Qed.
End AsyncTrace.

(** X14. Where the reports stand among the calls. The handler calls and
    the sink calls of a dispatch, taken in the order in which they are
    made: in [emit] and in sequential [emitAsync] every failure is
    reported after the call of its listener and before the next
    listener is called; in concurrent [emitAsync] that holds for the
    handlers that throw, and every other failure is reported after all
    the listeners have been called, in the order in which the awaited
    promises settle. *)
Theorem reports_between_calls {T} (cfg : Config)
    (handler : lid → NexusEvent T → Behaviour) (event : NexusEvent T)
    (options : EmitAsyncOptions) (sched : list nat) (m : Manager) :
  let K := trim (name event) in
  let r := emit cfg handler event (init_St m) in
  let ra := emitAsync cfg handler event options sched (init_St m) in
  trace (out r.2) =
    traces (onError cfg) (thrown handler event) K 0 (invoked (out r.2))
  ∧ trace (out ra.2) =
      if is_sequential (default (js "sequential") (mode options))
      then traces (onError cfg)
             (failure handler event (timeOutMs options) (signal options))
             K 0 (invoked (out ra.2))
      else traces (onError cfg) (thrown handler event) K 0 (invoked (out ra.2))
           ++ (inr <$> late_reports cfg handler event K (timeOutMs options)
                         (signal options) (invoked (out ra.2)) [] sched).
Proof.
  intros K r ra. subst K. split; [apply emit_trace|].
  destruct (is_sequential _) eqn:Eseq.
  - subst ra. rewrite emitAsync_run, Eseq.
    set (s0 := {| mgr := m; out := _; idx := 0 |}).
    assert (trace (out s0) = [] ∧ invoked (out s0) = []) as [Ht0 Hi0].
    { cbn. by destruct (debug cfg). }
    destruct (seq_loop_trace cfg handler event (trim (name event))
                (default (js "sequential") (mode options))
                (default false (stopOnError options))
                (timeOutMs options) (signal options)
                (listenersFor m (trim (name event)) ++ listenersFor m star) 0 s0)
      as (o & -> & Ht).
    by rewrite trace_app, invoked_app, Ht0, Hi0.
  - subst ra. rewrite emitAsync_invoked_all by done.
    rewrite emitAsync_run, Eseq.
    set (s0 := {| mgr := m; out := _; idx := 0 |}).
    assert (trace (out s0) = []) as Ht0.
    { cbn. by destruct (debug cfg). }
    destruct (concurrent_trace cfg handler event (trim (name event))
                (default (js "sequential") (mode options))
                (default false (stopOnError options))
                (timeOutMs options) (signal options) Eseq
                (listenersFor m (trim (name event)) ++ listenersFor m star)
                sched s0)
      as (o & -> & Ht).
    by rewrite trace_app, Ht0, Ht.
Qed.

(** ** The listeners that a dispatch calls *)


(** ** The debug flag and the limit of listeners *)

Lemma sim_refl (s : St) : sim s s.
Proof. done. Qed.

Lemma msim_ret {A} (a : A) : msim (mret a) (mret a).
Proof. intros s s' Hs. by split. Qed.

Lemma msim_throw {A} (e : error) : msim (@throw A e) (throw e).
Proof. intros s s' Hs. by split. Qed.

Lemma msim_never {A} : msim (@never A) never.
Proof. intros s s' Hs. by split. Qed.

Lemma msim_bind {A B} (c c' : M A) (f f' : A → M B) :
  msim c c' → (∀ a, msim (f a) (f' a)) → msim (c ≫= f) (c' ≫= f').
Proof.
  intros Hc Hf s s' Hs. rewrite !bind_run.
  destruct (Hc s s' Hs) as [Hr Hs2].
  destruct (c s) as [[a|e|] s1], (c' s') as [[a'|e'|] s1']; cbn in *;
    try discriminate; simplify_eq; [by apply Hf|by split..].
Qed.

Lemma msim_try_catch {A} (c c' : M A) (h h' : error → M A) :
  msim c c' → (∀ e, msim (h e) (h' e)) →
  msim (try_catch c h) (try_catch c' h').
Proof.
  intros Hc Hh s s' Hs. unfold try_catch.
  destruct (Hc s s' Hs) as [Hr Hs2].
  destruct (c s) as [[a|e|] s1], (c' s') as [[a'|e'|] s1']; cbn in *;
    try discriminate; simplify_eq; [by split|by apply Hh|by split].
Qed.

Lemma msim_try_finally {A} (c c' : M A) (f f' : M ()) :
  msim c c' → msim f f' → msim (try_finally c f) (try_finally c' f').
Proof.
  intros Hc Hf s s' Hs. unfold try_finally.
  destruct (Hc s s' Hs) as [Hr Hs2].
  destruct (c s) as [[a|e|] s1], (c' s') as [[a'|e'|] s1']; cbn in *;
    try discriminate; simplify_eq; [| |by split].
  all: destruct (Hf s1 s1' Hs2) as [Hr' Hs3];
    destruct (f s1) as [[?|?|] s2], (f' s1') as [[?|?|] s2']; cbn in *;
    try discriminate; simplify_eq; by split.
Qed.

Lemma msim_get_mgr : msim get_mgr get_mgr.
Proof. intros s s' (Hm & Hi & Ho). split; [cbn; by rewrite Hm|done]. Qed.

Lemma msim_put_mgr (m : Manager) : msim (put_mgr m) (put_mgr m).
Proof. intros s s' (Hm & Hi & Ho). by split. Qed.

Lemma msim_get_idx : msim get_idx get_idx.
Proof. intros s s' (Hm & Hi & Ho). split; [cbn; by rewrite Hi|done]. Qed.

Lemma msim_put_idx (i : nat) : msim (put_idx i) (put_idx i).
Proof. intros s s' (Hm & Hi & Ho). by split. Qed.

Lemma msim_obs (o : Obs) : msim (emit_obs o) (emit_obs o).
Proof.
  intros s s' (Hm & Hi & Ho). split; [done|]. split_and!; [done..|].
  cbn. by rewrite !trace_app, Ho.
Qed.

Lemma msim_when (b : bool) (c c' : M ()) :
  msim c c' → msim (when b c) (when b c').
Proof. intros H. destruct b; [done|apply msim_ret]. Qed.

Lemma msim_quiet (c c' : M ()) : quiet c → quiet c' → msim c c'.
Proof.
  intros Hc Hc' s s' (Hm & Hi & Ho).
  destruct (Hc s) as (o & -> & Ht), (Hc' s') as (o' & -> & Ht').
  split; [done|]. split_and!; [done..|].
  cbn. by rewrite !trace_app, Ht, Ht', Ho.
Qed.

Lemma quiet_ret : quiet (mret ()).
Proof. intros s. exists []. by rewrite app_nil_r, St_eta. Qed.

Lemma quiet_debug (b : bool) (m : Msg) : quiet (when b (emit_obs (ConsoleDebug m))).
Proof. intros s. rewrite when_obs_run. eexists. split; [done|]. by destruct b. Qed.

Lemma quiet_error (b : bool) (m : Msg) : quiet (when b (emit_obs (ConsoleError m))).
Proof. intros s. rewrite when_obs_run. eexists. split; [done|]. by destruct b. Qed.

Ltac msim_go :=
  repeat first
    [ simple apply @msim_ret | simple apply @msim_throw
    | simple apply @msim_never
    | simple apply msim_get_mgr | simple apply msim_put_mgr
    | simple apply msim_get_idx | simple apply msim_put_idx
    | simple apply msim_obs
    | simple apply msim_quiet; [simple apply quiet_debug|simple apply quiet_debug]
    | simple apply msim_quiet; [simple apply quiet_error|simple apply quiet_error]
    | simple apply msim_when
    | simple apply @msim_bind; [|intros ?]
    | simple apply @msim_try_catch; [|intros ?]
    | simple apply @msim_try_finally
    | match goal with
      | |- msim (match ?x with _ => _ end) (match ?x with _ => _ end) =>
          destruct x
      end ].

Section Observation.
Variables cfg cfg' : Config.
Hypothesis same_sink : onError cfg = onError cfg'.

Lemma register_sim (k : jsstring) (l : lid) :
  msim (register cfg k l) (register cfg' k l).
Proof.
  unfold register, Map_get, new_Set, Set_add, Set_size, Map_set. msim_go.
  apply msim_quiet.
  - destruct (exceeds cfg _); [apply quiet_debug|apply quiet_ret].
  - destruct (exceeds cfg' _); [apply quiet_debug|apply quiet_ret].
Qed.

Lemma register_all_sim (rs : list (jsstring * lid)) :
  msim (register_all cfg rs) (register_all cfg' rs).
Proof.
  induction rs as [|[k l] rs IH]; cbn [register_all]; msim_go; [|done].
  apply register_sim.
Qed.

Context {T : Type}.
Variable handler : lid → NexusEvent T → Behaviour.
Variable event : NexusEvent T.

Lemma call_handler_sim (l : lid) :
  msim (call_handler cfg handler l event) (call_handler cfg' handler l event).
Proof. unfold call_handler. msim_go. apply register_all_sim. Qed.

Lemma report_sim (e : error) (name : jsstring) (i : nat) :
  msim (report cfg e name i) (report cfg' e name i).
Proof. unfold report. rewrite same_sink. msim_go. Qed.

Lemma run_loop_sim (name : jsstring) (ls : list lid) :
  msim (run_loop cfg handler event name ls) (run_loop cfg' handler event name ls).
Proof.
  induction ls as [|l ls IH]; cbn [run_loop]; msim_go; try done.
  - apply call_handler_sim.
  - apply report_sim.
Qed.

Lemma run_sim (name : jsstring) (set : option loc) :
  msim (run cfg handler event name set) (run cfg' handler event name set).
Proof.
  unfold run, Set_size, Array_from. msim_go. apply run_loop_sim.
Qed.

Lemma emit_sim : msim (emit cfg handler event) (emit cfg' handler event).
Proof.
  unfold emit, Map_get. msim_go; apply run_sim.
Qed.

Variable name : jsstring.
Variable mode : jsstring.
Variable stopOnError : bool.
Variable timeOutMs : option num.
Variable signal : option AbortSignal.

Lemma runOne_catch_sim (i : nat) (e : error) :
  msim (runOne_catch cfg name mode stopOnError i e)
       (runOne_catch cfg' name mode stopOnError i e).
Proof. unfold runOne_catch. msim_go. apply report_sim. Qed.

Lemma runOne_sim (l : lid) (i : nat) :
  msim (runOne cfg handler event name mode stopOnError timeOutMs signal l i)
       (runOne cfg' handler event name mode stopOnError timeOutMs signal l i).
Proof.
  unfold runOne, await. msim_go.
  - apply call_handler_sim.
  - apply runOne_catch_sim.
Qed.

Lemma seq_loop_sim (ls : list lid) (i : nat) :
  msim (seq_loop cfg handler event name mode stopOnError timeOutMs signal ls i)
       (seq_loop cfg' handler event name mode stopOnError timeOutMs signal ls i).
Proof.
  revert i. induction ls as [|l ls IH]; intros i; cbn [seq_loop]; msim_go.
  - apply runOne_sim.
  - apply IH.
Qed.

Lemma finish_sim (c c' : M ()) : msim c c' → msim (finish c) (finish c').
Proof.
  intros Hc s s' Hs. unfold finish.
  destruct (Hc s s' Hs) as [Hr Hs2].
  destruct (c s) as [[a|e|] s1], (c' s') as [[a'|e'|] s1']; cbn in *;
    try discriminate; simplify_eq; by split.
Qed.

Lemma runOne_start_sim (l : lid) (i : nat) :
  msim (runOne_start cfg handler event name mode stopOnError timeOutMs signal l i)
       (runOne_start cfg' handler event name mode stopOnError timeOutMs signal l i).
Proof.
  unfold runOne_start. msim_go.
  - apply call_handler_sim.
  - apply finish_sim, runOne_catch_sim.
Qed.

Lemma runOne_resume_sim (t : Task) :
  msim (runOne_resume cfg name mode stopOnError t)
       (runOne_resume cfg' name mode stopOnError t).
Proof.
  unfold runOne_resume. msim_go. apply finish_sim, runOne_catch_sim.
Qed.

Lemma start_all_sim (ls : list lid) (i : nat) (rej : option error) :
  msim (start_all cfg handler event name mode stopOnError timeOutMs signal
          ls i rej)
       (start_all cfg' handler event name mode stopOnError timeOutMs signal
          ls i rej).
Proof.
  revert i rej. induction ls as [|l ls IH]; intros i rej; cbn [start_all];
    msim_go.
  - apply runOne_start_sim.
  - apply IH.
Qed.

Lemma resume_at_sim (k : nat) (j : Join) :
  msim (resume_at cfg name mode stopOnError k j)
       (resume_at cfg' name mode stopOnError k j).
Proof. unfold resume_at. msim_go. apply runOne_resume_sim. Qed.

Lemma resume_all_sim (sched : list nat) (j : Join) :
  msim (resume_all cfg name mode stopOnError sched j)
       (resume_all cfg' name mode stopOnError sched j).
Proof.
  revert j. induction sched as [|k sched IH]; intros j; cbn [resume_all];
    msim_go.
  - apply resume_at_sim.
  - apply IH.
Qed.

Lemma concurrent_sim (snapshot : list lid) (sched : list nat) :
  msim (concurrent cfg handler event name mode stopOnError timeOutMs signal
          snapshot sched)
       (concurrent cfg' handler event name mode stopOnError timeOutMs signal
          snapshot sched).
Proof.
  unfold concurrent, await. msim_go.
  - apply start_all_sim.
  - apply resume_all_sim.
Qed.
End Observation.

Lemma emitAsync_sim {T} (cfg cfg' : Config)
    (handler : lid → NexusEvent T → Behaviour) (event : NexusEvent T)
    (options : EmitAsyncOptions) (sched : list nat) :
  onError cfg = onError cfg' →
  msim (emitAsync cfg handler event options sched)
       (emitAsync cfg' handler event options sched).
Proof.
  intros Hsink. unfold emitAsync, Map_get, Array_from. msim_go.
  - by apply seq_loop_sim.
  - by apply concurrent_sim.
Qed.

(** X16. The debug flag and the limit of listeners are for the console
    only. Two configurations with the same sink give, for [register],
    [emit] and [emitAsync] on the same input, the same result, the same
    manager and the same handler calls and sink calls in the same
    order: no listener is refused or dropped at the limit, and no
    dispatch goes another way under [debug]. *)
Theorem debug_and_limit_change_nothing {T} (cfg cfg' : Config)
    (handler : lid → NexusEvent T → Behaviour) (event : NexusEvent T)
    (options : EmitAsyncOptions) (sched : list nat)
    (K : jsstring) (L : lid) (m : Manager) :
  onError cfg = onError cfg' →
  same_run (register cfg K L (init_St m)) (register cfg' K L (init_St m))
  ∧ same_run (emit cfg handler event (init_St m))
             (emit cfg' handler event (init_St m))
  ∧ same_run (emitAsync cfg handler event options sched (init_St m))
             (emitAsync cfg' handler event options sched (init_St m)).
Proof.
  intros Hsink. split_and!.
  - by apply register_sim.
  - by apply emit_sim.
  - by apply emitAsync_sim.
Qed.

Lemma debug_and_limit_change_nothing_witness :
  let m := Sample.manager [("k", 1); ("k", 2); ("*", 4)] in
  let ev := Sample.event "k" in
  let opts := Sample.options (Some "parallel") None (Some (Finite 50)) None in
  same_run (register Sample.cfg (js "k") 7 (init_St m))
           (register Sample2.cfg (js "k") 7 (init_St m))
  ∧ same_run (emit Sample.cfg Sample.handler ev (init_St m))
             (emit Sample2.cfg Sample.handler ev (init_St m))
  ∧ same_run (emitAsync Sample.cfg Sample.handler ev opts [2; 0] (init_St m))
             (emitAsync Sample2.cfg Sample.handler ev opts [2; 0] (init_St m)).
Proof.
  apply (debug_and_limit_change_nothing Sample.cfg Sample2.cfg Sample.handler
           (Sample.event "k")
           (Sample.options (Some "parallel") None (Some (Finite 50)) None)
           [2; 0] (js "k") 7
           (Sample.manager [("k", 1); ("k", 2); ("*", 4)])).
  reflexivity.
Defined.
